(** * A shallow embedding of parts of the nuclei template engine

    The development follows the Go sources package by package.  The first part
    holds the definitions:
    - [GoStrings], [GoRegexp], [GoNet] : the functions of Go's [strings],
      [regexp], [net] and [net/url] packages that the code calls;
    - [Matchers]   : [pkg/operators/matchers/match.go];
    - [Requests]   : [pkg/requests/bulk-http-request.go];
    - [HTTP]       : [pkg/protocols/http], the base URL of the request
                     generator and the sequential loop of [ExecuteWithResults];
    - [Executor]   : the redirect policy of [pkg/executor/executer_http.go];
    - [Templates]  : [Parse] of [pkg/templates/compile.go] with its cache, and
                     the validation functions of the [parsers] package;
    - [Parsers]    : [ParseTemplate] of the [parsers] package;
    - [Core]       : the scan engine's [executeModelWithInput];
    - [Generators] : [pkg/protocols/common/generators/maps.go];
    - [RequestGenerator], [Multi] : the request generator and the
                     multi-protocol [ExecuteWithResults] of
                     [pkg/protocols/http/build_request.go];
    - [ExecutorHTTP] : the custom headers and the outputs of a response in
                     [pkg/executor/executer_http.go];
    - [Strategies] : the scan strategies of the engine.
    The second part holds the properties, one module of facts per package.

    Go errors are values of [Result]; maps are stdpp [gmap]s and sets [gset]s;
    Go's [int] is modelled by [Z], [uint32] by [N] with the wrap-around written
    out; a [for ... range] loop with early returns is a [Fixpoint] over the
    elements that remain. *)

From Stdlib Require Import ZArith NArith List Bool String Ascii Lia.
From stdpp Require Import base gmap strings list pretty.

Set Default Proof Using "Type".
Set Warnings "-clear-no-such-hyp".

(** ** Errors as values *)

Inductive Result (A : Type) : Type :=
| Ok (a : A)
| Err (msg : string).
Arguments Ok {A} a.
Arguments Err {A} msg.

Definition isOk {A} (r : Result A) : bool :=
  match r with Ok _ => true | Err _ => false end.

(** Values stored under [interface{}] in event and payload maps. *)
Inductive Value : Type :=
| VNil
| VBool (b : bool)
| VInt (z : Z)
| VStr (s : string)
| VList (l : list string).

(** ** Go's [strings] package *)

Module GoStrings.

(** [strings.HasPrefix(s, prefix)] *)
Fixpoint HasPrefix (s prefix : string) {struct prefix} : bool :=
  match prefix with
  | EmptyString => true
  | String c prefix' =>
      match s with
      | EmptyString => false
      | String d s' => if Ascii.eqb c d then HasPrefix s' prefix' else false
      end
  end.

(** [strings.Contains(s, substr)] *)
Fixpoint Contains (s substr : string) : bool :=
  HasPrefix s substr ||
  match s with
  | EmptyString => false
  | String _ s' => Contains s' substr
  end.

(** The ASCII part of [unicode.ToLower]: 'A'..'Z' are moved to 'a'..'z',
    every other byte is kept. *)
Definition lowerAscii (c : ascii) : ascii :=
  let n := nat_of_ascii c in
  if (65 <=? n)%nat && (n <=? 90)%nat then ascii_of_nat (n + 32) else c.

(** Go's case functions work byte by byte on a string of ASCII bytes (all
    below 0x80) and rune by rune, through the Unicode tables, on any other
    string.  The tables are not modelled: what the functions answer on a string
    that is not ASCII is left open. *)
Class Unicode : Type := {
  (** [strings.Map(unicode.ToLower, s)] *)
  MapToLower : string -> string;
  (** [strings.EqualFold(s, t)] when [s] or [t] is not ASCII *)
  EqualFoldRunes : string -> string -> bool;
  (** [strings.TrimSpace(s)] when [s] is not ASCII *)
  TrimSpaceRunes : string -> string
}.

(** Does the string hold ASCII bytes only? *)
Fixpoint isASCII (s : string) : bool :=
  match s with
  | EmptyString => true
  | String c s' => (nat_of_ascii c <? 128)%nat && isASCII s'
  end.

(** The branch of [strings.ToLower] for ASCII strings. *)
Fixpoint toLowerASCII (s : string) : string :=
  match s with
  | EmptyString => EmptyString
  | String c s' => String (lowerAscii c) (toLowerASCII s')
  end.

(** [strings.ToLower(s)] *)
Definition ToLower {U : Unicode} (s : string) : string :=
  if isASCII s then toLowerASCII s else MapToLower s.

(** [strings.EqualFold(s, t)]: on ASCII strings, equality up to the case of
    the letters. *)
Definition EqualFold {U : Unicode} (s t : string) : bool :=
  if isASCII s && isASCII t then String.eqb (toLowerASCII s) (toLowerASCII t)
  else EqualFoldRunes s t.

(** The white space of ASCII ([asciiSpace] in Go's [strings] package): the
    space and the bytes from tab to carriage return. *)
Definition isSpaceByte (c : ascii) : bool :=
  let n := nat_of_ascii c in
  (n =? 32)%nat || ((9 <=? n)%nat && (n <=? 13)%nat).

(** The string without its leading white space. *)
Fixpoint trimLeft (s : string) : string :=
  match s with
  | EmptyString => EmptyString
  | String c rest => if isSpaceByte c then trimLeft rest else s
  end.

(** The string without its trailing white space. *)
Fixpoint trimRight (s : string) : string :=
  match s with
  | EmptyString => EmptyString
  | String c rest =>
      match trimRight rest with
      | EmptyString => if isSpaceByte c then EmptyString else String c EmptyString
      | rest' => String c rest'
      end
  end.

(** The branch of [strings.TrimSpace] for ASCII strings. *)
Definition trimSpaceASCII (s : string) : string := trimRight (trimLeft s).

(** Tables in which no rune outside ASCII is a letter with a case or a white
    space; the closed examples below are on ASCII text and never consult
    them. *)
Definition asciiText : Unicode :=
  {| MapToLower := toLowerASCII;
     EqualFoldRunes := fun s t => String.eqb (toLowerASCII s) (toLowerASCII t);
     TrimSpaceRunes := trimSpaceASCII |}.

End GoStrings.

(** ** [pkg/operators/matchers/match.go] *)

Module Matchers.
Import GoStrings.

(** Modelled from the spec: the declaration of [ConditionType] is not under
    src/; the condition of a matcher is either and or or. *)
Inductive ConditionType : Type := ANDCondition | ORCondition.

Definition ConditionType_eqb (a b : ConditionType) : bool :=
  match a, b with
  | ANDCondition, ANDCondition | ORCondition, ORCondition => true
  | _, _ => false
  end.

(** A compiled regular expression ([*regexp.Regexp]) is represented by the two
    methods the matcher calls on it. *)
Record Regexp : Type := {
  MatchString : string -> bool;
  FindAllString : string -> list string
}.

(** A compiled DSL expression ([*govaluate.EvaluableExpression]) is represented
    by its [Evaluate] method: a value or an error. *)
Record EvaluableExpression : Type := {
  Evaluate : gmap string Value -> Result Value
}.

Record Matcher : Type := {
  Status : list Z;
  Size : list Z;
  Words : list string;
  Binary : list string;
  CaseInsensitive : bool;
  condition : ConditionType;
  regexCompiled : list Regexp;
  binaryDecoded : list string;
  dslCompiled : list EvaluableExpression
}.

(** [MatchStatusCode]: the range loop returns on the first equal status. *)
Fixpoint MatchStatusCode_loop (statuses : list Z) (statusCode : Z) : bool :=
  match statuses with
  | [] => false
  | status :: rest =>
      if negb (statusCode =? status)%Z then MatchStatusCode_loop rest statusCode
      else true
  end.

Definition MatchStatusCode (matcher : Matcher) (statusCode : Z) : bool :=
  MatchStatusCode_loop (Status matcher) statusCode.

(** [MatchSize] *)
Fixpoint MatchSize_loop (sizes : list Z) (length : Z) : bool :=
  match sizes with
  | [] => false
  | size :: rest =>
      if negb (length =? size)%Z then MatchSize_loop rest length else true
  end.

Definition MatchSize (matcher : Matcher) (length : Z) : bool :=
  MatchSize_loop (Size matcher) length.

Section WithEvaluate.

(** [expressions.Evaluate(word, dynamicValues)] belongs to another package; the
    matcher only depends on whether it returns a string or an error. *)
Variable exprEvaluate : string -> gmap string Value -> Result string.
Context {U : Unicode}.

(** The body of the range loop of [MatchWords]: [i] is the loop index, [ws] the
    words still to visit, [matchedWords] the accumulator. *)
Fixpoint MatchWords_loop (matcher : Matcher) (corpus : string)
    (dynamicValues : gmap string Value)
    (i : Z) (ws : list string) (matchedWords : list string)
  : bool * list string :=
  match ws with
  | [] => (false, [])
  | word :: rest =>
      match exprEvaluate word dynamicValues with
      | Err _ => MatchWords_loop matcher corpus dynamicValues (i + 1) rest matchedWords
      | Ok word =>
          if negb (Contains corpus word) then
            if ConditionType_eqb (condition matcher) ANDCondition then (false, [])
            else MatchWords_loop matcher corpus dynamicValues (i + 1) rest matchedWords
          else if ConditionType_eqb (condition matcher) ORCondition then (true, [word])
          else
            let matchedWords := matchedWords ++ [word] in
            if (Z.of_nat (length (Words matcher)) - 1 =? i)%Z then (true, matchedWords)
            else MatchWords_loop matcher corpus dynamicValues (i + 1) rest matchedWords
      end
  end.

Definition MatchWords (matcher : Matcher) (corpus : string)
    (dynamicValues : gmap string Value) : bool * list string :=
  let corpus := if CaseInsensitive matcher then ToLower corpus else corpus in
  MatchWords_loop matcher corpus dynamicValues 0 (Words matcher) [].

End WithEvaluate.

(** [MatchRegex] *)
Fixpoint MatchRegex_loop (matcher : Matcher) (corpus : string)
    (i : Z) (rs : list Regexp) (matchedRegexes : list string)
  : bool * list string :=
  match rs with
  | [] => (false, [])
  | regex :: rest =>
      if negb (MatchString regex corpus) then
        if ConditionType_eqb (condition matcher) ANDCondition then (false, [])
        else MatchRegex_loop matcher corpus (i + 1) rest matchedRegexes
      else
        let currentMatches := FindAllString regex corpus in
        if ConditionType_eqb (condition matcher) ORCondition then (true, currentMatches)
        else
          let matchedRegexes := matchedRegexes ++ currentMatches in
          if (Z.of_nat (length (regexCompiled matcher)) - 1 =? i)%Z
          then (true, matchedRegexes)
          else MatchRegex_loop matcher corpus (i + 1) rest matchedRegexes
  end.

Definition MatchRegex (matcher : Matcher) (corpus : string) : bool * list string :=
  MatchRegex_loop matcher corpus 0 (regexCompiled matcher) [].

(** [MatchBinary]: the loop ranges over [binaryDecoded] but the end test reads
    [len(matcher.Binary)]. *)
Fixpoint MatchBinary_loop (matcher : Matcher) (corpus : string)
    (i : Z) (bs : list string) (matchedBinary : list string)
  : bool * list string :=
  match bs with
  | [] => (false, [])
  | binary :: rest =>
      if negb (Contains corpus binary) then
        if ConditionType_eqb (condition matcher) ANDCondition then (false, [])
        else MatchBinary_loop matcher corpus (i + 1) rest matchedBinary
      else if ConditionType_eqb (condition matcher) ORCondition then (true, [binary])
      else
        let matchedBinary := matchedBinary ++ [binary] in
        if (Z.of_nat (length (Binary matcher)) - 1 =? i)%Z then (true, matchedBinary)
        else MatchBinary_loop matcher corpus (i + 1) rest matchedBinary
  end.

Definition MatchBinary (matcher : Matcher) (corpus : string) : bool * list string :=
  MatchBinary_loop matcher corpus 0 (binaryDecoded matcher) [].

(** [MatchDSL]: [result.(bool)] succeeds only on a boolean value. *)
Fixpoint MatchDSL_loop (matcher : Matcher) (data : gmap string Value)
    (i : Z) (es : list EvaluableExpression) : bool :=
  match es with
  | [] => false
  | expression :: rest =>
      match Evaluate expression data with
      | Err _ => MatchDSL_loop matcher data (i + 1) rest
      | Ok result =>
          let '(bResult, ok) :=
            match result with VBool b => (b, true) | _ => (false, false) end in
          if negb ok || negb bResult then
            if ConditionType_eqb (condition matcher) ANDCondition then false
            else MatchDSL_loop matcher data (i + 1) rest
          else if ConditionType_eqb (condition matcher) ORCondition then true
          else if (Z.of_nat (length (dslCompiled matcher)) - 1 =? i)%Z then true
          else MatchDSL_loop matcher data (i + 1) rest
      end
  end.

Definition MatchDSL (matcher : Matcher) (data : gmap string Value) : bool :=
  MatchDSL_loop matcher data 0 (dslCompiled matcher).

(** The expression evaluator on a word that carries no [{{...}}] marker: the
    word is returned as it is. *)
Definition plainEvaluate (word : string) (_ : gmap string Value) : Result string :=
  Ok word.

(** The text between [{{] and a closing [}}] that ends the string. *)
Fixpoint beforeClose (s : string) : option string :=
  match s with
  | EmptyString => None
  | String c rest =>
      if String.eqb s "}}" then Some EmptyString
      else option_map (String c) (beforeClose rest)
  end.

(** Modelled from the spec: [expressions.Evaluate] is not under src/.  Variable
    substitution uses the marker [{{expr}}]: a word that is one marker is
    replaced by the value the dynamic values give to its name, an unresolved
    name being an error; a word without marker is returned as it is. *)
Definition markerEvaluate (word : string) (dynamicValues : gmap string Value)
  : Result string :=
  match word with
  | String "{" (String "{" rest) =>
      match beforeClose rest with
      | Some name =>
          match dynamicValues !! name with
          | Some (VStr value) => Ok value
          | _ => Err "unresolved variable"
          end
      | None => Ok word
      end
  | _ => Ok word
  end.

(** The words of a matcher after [expressions.Evaluate], in order; a word whose
    evaluation fails is passed over by the loop and so is left out. *)
Fixpoint evaluatedWords (ev : string -> gmap string Value -> Result string)
    (dynamicValues : gmap string Value) (ws : list string) : list string :=
  match ws with
  | [] => []
  | w :: rest =>
      match ev w dynamicValues with
      | Ok w' => w' :: evaluatedWords ev dynamicValues rest
      | Err _ => evaluatedWords ev dynamicValues rest
      end
  end.

(** The specification's reading of a case-insensitive word matcher, word for
    word: both the corpus and every word are lowercased, and the decision is
    "all words" under AND, "any word" under OR. *)
Definition spec_MatchWords_caseInsensitive {U : Unicode} (matcher : Matcher) (corpus : string)
  : bool :=
  match condition matcher with
  | ANDCondition =>
      forallb (fun w => Contains (ToLower corpus) (ToLower w)) (Words matcher)
  | ORCondition =>
      existsb (fun w => Contains (ToLower corpus) (ToLower w)) (Words matcher)
  end.

(** The three kinds of outcome of one DSL expression. *)
Definition exprFails : EvaluableExpression := {| Evaluate := fun _ => Err "eval" |}.
Definition exprConst (v : Value) : EvaluableExpression := {| Evaluate := fun _ => Ok v |}.

Definition wordMatcher (ci : bool) (c : ConditionType) (ws : list string) : Matcher :=
  {| Status := []; Size := []; Words := ws; Binary := []; CaseInsensitive := ci;
     condition := c; regexCompiled := []; binaryDecoded := []; dslCompiled := [] |}.

Definition dslMatcher (c : ConditionType) (es : list EvaluableExpression) : Matcher :=
  {| Status := []; Size := []; Words := []; Binary := []; CaseInsensitive := false;
     condition := c; regexCompiled := []; binaryDecoded := []; dslCompiled := es |}.

(** Helpers to state what the loops compute.  [matchedOf] is the result of a
    loop that succeeded with the given matched values or failed. *)
Definition matchedOf (ok : bool) (matched : list string) : bool * list string :=
  if ok then (true, matched) else (false, []).

(** Does the last element of a list satisfy [p]?  False for the empty list. *)
Definition lastHolds {A} (p : A -> bool) (l : list A) : bool :=
  match last l with
  | Some x => p x
  | None => false
  end.

(** The outcome of one DSL expression on an event: a boolean true, or a
    failure to evaluate. *)
Definition dslTrue (data : gmap string Value) (e : EvaluableExpression) : bool :=
  match Evaluate e data with
  | Ok (VBool true) => true
  | _ => false
  end.

Definition dslFails (data : gmap string Value) (e : EvaluableExpression) : bool :=
  negb (isOk (Evaluate e data)).

End Matchers.

(** ** Go's [regexp] package

    The regular expressions of the sources are written as terms of [regex] and
    matched by Brzozowski derivatives.  [MatchString] is Go's unanchored
    search; a pattern written [^...$] is matched against the whole text. *)

Module GoRegexp.

Inductive regex : Type :=
| Void
| Eps
| Chr (p : ascii -> bool)
| Cat (r1 r2 : regex)
| Alt (r1 r2 : regex)
| Star (r : regex).

Fixpoint nullable (r : regex) : bool :=
  match r with
  | Void => false
  | Eps => true
  | Chr _ => false
  | Cat r1 r2 => nullable r1 && nullable r2
  | Alt r1 r2 => nullable r1 || nullable r2
  | Star _ => true
  end.

Fixpoint deriv (c : ascii) (r : regex) : regex :=
  match r with
  | Void => Void
  | Eps => Void
  | Chr p => if p c then Eps else Void
  | Cat r1 r2 =>
      if nullable r1 then Alt (Cat (deriv c r1) r2) (deriv c r2)
      else Cat (deriv c r1) r2
  | Alt r1 r2 => Alt (deriv c r1) (deriv c r2)
  | Star r1 => Cat (deriv c r1) (Star r1)
  end.

Fixpoint matches (r : regex) (s : string) : bool :=
  match s with
  | EmptyString => nullable r
  | String c s' => matches (deriv c r) s'
  end.

(** The words of a regular expression. *)
Inductive lang : regex -> string -> Prop :=
| lang_eps : lang Eps EmptyString
| lang_chr p c : p c = true -> lang (Chr p) (String c EmptyString)
| lang_cat r1 r2 s1 s2 : lang r1 s1 -> lang r2 s2 -> lang (Cat r1 r2) (s1 +:+ s2)
| lang_alt_l r1 r2 s : lang r1 s -> lang (Alt r1 r2) s
| lang_alt_r r1 r2 s : lang r2 s -> lang (Alt r1 r2) s
| lang_star_nil r : lang (Star r) EmptyString
| lang_star_cons r s1 s2 : lang r s1 -> lang (Star r) s2 -> lang (Star r) (s1 +:+ s2).

Definition anyByte : regex := Chr (fun _ => true).

(** [.] without the [s] flag: any byte but a line feed. *)
Definition dot : regex := Chr (fun c => negb (Ascii.eqb c "010"%char)).

(** [\d] *)
Definition isDigit (c : ascii) : bool :=
  let n := nat_of_ascii c in (48 <=? n)%nat && (n <=? 57)%nat.
Definition digit : regex := Chr isDigit.

(** [[a-zA-Z0-9]] *)
Definition isAlnum (c : ascii) : bool :=
  let n := nat_of_ascii c in
  ((97 <=? n)%nat && (n <=? 122)%nat) || ((65 <=? n)%nat && (n <=? 90)%nat) || isDigit c.

Definition plus (r : regex) : regex := Cat r (Star r).

(** A literal string. *)
Fixpoint lit (s : string) : regex :=
  match s with
  | EmptyString => Eps
  | String c s' => Cat (Chr (Ascii.eqb c)) (lit s')
  end.

(** [re.MatchString(s)]: does some substring of [s] match? *)
Definition MatchString (r : regex) (s : string) : bool :=
  matches (Cat (Star anyByte) (Cat r (Star anyByte))) s.

(** [len(re.FindStringSubmatch(s)) > 0] holds exactly when there is a match. *)
Definition hasSubmatch (r : regex) (s : string) : bool := MatchString r s.

End GoRegexp.

(** ** Go's [net] and [net/url] packages *)

Module GoNet.

(** [strings.IndexByte] and [strings.LastIndexByte]: [-1] when absent. *)
Fixpoint IndexByte (s : string) (c : ascii) : Z :=
  match s with
  | EmptyString => -1
  | String d s' =>
      if Ascii.eqb d c then 0
      else let r := IndexByte s' c in if (r <? 0)%Z then -1 else (r + 1)%Z
  end.

Fixpoint LastIndexByte (s : string) (c : ascii) : Z :=
  match s with
  | EmptyString => -1
  | String d s' =>
      let r := LastIndexByte s' c in
      if (0 <=? r)%Z then (r + 1)%Z else if Ascii.eqb d c then 0 else -1
  end.

(** The slice [s[lo:hi]]. *)
Definition slice (s : string) (lo hi : Z) : string :=
  substring (Z.to_nat lo) (Z.to_nat (hi - lo)) s.

Definition len (s : string) : Z := Z.of_nat (String.length s).

(** [net.SplitHostPort]: on any error the host and the port are empty. *)
Definition SplitHostPort (hostport : string) : Result (string * string) :=
  let i := LastIndexByte hostport ":" in
  if (i <? 0)%Z then Err "missing port in address"
  else
    let bracketed :=
      match hostport with
      | String c _ => Ascii.eqb c "["
      | EmptyString => false
      end in
    let hostjk : Result (string * Z * Z) :=
      if bracketed then
        let end_ := IndexByte hostport "]" in
        if (end_ <? 0)%Z then Err "missing ']' in address"
        else if (end_ + 1 =? len hostport)%Z then Err "missing port in address"
        else if (end_ + 1 =? i)%Z then Ok (slice hostport 1 end_, 1, end_ + 1)%Z
        else if (match String.get (Z.to_nat (end_ + 1)) hostport with
                 | Some c => Ascii.eqb c ":"
                 | None => false
                 end) then Err "too many colons in address"
        else Err "missing port in address"
      else
        let host := slice hostport 0 i in
        if (0 <=? IndexByte host ":")%Z then Err "too many colons in address"
        else Ok (host, 0, 0)%Z in
    match hostjk with
    | Err e => Err e
    | Ok (host, j, k) =>
        if (0 <=? IndexByte (slice hostport j (len hostport)) "[")%Z
        then Err "unexpected '[' in address"
        else if (0 <=? IndexByte (slice hostport k (len hostport)) "]")%Z
        then Err "unexpected ']' in address"
        else Ok (host, slice hostport (i + 1) (len hostport))
    end.

(** [url.URL], without user information; the components are kept as parsed. *)
Record URL : Type := {
  Scheme : string;
  Opaque : string;
  Host : string;
  Path : string;
  RawQuery : string;
  Fragment : string
}.

Definition nonEmpty (s : string) : bool :=
  match s with EmptyString => false | _ => true end.

(** The [String] method of [URL], for components that need no escaping. *)
Definition URL_String (u : URL) : string :=
  let buf := if nonEmpty (Scheme u) then Scheme u +:+ ":" else EmptyString in
  let buf :=
    if nonEmpty (Opaque u) then buf +:+ Opaque u
    else
      let buf :=
        if nonEmpty (Scheme u) || nonEmpty (Host u) then
          let buf := if nonEmpty (Host u) || nonEmpty (Path u) then buf +:+ "//" else buf in
          if nonEmpty (Host u) then buf +:+ Host u else buf
        else buf in
      let path := Path u in
      let buf :=
        if nonEmpty path && negb (GoStrings.HasPrefix path "/") && nonEmpty (Host u)
        then buf +:+ "/" else buf in
      let buf :=
        if negb (nonEmpty buf) then
          let i := IndexByte path ":" in
          if (-1 <? i)%Z && (IndexByte (slice path 0 i) "/" =? -1)%Z
          then buf +:+ "./" else buf
        else buf in
      buf +:+ path in
  let buf := if nonEmpty (RawQuery u) then buf +:+ "?" +:+ RawQuery u else buf in
  if nonEmpty (Fragment u) then buf +:+ "#" +:+ Fragment u else buf.

Definition setHost (u : URL) (h : string) : URL :=
  {| Scheme := Scheme u; Opaque := Opaque u; Host := h; Path := Path u;
     RawQuery := RawQuery u; Fragment := Fragment u |}.

Definition setPath (u : URL) (p : string) : URL :=
  {| Scheme := Scheme u; Opaque := Opaque u; Host := Host u; Path := p;
     RawQuery := RawQuery u; Fragment := Fragment u |}.

(** A host name or a port as they appear in [host:port]: no colon and no
    square bracket. *)
Fixpoint plainName (s : string) : bool :=
  match s with
  | EmptyString => true
  | String c s' =>
      negb (Ascii.eqb c ":") && negb (Ascii.eqb c "[") && negb (Ascii.eqb c "]") &&
      plainName s'
  end.

(** The parsed URL [http://host/path]. *)
Definition target (host path : string) : URL :=
  {| Scheme := "http"; Opaque := EmptyString; Host := host; Path := path;
     RawQuery := EmptyString; Fragment := EmptyString |}.

End GoNet.

(** ** [pkg/requests/bulk-http-request.go] *)

Module Requests.
Import GoRegexp.

(** [{{BaseURL}}:(\d+)] *)
Definition urlWithPortRgx : regex := Cat (lit "{{BaseURL}}:") (plus digit).

(** [{{BaseURL}}.*/] *)
Definition urlWithPathRgx : regex := Cat (lit "{{BaseURL}}") (Cat (Star dot) (lit "/")).

Record BulkHTTPRequest : Type := {
  CookieReuse : bool;
  Redirects : bool;
  Name : string;
  AttackType : string;
  Payloads : gmap string Value;
  Method : string;
  Path : list string;
  Headers : gmap string string;
  Body : string;
  MaxRedirects : Z;
  Raw : list string;
  Unsafe : bool
}.

(** [GetRequestCount]: [int64(len(r.Raw) | len(r.Path))] *)
Definition GetRequestCount (r : BulkHTTPRequest) : Z :=
  Z.lor (Z.of_nat (length (Raw r))) (Z.of_nat (length (Path r))).

(** [Total]: [len(r.Path) + len(r.Raw)] *)
Definition Total (r : BulkHTTPRequest) : Z :=
  (Z.of_nat (length (Path r)) + Z.of_nat (length (Raw r)))%Z.

(** [baseURLWithTemplatePrefs] updates the parsed URL in place and renders it.
    The error of [net.SplitHostPort] is dropped, so the host it returns (empty
    on error) is stored in every case. *)
Definition baseURLWithTemplatePrefs_url (data : string) (parsedURL : GoNet.URL) : GoNet.URL :=
  let hasPort := hasSubmatch urlWithPortRgx data in
  let parsedURL :=
    if hasPort then
      let hostname :=
        match GoNet.SplitHostPort (GoNet.Host parsedURL) with
        | Ok (hostname, _) => hostname
        | Err _ => EmptyString
        end in
      GoNet.setHost parsedURL hostname
    else parsedURL in
  let hasPath := hasSubmatch urlWithPathRgx data in
  if hasPath then GoNet.setPath parsedURL EmptyString else parsedURL.

Definition baseURLWithTemplatePrefs (data : string) (parsedURL : GoNet.URL) : string :=
  GoNet.URL_String (baseURLWithTemplatePrefs_url data parsedURL).

Definition mkRequest (paths raws : list string) : BulkHTTPRequest :=
  {| CookieReuse := false; Redirects := false; Name := EmptyString;
     AttackType := EmptyString; Payloads := ∅; Method := "GET"; Path := paths;
     Headers := ∅; Body := EmptyString; MaxRedirects := 0; Raw := raws;
     Unsafe := false |}.

End Requests.

(** ** [pkg/protocols/http]: the request generator's base URL and the
    sequential execution loop *)

Module HTTP.
Import GoRegexp.

(** [{{BaseURL}}:(\d+)] *)
Definition urlWithPortRegex : regex := Cat (lit "{{BaseURL}}:") (plus digit).

(** [baseURLWithTemplatePrefs] of [build_request.go]: the host is replaced
    only when [net.SplitHostPort] succeeds; the path is not touched. *)
Definition baseURLWithTemplatePrefs_url (data : string) (parsedURL : GoNet.URL) : GoNet.URL :=
  let hasPort := hasSubmatch urlWithPortRegex data in
  if hasPort then
    match GoNet.SplitHostPort (GoNet.Host parsedURL) with
    | Ok (hostname, _) => GoNet.setHost parsedURL hostname
    | Err _ => parsedURL
    end
  else parsedURL.

Definition baseURLWithTemplatePrefs (data : string) (parsedURL : GoNet.URL) : string :=
  GoNet.URL_String (baseURLWithTemplatePrefs_url data parsedURL).

(** [generators.MergeMaps(m1, m2)]: the entries of [m2] win. *)
Definition MergeMaps (m1 m2 : gmap string Value) : gmap string Value := m2 ∪ m1.

Record OperatorsResult : Type := {
  Matched : bool;
  DynamicValues : gmap string Value
}.

Record InternalWrappedEvent : Type := {
  InternalEvent : gmap string Value;
  OperatorsResult_ : option OperatorsResult
}.

(** A generated request: the URL it is sent to and its payload values. *)
Record generatedRequest : Type := {
  requestURL : string;
  meta : gmap string Value
}.

(** The part of [Request] that [ExecuteWithResults] reads;
    [StopAtFirstMatch] is [options.Options.StopAtFirstMatch]. *)
Record Request : Type := {
  Pipeline : bool;
  Race : bool;
  RaceNumberRequests : Z;
  Threads : Z;
  StopAtFirstMatch : bool
}.

(** The request generator is consumed through [Make] only.  It is represented
    by the outcomes of its successive calls, each a function of the dynamic
    values passed in; [Make] returns [io.EOF] once they are used up. *)
Definition Generator : Type := list (gmap string Value -> Result generatedRequest).

Inductive ProgressOp : Type :=
| IncrementRequests
| DecrementRequests (n : Z).

(** Which of the four execution paths [ExecuteWithResults] takes. *)
Inductive ExecutionPath : Type := TurboHTTP | RaceRequest | ParallelHTTP | Sequential.

Definition executionPath (r : Request) : ExecutionPath :=
  if Pipeline r then TurboHTTP
  else if Race r && (0 <? RaceNumberRequests r)%Z then RaceRequest
  else if (0 <? Threads r)%Z then ParallelHTTP
  else Sequential.

(** What the sequential loop did: the requests executed with the outcome of
    each ([executeRequest] either fails or hands one event to the callback),
    the progress calls, and the value returned ([Err] for the early return on
    a generator error, otherwise the accumulated request errors). *)
Record Outcome : Type := {
  executed : list (generatedRequest * Result InternalWrappedEvent);
  progress : list ProgressOp;
  returned : Result (list string)
}.

Definition gotOutput (res : Result InternalWrappedEvent) : bool :=
  match res with
  | Ok event => match OperatorsResult_ event with Some _ => true | None => false end
  | Err _ => false
  end.

Section Sequential.

Variable executeRequest : generatedRequest -> gmap string Value -> Result InternalWrappedEvent.
(** [generator.Total()] *)
Variable generatorTotal : Z.

Definition extend (x : generatedRequest * Result InternalWrappedEvent)
    (ops : list ProgressOp) (o : Outcome) : Outcome :=
  {| executed := x :: executed o; progress := ops ++ progress o; returned := returned o |}.

(** The [for] loop of the sequential path. *)
Fixpoint ExecuteWithResults_loop (r : Request) (generator : Generator)
    (dynamicValues : gmap string Value) (requestErr : list string) : Outcome :=
  match generator with
  | [] => {| executed := []; progress := []; returned := Ok requestErr |}
  | make :: generator =>
      match make dynamicValues with
      | Err e =>
          {| executed := []; progress := [DecrementRequests generatorTotal];
             returned := Err e |}
      | Ok request =>
          let res := executeRequest request dynamicValues in
          let dynamicValues :=
            match res with
            | Ok event =>
                match OperatorsResult_ event with
                | Some opres => MergeMaps dynamicValues (DynamicValues opres)
                | None => dynamicValues
                end
            | Err _ => dynamicValues
            end in
          let requestErr :=
            match res with Err e => requestErr ++ [e] | Ok _ => requestErr end in
          if StopAtFirstMatch r && gotOutput res then
            {| executed := [(request, res)];
               progress := [IncrementRequests; DecrementRequests generatorTotal];
               returned := Ok requestErr |}
          else
            extend (request, res) [IncrementRequests]
              (ExecuteWithResults_loop r generator dynamicValues requestErr)
      end
  end.

Definition ExecuteWithResults_sequential (r : Request) (generator : Generator)
    (dynamicValues : gmap string Value) : Outcome :=
  ExecuteWithResults_loop r generator dynamicValues [].

(** A stretch of generator calls is quiet when every call makes a request and
    none of the requests brings an operators result; the dynamic values then
    stay as they are. *)
Definition quiet (generator : Generator) (dynamicValues : gmap string Value) : bool :=
  forallb (fun make =>
             match make dynamicValues with
             | Ok request => negb (gotOutput (executeRequest request dynamicValues))
             | Err _ => false
             end) generator.

End Sequential.

(** A small scenario: three payload iterations, the second one matches. *)
Definition payloadRequest (p : string) : gmap string Value -> Result generatedRequest :=
  fun _ => Ok {| requestURL := "http://h/login?pass=" +:+ p;
                 meta := {[ "pass" := VStr p ]} |}.

Definition matchesOn (p : string) (request : generatedRequest) (_ : gmap string Value)
  : Result InternalWrappedEvent :=
  Ok {| InternalEvent := ∅;
        OperatorsResult_ :=
          if String.eqb (requestURL request) ("http://h/login?pass=" +:+ p)
          then Some {| Matched := true; DynamicValues := ∅ |}
          else None |}.

Definition sequentialRequest (stop : bool) : Request :=
  {| Pipeline := false; Race := false; RaceNumberRequests := 0; Threads := 0;
     StopAtFirstMatch := stop |}.

End HTTP.

(** ** [pkg/executor/executer_http.go]: the redirect policy *)

Module Executor.

(** The value of a [CheckRedirect] function: [nil] lets the client follow the
    redirect, [http.ErrUseLastResponse] makes it return the last response. *)
Inductive RedirectDecision : Type := Follow | ErrUseLastResponse.

(** [makeCheckRedirectFunc]; [requests] are the requests made so far. *)
Definition makeCheckRedirectFunc (followRedirects : bool) (maxRedirects : Z)
    (requests : list string) : RedirectDecision :=
  if negb followRedirects then ErrUseLastResponse
  else if (maxRedirects =? 0)%Z then
    if (10 <? Z.of_nat (length requests))%Z then ErrUseLastResponse else Follow
  else if (maxRedirects <? Z.of_nat (length requests))%Z then ErrUseLastResponse
  else Follow.

(** The redirect loop of [http.Client]: [responses] are the server's answers
    in order, [Some location] for a redirect and [None] for a final answer.
    Before each redirect is followed the policy sees every request made so far.
    The result is the list of requests sent. *)
Fixpoint clientDo (checkRedirect : list string -> RedirectDecision)
    (responses : list (option string)) (req : string) (reqs : list string)
  : list string :=
  let reqs := reqs ++ [req] in
  match responses with
  | [] => reqs
  | None :: _ => reqs
  | Some location :: responses =>
      match checkRedirect reqs with
      | ErrUseLastResponse => reqs
      | Follow => clientDo checkRedirect responses location reqs
      end
  end.

(** The number of redirects followed: every request but the first. *)
Definition redirectsFollowed (sent : list string) : nat := length sent - 1.

(** The limit in force: 10 when [maxRedirects] is 0. *)
Definition redirectLimit (maxRedirects : Z) : Z :=
  if (maxRedirects =? 0)%Z then 10 else maxRedirects.

End Executor.

(** ** [pkg/templates/compile.go] and the [parsers] package *)

Module Templates.
Import GoRegexp.

(** [model.Info], as far as validation reads it. *)
Record Info : Type := {
  Name : string;
  Authors : list string;
  Tags : list string;
  Severity : string
}.

(** A request block of a template; for HTTP blocks [reqPath] is the [path]
    list, the rest of the block is kept as written. *)
Record ProtoRequest : Type := {
  reqPath : list string;
  reqBody : string
}.

(** What [executer.NewExecuter] is given: the requests collected so far, or
    the operators of the offline HTTP mode. *)
Inductive Executer_ : Type :=
| NewExecuter (requests : list ProtoRequest)
| NewOfflineExecuter (operatorsList : list ProtoRequest).

Record Template : Type := {
  ID : string;
  Info_ : Info;
  RequestsHTTP : list ProtoRequest;
  RequestsDNS : list ProtoRequest;
  RequestsFile : list ProtoRequest;
  RequestsNetwork : list ProtoRequest;
  RequestsHeadless : list ProtoRequest;
  Workflows : list string;
  CompiledWorkflow : option (list Executer_);
  TotalRequests : Z;
  Executer : option Executer_;
  Path : string
}.

(** ASCII white space: the space and the characters from tab to carriage
    return. *)
Definition isSpace (c : ascii) : bool :=
  let n := nat_of_ascii c in
  (n =? 32)%nat || ((9 <=? n)%nat && (n <=? 13)%nat).

(** Modelled from the spec: [utils.IsBlank] is not under src/.  A name is
    blank when it is empty or holds white space only. *)
Fixpoint IsBlank (value : string) : bool :=
  match value with
  | EmptyString => true
  | String c rest => isSpace c && IsBlank rest
  end.

(** Modelled from the spec: the [IsEmpty] method of the authors' string slice
    is not under src/.  The authors are empty when there is none. *)
Definition IsEmpty (authors : list string) : bool :=
  match authors with [] => true | _ => false end.

(** The collaborators of [Parse]: the file system, the preprocessors, the YAML
    decoder, two options, the workflow loader and the executer's [Compile]
    (which answers with the number of requests). *)
Record Env : Type := {
  readFile : string -> Result string;
  expandPreprocessors : string -> string;
  preprocessor : option (string -> string);
  decode : string -> Result Template;
  OfflineHTTP : bool;
  Headless : bool;
  workflowPaths : string -> list string;
  executerCompile : Executer_ -> Result Z
}.

Definition setCompiledWorkflow (t : Template) (w : option (list Executer_)) : Template :=
  {| ID := ID t; Info_ := Info_ t; RequestsHTTP := RequestsHTTP t;
     RequestsDNS := RequestsDNS t; RequestsFile := RequestsFile t;
     RequestsNetwork := RequestsNetwork t; RequestsHeadless := RequestsHeadless t;
     Workflows := Workflows t; CompiledWorkflow := w;
     TotalRequests := TotalRequests t; Executer := Executer t; Path := Path t |}.

Definition setExecuter (t : Template) (e : option Executer_) : Template :=
  {| ID := ID t; Info_ := Info_ t; RequestsHTTP := RequestsHTTP t;
     RequestsDNS := RequestsDNS t; RequestsFile := RequestsFile t;
     RequestsNetwork := RequestsNetwork t; RequestsHeadless := RequestsHeadless t;
     Workflows := Workflows t; CompiledWorkflow := CompiledWorkflow t;
     TotalRequests := TotalRequests t; Executer := e; Path := Path t |}.

Definition setTotalRequests (t : Template) (n : Z) : Template :=
  {| ID := ID t; Info_ := Info_ t; RequestsHTTP := RequestsHTTP t;
     RequestsDNS := RequestsDNS t; RequestsFile := RequestsFile t;
     RequestsNetwork := RequestsNetwork t; RequestsHeadless := RequestsHeadless t;
     Workflows := Workflows t; CompiledWorkflow := CompiledWorkflow t;
     TotalRequests := n; Executer := Executer t; Path := Path t |}.

Definition setPath (t : Template) (p : string) : Template :=
  {| ID := ID t; Info_ := Info_ t; RequestsHTTP := RequestsHTTP t;
     RequestsDNS := RequestsDNS t; RequestsFile := RequestsFile t;
     RequestsNetwork := RequestsNetwork t; RequestsHeadless := RequestsHeadless t;
     Workflows := Workflows t; CompiledWorkflow := CompiledWorkflow t;
     TotalRequests := TotalRequests t; Executer := Executer t; Path := p |}.

Section WithUnicode.
Context {U : GoStrings.Unicode}.

(** The [mainLoop] of the offline HTTP mode: the operators of the request
    blocks are collected until a block has a path other than [{{BaseURL}}] or
    [{{BaseURL}}/]. *)
Fixpoint offlineOperators (reqs : list ProtoRequest) : list ProtoRequest :=
  match reqs with
  | [] => []
  | req :: rest =>
      if forallb (fun path => GoStrings.EqualFold path "{{BaseURL}}" ||
                              GoStrings.EqualFold path "{{BaseURL}}/")
           (reqPath req)
      then req :: offlineOperators rest
      else []
  end.

(** The requests are compiled protocol by protocol; every non-empty protocol
    adds its blocks to [requests] and replaces the executer. *)
Definition buildExecuter (env : Env) (template : Template) : option Executer_ :=
  let requests := [] in
  let executer := None in
  let '(requests, executer) :=
    if (0 <? length (RequestsDNS template))%nat && negb (OfflineHTTP env)
    then let requests := requests ++ RequestsDNS template in
         (requests, Some (NewExecuter requests))
    else (requests, executer) in
  let '(requests, executer) :=
    if (0 <? length (RequestsHTTP template))%nat then
      if OfflineHTTP env then
        let operatorsList := offlineOperators (RequestsHTTP template) in
        if (0 <? length operatorsList)%nat
        then (requests, Some (NewOfflineExecuter operatorsList))
        else (requests, executer)
      else let requests := requests ++ RequestsHTTP template in
           (requests, Some (NewExecuter requests))
    else (requests, executer) in
  let '(requests, executer) :=
    if (0 <? length (RequestsFile template))%nat && negb (OfflineHTTP env)
    then let requests := requests ++ RequestsFile template in
         (requests, Some (NewExecuter requests))
    else (requests, executer) in
  let '(requests, executer) :=
    if (0 <? length (RequestsNetwork template))%nat && negb (OfflineHTTP env)
    then let requests := requests ++ RequestsNetwork template in
         (requests, Some (NewExecuter requests))
    else (requests, executer) in
  let '(requests, executer) :=
    if (0 <? length (RequestsHeadless template))%nat && negb (OfflineHTTP env) && Headless env
    then let requests := requests ++ RequestsHeadless template in
         (requests, Some (NewExecuter requests))
    else (requests, executer) in
  executer.

Definition requestCount (template : Template) : nat :=
  length (RequestsDNS template) + length (RequestsHTTP template) +
  length (RequestsFile template) + length (RequestsNetwork template) +
  length (RequestsHeadless template) + length (Workflows template).

(** The executer is built and compiled, and the number of its requests is
    added to [TotalRequests]. *)
Definition compileRequests (env : Env) (template : Template) : Result Template :=
  let template := setExecuter template (buildExecuter env template) in
  match Executer template with
  | Some ex =>
      match executerCompile env ex with
      | Err e => Err ("could not compile request: " +:+ e)
      | Ok n => Ok (setTotalRequests template (TotalRequests template + n)%Z)
      end
  | None => Ok template
  end.

(** Modelled from the spec: [compileWorkflow] of the caching version is not
    under src/.  As in the earlier [parseWorkflowTemplate], every template a
    workflow refers to is parsed through [Parse] (here [parse]) on the same
    cache, and the executers of the sub-templates are collected; a sub-template
    that fails to parse, or has no executer, is passed over. *)
Definition compileWorkflow
    (parse : gmap string Template -> string -> gmap string Template * Result Template)
    (parsedTemplatesCache : gmap string Template) (paths : list string)
  : gmap string Template * list Executer_ :=
  fold_left
    (fun '(cache, executers) path =>
       match parse cache path with
       | (cache, Ok sub) =>
           match Executer sub with
           | Some ex => (cache, executers ++ [ex])
           | None => (cache, executers)
           end
       | (cache, Err _) => (cache, executers)
       end)
    paths (parsedTemplatesCache, []).

(** [Parse] with the process-wide [parsedTemplatesCache] threaded through;
    [fuel] bounds the nesting of workflows. *)
Fixpoint Parse (fuel : nat) (env : Env) (parsedTemplatesCache : gmap string Template)
    (filePath : string) : gmap string Template * Result Template :=
  match fuel with
  | O => (parsedTemplatesCache, Err "workflow nesting too deep")
  | S fuel =>
  match parsedTemplatesCache !! filePath with
  | Some value => (parsedTemplatesCache, Ok value)
  | None =>
  match readFile env filePath with
  | Err e => (parsedTemplatesCache, Err e)
  | Ok data =>
  let data := expandPreprocessors env data in
  let data := match preprocessor env with Some process => process data | None => data end in
  match decode env data with
  | Err e => (parsedTemplatesCache, Err e)
  | Ok template =>
  if IsBlank (Name (Info_ template))
  then (parsedTemplatesCache, Err "no template name field provided")
  else if IsEmpty (Authors (Info_ template))
  then (parsedTemplatesCache, Err "no template author field provided")
  else if (requestCount template =? 0)%nat
  then (parsedTemplatesCache, Err ("no requests defined for " +:+ ID template))
  else
    let '(parsedTemplatesCache, template) :=
      if (0 <? length (Workflows template))%nat then
        let '(cache, executers) :=
          compileWorkflow (Parse fuel env) parsedTemplatesCache
            (flat_map (workflowPaths env) (Workflows template)) in
        (cache, setCompiledWorkflow template (Some executers))
      else (parsedTemplatesCache, template) in
    let compiled := compileRequests env template in
    match compiled with
    | Err e => (parsedTemplatesCache, Err e)
    | Ok template =>
        match Executer template, CompiledWorkflow template with
        | None, None => (parsedTemplatesCache, Err "cannot create template executer")
        | _, _ =>
            let template := setPath template filePath in
            (<[filePath := template]> parsedTemplatesCache, Ok template)
        end
    end
  end end end end.

(** A run of [Parse] calls on the shared cache; each call has its own fuel
    and collaborators. *)
Definition ParseMany (calls : list (nat * Env * string))
    (parsedTemplatesCache : gmap string Template) : gmap string Template :=
  fold_left (fun cache '(fuel, env, filePath) => (Parse fuel env cache filePath).1)
    calls parsedTemplatesCache.

End WithUnicode.

(** [validateMandatoryInfoFields] of the [parsers] package; [None] is the
    [nil] pointer, and the result is the error if there is one. *)
Definition validateMandatoryInfoFields (info : option Info) : option string :=
  match info with
  | None => Some "mandatory 'info' field is missing"
  | Some info =>
      if IsBlank (Name info) then Some "mandatory 'name' field is missing"
      else if IsEmpty (Authors info) then Some "mandatory 'author' field is missing"
      else None
  end.

(** [^([a-zA-Z0-9]+[-_])*[a-zA-Z0-9]+$] *)
Definition templateIDRegexp : regex :=
  let alnum := Chr isAlnum in
  let sep := Chr (fun c => Ascii.eqb c "-" || Ascii.eqb c "_") in
  Cat (Star (Cat (plus alnum) sep)) (plus alnum).

(** The pattern is anchored at both ends: the whole id has to match. *)
Definition templateIDRegexp_MatchString (id : string) : bool :=
  matches templateIDRegexp id.

(** [validateTemplateMandatoryFields] of the later [parsers] package: the
    errors found, in order; no error when the list is empty. *)
Definition validateTemplateMandatoryFields (template : Template) : list string :=
  let info := Info_ template in
  let validateErrors := [] in
  let validateErrors :=
    if IsBlank (Name info)
    then validateErrors ++ ["mandatory 'name' field is missing"] else validateErrors in
  let validateErrors :=
    if IsEmpty (Authors info)
    then validateErrors ++ ["mandatory 'author' field is missing"] else validateErrors in
  let validateErrors :=
    if String.eqb (ID template) EmptyString
    then validateErrors ++ ["mandatory 'id' field is missing"]
    else if negb (templateIDRegexp_MatchString (ID template))
    then validateErrors ++ ["invalid field format for 'id'"]
    else validateErrors in
  validateErrors.

(** The specification's validity of a parsed template, word for word: the id
    matches the pattern, the name is not blank, there is an author. *)
Definition spec_validTemplate (t : Template) : bool :=
  templateIDRegexp_MatchString (ID t) &&
  negb (IsBlank (Name (Info_ t))) && negb (IsEmpty (Authors (Info_ t))).

(** What [Parse] does check. *)
Definition hasNameAndAuthor (t : Template) : bool :=
  negb (IsBlank (Name (Info_ t))) && negb (IsEmpty (Authors (Info_ t))).

(** A one-file world: [filePath] holds a template that decodes to [t]. *)
Definition oneFile (filePath : string) (t : Template) : Env :=
  {| readFile := fun p => if String.eqb p filePath then Ok "yaml" else Err "no such file";
     expandPreprocessors := fun data => data;
     preprocessor := None;
     decode := fun _ => Ok t;
     OfflineHTTP := false;
     Headless := false;
     workflowPaths := fun _ => [];
     executerCompile := fun ex =>
       match ex with
       | NewExecuter requests => Ok (Z.of_nat (length requests))
       | NewOfflineExecuter _ => Ok 1%Z
       end |}.

(** A world whose working directory is [/templates]: the relative path
    [t.yaml] and the absolute path [/templates/t.yaml] name the same file,
    which decodes to [t]. *)
Definition inWorkingDir (t : Template) : Env :=
  {| readFile := fun p =>
       if String.eqb p "t.yaml" || String.eqb p "/templates/t.yaml"
       then Ok "yaml" else Err "no such file";
     expandPreprocessors := fun data => data;
     preprocessor := None;
     decode := fun _ => Ok t;
     OfflineHTTP := false;
     Headless := false;
     workflowPaths := fun _ => [];
     executerCompile := fun ex =>
       match ex with
       | NewExecuter requests => Ok (Z.of_nat (length requests))
       | NewOfflineExecuter _ => Ok 1%Z
       end |}.

(** A world without files. *)
Definition noFiles : Env :=
  {| readFile := fun _ => Err "no such file";
     expandPreprocessors := fun data => data;
     preprocessor := None;
     decode := fun _ => Err "yaml: unmarshal errors";
     OfflineHTTP := false;
     Headless := false;
     workflowPaths := fun _ => [];
     executerCompile := fun _ => Err "compile" |}.

Definition httpTemplate (id name : string) (authors : list string) : Template :=
  {| ID := id;
     Info_ := {| Name := name; Authors := authors; Tags := []; Severity := "info" |};
     RequestsHTTP := [ {| reqPath := ["{{BaseURL}}/a"]; reqBody := EmptyString |} ];
     RequestsDNS := []; RequestsFile := []; RequestsNetwork := [];
     RequestsHeadless := []; Workflows := []; CompiledWorkflow := None;
     TotalRequests := 0; Executer := None; Path := EmptyString |}.

(** The invariant of the cache: every template in it passed the two checks. *)
Definition cacheOK (cache : gmap string Template) : Prop :=
  map_Forall (fun _ t => hasNameAndAuthor t = true) cache.

End Templates.

(** ** The [parsers] package: [ParseTemplate] *)

Module Parsers.
Import Templates.

(** Modelled from the spec: the [cache] package is not under src/.  The cache
    maps a path to what [Store] was given, a template and an error; [Has]
    returns them, or two [nil]s for a path that was never stored. *)
Definition Has (c : gmap string (Template * option string)) (templatePath : string)
  : option Template * option string :=
  match c !! templatePath with
  | Some (value, err) => (Some value, err)
  | None => (None, None)
  end.

(** Modelled from the spec: [Store] of the same package records the template
    and the error under the path. *)
Definition Store (c : gmap string (Template * option string)) (templatePath : string)
    (template : Template) (err : option string) : gmap string (Template * option string) :=
  <[templatePath := (template, err)]> c.

(** [ParseTemplate]: the template and the error returned, with the cache. *)
Definition ParseTemplate (env : Env) (parsedTemplatesCache : gmap string (Template * option string))
    (templatePath : string)
  : gmap string (Template * option string) * (option Template * option string) :=
  match Has parsedTemplatesCache templatePath with
  | (Some value, err) => (parsedTemplatesCache, (Some value, err))
  | (None, _) =>
      match readFile env templatePath with
      | Err e => (parsedTemplatesCache, (None, Some e))
      | Ok data =>
          match decode env data with
          | Err e => (parsedTemplatesCache, (None, Some e))
          | Ok template =>
              (Store parsedTemplatesCache templatePath template None,
               (Some template, None))
          end
      end
  end.

(** [filter.ErrExcluded] *)
Definition ErrExcluded : string := "the template was excluded".

(** [isTemplateInfoMetadataMatch]: [tagFilterMatch] is the [Match] method of
    the tag filter, given the tags, the authors, the severity and the extra
    tags. *)
Definition isTemplateInfoMetadataMatch
    (tagFilterMatch : list string -> list string -> string -> list string ->
                      bool * option string)
    (templateInfo : Info) (extraTags : list string) : bool * option string :=
  let '(match_, err) :=
    tagFilterMatch (Tags templateInfo) (Authors templateInfo) (Severity templateInfo)
      extraTags in
  match err with
  | Some e => if String.eqb e ErrExcluded then (false, Some ErrExcluded) else (match_, err)
  | None => (match_, err)
  end.

(** [LoadTemplate]: the answer and the error, with the cache.  [ParseTemplate]
    never returns a nil template without an error; the dereference of a nil
    template is written as an error. *)
Definition LoadTemplate (env : Env) (parsedTemplatesCache : gmap string (Template * option string))
    (templatePath : string)
    (tagFilterMatch : list string -> list string -> string -> list string ->
                      bool * option string)
    (extraTags : list string)
  : gmap string (Template * option string) * (bool * option string) :=
  match ParseTemplate env parsedTemplatesCache templatePath with
  | (cache, (_, Some templateParseError)) => (cache, (false, Some templateParseError))
  | (cache, (None, None)) => (cache, (false, Some "nil pointer dereference"))
  | (cache, (Some template, None)) =>
      if (0 <? length (Workflows template))%nat then (cache, (false, None))
      else
        let templateInfo := Info_ template in
        match validateMandatoryInfoFields (Some templateInfo) with
        | Some validationError => (cache, (false, Some validationError))
        | None => (cache, isTemplateInfoMetadataMatch tagFilterMatch templateInfo extraTags)
        end
  end.

(** [LoadWorkflow] *)
Definition LoadWorkflow (env : Env) (parsedTemplatesCache : gmap string (Template * option string))
    (templatePath : string)
  : gmap string (Template * option string) * (bool * option string) :=
  match ParseTemplate env parsedTemplatesCache templatePath with
  | (cache, (_, Some templateParseError)) => (cache, (false, Some templateParseError))
  | (cache, (None, None)) => (cache, (false, Some "nil pointer dereference"))
  | (cache, (Some template, None)) =>
      let templateInfo := Info_ template in
      if (0 <? length (Workflows template))%nat then
        match validateMandatoryInfoFields (Some templateInfo) with
        | Some validationError => (cache, (false, Some validationError))
        | None => (cache, (true, None))
        end
      else (cache, (false, None))
  end.

(** A tag filter that lets every template through. *)
Definition matchAll (_ _ : list string) (_ : string) (_ : list string)
  : bool * option string := (true, None).

End Parsers.

(** ** The scan engine: [executeModelWithInput] *)

Module Core.

(** Modelled from the spec: the declaration of [types.ResumeInfo] is not under
    src/.  Per the specification a resume entry holds completed (bool),
    skip-under (u32), do-above (u32) and the set of in-flight indices. *)
Record ResumeInfo : Type := {
  Completed : bool;
  InFlight : gset N;
  SkipUnder : N;
  DoAbove : N
}.

(** [&generalTypes.ResumeInfo{}] with the in-flight map made. *)
Definition newResumeInfo : ResumeInfo :=
  {| Completed := false; InFlight := ∅; SkipUnder := 0; DoAbove := 0 |}.

(** [ResumeCfg]: the entries read from the resume file and the entries of the
    running scan, by template id. *)
Record ResumeCfg : Type := {
  ResumeFrom : gmap string ResumeInfo;
  Current : gmap string ResumeInfo
}.

(** The entry of a template, a fresh one when there is none. *)
Definition entryOf (infos : gmap string ResumeInfo) (templateID : string) : ResumeInfo :=
  match infos !! templateID with
  | Some info => info
  | None => newResumeInfo
  end.

(** The options of the engine the function reads: the host-errors cache, if
    there is one, answers whether a host is to be skipped; its answer may
    change while the scan goes on, so it is asked with the number of values
    scanned before. *)
Record ExecuterOptions : Type := {
  HostErrorsCache : option (nat -> string -> bool)
}.

(** The [skip] flag computed for a scanned value from the resume-from entry. *)
Definition resumeSkip (resumeFromInfo : ResumeInfo) (index : N) : bool :=
  if Completed resumeFromInfo then true
  else if (index <? SkipUnder resumeFromInfo)%N then true
  else if decide (index ∈ InFlight resumeFromInfo) then false
  else if (DoAbove resumeFromInfo <? index)%N then false
  else false.

(** [HostErrorsCache != nil && HostErrorsCache.Check(scannedValue.ID())] *)
Definition tripped (opts : ExecuterOptions) (scannedBefore : nat) (scannedValue : string)
  : bool :=
  match HostErrorsCache opts with
  | Some check => check scannedBefore scannedValue
  | None => false
  end.

(** A goroutine started for a scanned value. *)
Record Task : Type := {
  taskIndex : N;
  taskSkip : bool;
  taskValue : string
}.

(** The state of the [target.Scan] callback: the running [index], the
    in-flight set of the current entry, the goroutines started so far and the
    number of values scanned. *)
Record ScanState : Type := {
  index : N;
  currentInFlight : gset N;
  tasks : list Task;
  scanned : nat
}.

Definition uint32_succ (n : N) : N := ((n + 1) mod 2 ^ 32)%N.

(** One call of the callback.  The index is marked in-flight in every case;
    when the host-errors cache trips, the callback returns before the goroutine
    is started and before the index is incremented. *)
Definition scanCallback (opts : ExecuterOptions) (resumeFromInfo : ResumeInfo)
    (st : ScanState) (scannedValue : string) : ScanState :=
  let skip := resumeSkip resumeFromInfo (index st) in
  let inFlight := {[ index st ]} ∪ currentInFlight st in
  if tripped opts (scanned st) scannedValue then
    {| index := index st; currentInFlight := inFlight; tasks := tasks st;
       scanned := S (scanned st) |}
  else
    {| index := uint32_succ (index st); currentInFlight := inFlight;
       tasks := tasks st ++ [ {| taskIndex := index st; taskSkip := skip;
                                 taskValue := scannedValue |} ];
       scanned := S (scanned st) |}.

(** What a call of [executeModelWithInput] leaves behind: the resume
    configuration, the targets executed with their indices, and whether a
    match was recorded in [results]. *)
Record Run : Type := {
  resumeCfg : ResumeCfg;
  executedTargets : list (N * string);
  results : bool
}.

(** [cleanupInFlight] for every goroutine that has ended. *)
Definition cleanupAll (inFlight : gset N) (ts : list Task) : gset N :=
  fold_left (fun s t => s ∖ {[ taskIndex t ]}) ts inFlight.

Section Engine.

(** The executer of the template (or of its workflow) on one target: whether
    it matched. *)
Variable execute : string -> bool.

Definition executeModelWithInput (opts : ExecuterOptions) (cfg : ResumeCfg)
    (templateID : string) (target : list string) (results0 : bool) : Run :=
  (* the entries of the template, created when missing *)
  let currentInfo := entryOf (Current cfg) templateID in
  let resumeFromInfo := entryOf (ResumeFrom cfg) templateID in
  (* target.Scan *)
  let st :=
    fold_left (scanCallback opts resumeFromInfo) target
      {| index := 0; currentInFlight := InFlight currentInfo; tasks := [];
         scanned := 0 |} in
  (* wg.WaitGroup.Wait(): every goroutine has run and cleaned up *)
  let ran := List.filter (fun t => negb (taskSkip t)) (tasks st) in
  let executed := map (fun t => (taskIndex t, taskValue t)) ran in
  let inFlight := cleanupAll (currentInFlight st) (tasks st) in
  let currentInfo :=
    {| Completed := true; InFlight := inFlight;
       SkipUnder := SkipUnder currentInfo; DoAbove := DoAbove currentInfo |} in
  {| resumeCfg :=
       {| ResumeFrom := <[templateID := resumeFromInfo]> (ResumeFrom cfg);
          Current := <[templateID := currentInfo]> (Current cfg) |};
     executedTargets := executed;
     results := results0 || existsb (fun t => execute (taskValue t)) ran |}.

End Engine.





(** The scanned values the host-errors cache lets through, when
    [scannedBefore] values have been scanned before them. *)
Fixpoint letThrough (opts : ExecuterOptions) (scannedBefore : nat) (target : list string)
  : list string :=
  match target with
  | [] => []
  | v :: rest =>
      if tripped opts scannedBefore v then letThrough opts (S scannedBefore) rest
      else v :: letThrough opts (S scannedBefore) rest
  end.

(** Does the cache trip on the last value scanned? *)
Fixpoint lastTripped (opts : ExecuterOptions) (scannedBefore : nat) (target : list string)
  : bool :=
  match target with
  | [] => false
  | v :: rest =>
      match rest with
      | [] => tripped opts scannedBefore v
      | _ :: _ => lastTripped opts (S scannedBefore) rest
      end
  end.

(** The targets with their positions, from [start] on. *)
Fixpoint indexed (start : N) (target : list string) : list (N * string) :=
  match target with
  | [] => []
  | v :: rest => (start, v) :: indexed (start + 1) rest
  end.

(** A resume file written after an interruption: indices below 5 are done, 5
    and 7 were in flight. *)
Definition interrupted : ResumeInfo :=
  {| Completed := false; InFlight := {[ 5%N; 7%N ]}; SkipUnder := 5; DoAbove := 7 |}.

(** The goroutine started for the target at a position when the host-errors
    cache lets it through. *)
Definition taskOf (resumeFromInfo : ResumeInfo) (x : N * string) : Task :=
  {| taskIndex := x.1; taskSkip := resumeSkip resumeFromInfo x.1; taskValue := x.2 |}.

Definition tenTargets : list string :=
  ["h0"; "h1"; "h2"; "h3"; "h4"; "h5"; "h6"; "h7"; "h8"; "h9"].

Definition resumedCfg : ResumeCfg :=
  {| ResumeFrom := {[ "s1" := interrupted ]}; Current := ∅ |}.

Definition noHostErrors : ExecuterOptions := {| HostErrorsCache := None |}.

(** A host-errors cache that trips on one host. *)
Definition tripsOn (host : string) : ExecuterOptions :=
  {| HostErrorsCache := Some (fun _ value => String.eqb value host) |}.

End Core.

(** ** More of Go's [strings] and [strconv] packages *)

Module GoStringsMore.
Import GoStrings.

(** [strings.HasSuffix(s, suffix)] *)
Definition HasSuffix (s suffix : string) : bool :=
  (String.length suffix <=? String.length s)%nat &&
  String.eqb (substring (String.length s - String.length suffix) (String.length suffix) s)
             suffix.

(** [strings.TrimPrefix(s, prefix)] *)
Definition TrimPrefix (s prefix : string) : string :=
  if HasPrefix s prefix
  then substring (String.length prefix) (String.length s - String.length prefix) s
  else s.

(** [strings.TrimSuffix(s, suffix)] *)
Definition TrimSuffix (s suffix : string) : string :=
  if HasSuffix s suffix
  then substring 0 (String.length s - String.length suffix) s
  else s.

(** [strings.Split(s, sep)] for a separator of one byte: the pieces between
    the separators, one more than there are separators. *)
Fixpoint SplitByte (s : string) (sep : ascii) : list string :=
  match s with
  | EmptyString => [EmptyString]
  | String c rest =>
      if Ascii.eqb c sep then EmptyString :: SplitByte rest sep
      else
        match SplitByte rest sep with
        | piece :: pieces => String c piece :: pieces
        | [] => [String c EmptyString]
        end
  end.

(** [strings.Join(elems, sep)] *)
Fixpoint Join (elems : list string) (sep : string) : string :=
  match elems with
  | [] => EmptyString
  | [e] => e
  | e :: rest => e +:+ sep +:+ Join rest sep
  end.

(** [strings.TrimSpace(s)] *)
Definition TrimSpace {U : Unicode} (s : string) : string :=
  if isASCII s then trimSpaceASCII s else TrimSpaceRunes s.

(** [strconv.Itoa(i)]: the decimal numeral. *)
Definition Itoa (i : Z) : string := pretty i.

End GoStringsMore.

(** ** [pkg/protocols/common/generators/maps.go] *)

Module Generators.
Import GoStringsMore.

(** [MergeMaps]: a new map that receives the entries of [m1], then those of
    [m2]. *)
Definition MergeMaps (m1 m2 : gmap string Value) : gmap string Value :=
  let m : gmap string Value := ∅ in
  let m := map_fold (fun k v m => <[k := v]> m) m m1 in
  map_fold (fun k v m => <[k := v]> m) m m2.

(** [ExpandMapValues]: every value becomes a slice of one element. *)
Definition ExpandMapValues (m : gmap string string) : gmap string (list string) :=
  map_fold (fun k v m1 => <[k := [v]]> m1) ∅ m.

(** [CopyMap] *)
Definition CopyMap (originalMap : gmap string Value) : gmap string Value :=
  map_fold (fun key value newMap => <[key := value]> newMap) ∅ originalMap.

(** [CopyMapWithDefaultValue]: the keys of the map, each with the default. *)
Definition CopyMapWithDefaultValue (originalMap : gmap string (list string))
    (defaultValue : Value) : gmap string Value :=
  map_fold (fun key _ newMap => <[key := defaultValue]> newMap) ∅ originalMap.

(** [TrimDelimiters]: the leading [{{] and the trailing [}}] are removed. *)
Definition TrimDelimiters (s : string) : string :=
  TrimSuffix (TrimPrefix s "{{") "}}".





End Generators.

(** ** [pkg/protocols/http/build_request.go]: the request generator *)

Module RequestGenerator.

(** A payload binding: the values of one iteration, by name. *)
Definition Payload : Type := gmap string Value.

(** Modelled from the spec: [generators.Iterator] is not under src/.  The
    iterator walks a finite sequence of payload bindings: [Value] returns the
    binding at the position and moves on, or reports that none is left;
    [Reset] goes back to the start; [Remaining] counts what is left. *)
Record Iterator : Type := {
  bindings : list Payload;
  position : nat
}.

Definition Iterator_Value (it : Iterator) : option Payload * Iterator :=
  match bindings it !! position it with
  | Some p => (Some p, {| bindings := bindings it; position := S (position it) |})
  | None => (None, it)
  end.

Definition Iterator_Reset (it : Iterator) : Iterator :=
  {| bindings := bindings it; position := 0 |}.

Definition Iterator_Remaining (it : Iterator) : Z :=
  (Z.of_nat (length (bindings it)) - Z.of_nat (position it))%Z.

(** The fields of [Request] the generator reads. *)
Record Request : Type := {
  Path : list string;
  Raw : list string
}.

Record requestGenerator : Type := {
  currentIndex : nat;
  request : Request;
  payloadIterator : option Iterator
}.

(** [newGenerator]: the iterator is there when the request has payloads. *)
Definition newGenerator (r : Request) (it : option Iterator) : requestGenerator :=
  {| currentIndex := 0; request := r; payloadIterator := it |}.

Definition nonEmpty (s : string) : bool :=
  match s with EmptyString => false | _ => true end.

Definition withState (r : requestGenerator) (i : nat) (it : option Iterator)
  : requestGenerator :=
  {| currentIndex := i; request := request r; payloadIterator := it |}.

(** [nextValue]: the next path or raw request, its payload binding if any, and
    whether there was one; with the generator as it is left.  An index is read
    only where the code has checked it against the length, so the default of
    [!!!] is never used. *)
Definition nextValue (r : requestGenerator)
  : (string * option Payload * bool) * requestGenerator :=
  let paths := Path (request r) in
  let raws := Raw (request r) in
  let i := currentIndex r in
  if (0 <? length paths)%nat && (i <? length paths)%nat &&
     nonEmpty (default EmptyString (paths !! i))
  then ((default EmptyString (paths !! i), None, true),
        withState r (S i) (payloadIterator r))
  else if (0 <? length raws)%nat && (i <? length raws)%nat then
    match payloadIterator r with
    | Some it =>
        match Iterator_Value it with
        | (None, it) =>
            let i := S i in
            let it := Iterator_Reset it in
            if (length raws =? i)%nat
            then ((EmptyString, None, false), withState r i (Some it))
            else if nonEmpty (default EmptyString (raws !! i)) then
              match Iterator_Value it with
              | (Some newPayload, it) =>
                  ((default EmptyString (raws !! i), Some newPayload, true),
                   withState r i (Some it))
              | (None, it) =>
                  ((default EmptyString (raws !! i), None, false),
                   withState r i (Some it))
              end
            else ((EmptyString, None, false), withState r i (Some it))
        | (Some payload, it) =>
            ((default EmptyString (raws !! i), Some payload, true),
             withState r i (Some it))
        end
    | None =>
        if nonEmpty (default EmptyString (raws !! i))
        then ((default EmptyString (raws !! i), None, true), withState r (S i) None)
        else ((EmptyString, None, false), r)
    end
  else ((EmptyString, None, false), r).

(** [Remaining] *)
Definition Remaining (r : requestGenerator) : Z :=
  match payloadIterator r with
  | Some it =>
      let payloadRemaining := Iterator_Remaining it in
      ((Z.of_nat (length (Raw (request r))) - Z.of_nat (currentIndex r) + 1)
       * payloadRemaining)%Z
  | None =>
      (Z.of_nat (length (Path (request r))) - Z.of_nat (currentIndex r) + 1)%Z
  end.

(** The values a caller gets by calling [nextValue] until it answers false, as
    the execution loops do through [Make]; [fuel] bounds the number of
    calls.  The generator is returned as the last call left it. *)
Fixpoint drain (fuel : nat) (r : requestGenerator)
  : list (string * option Payload) * requestGenerator :=
  match fuel with
  | O => ([], r)
  | S fuel =>
      match nextValue r with
      | ((item, payload, true), r') =>
          let '(rest, final) := drain fuel r' in ((item, payload) :: rest, final)
      | ((_, _, false), r') => ([], r')
      end
  end.

(** The variables [Make] hands to the request builders: the dynamic values,
    with [BaseURL] and [Hostname] set from the target.  The host name is read
    before [baseURLWithTemplatePrefs] updates the parsed URL. *)
Definition makeValues (dynamicValues : gmap string Value) (data : string)
    (parsed : GoNet.URL) : gmap string Value :=
  let hostname := GoNet.Host parsed in
  Generators.MergeMaps dynamicValues
    (<["BaseURL" := VStr (HTTP.baseURLWithTemplatePrefs data parsed)]>
       (<["Hostname" := VStr hostname]> ∅)).

(** Which builder [Make] calls: a value with a line feed is a raw request. *)
Definition isRaw (data : string) : bool :=
  GoStrings.Contains data (String "010"%char EmptyString).

(** The longest prefix of a list whose elements satisfy [p]. *)
Fixpoint takeWhile {A} (p : A -> bool) (l : list A) : list A :=
  match l with
  | [] => []
  | x :: rest => if p x then x :: takeWhile p rest else []
  end.

(** A value generated without a payload binding. *)
Definition plain (item : string) : string * option Payload := (item, None).

(** A raw request generated with a payload binding. *)
Definition bound (item : string) (p : Payload) : string * option Payload :=
  (item, Some p).

End RequestGenerator.

(** ** [pkg/protocols/multi]: the multi-protocol request *)

Module Multi.
Import GoStringsMore.

Record OperatorsResult : Type := {
  DynamicValues : gmap string (list string)
}.

Record InternalWrappedEvent : Type := {
  eventName : string;
  OperatorsResult_ : option OperatorsResult
}.

(** Modelled from the spec: the template context ([contextargs]) is not under
    src/; it is the per-template store of named values, a map from names to
    strings, and [Set] writes one of them. *)
Definition Set_ (ctx : gmap string string) (k v : string) : gmap string string :=
  <[k := v]> ctx.

(** The inner loop [for i, val := range v]: the first value is stored under
    the name itself, the value at index [i] under the name followed by [i]. *)
Fixpoint setIndexed (k : string) (i : nat) (v : list string) (ctx : gmap string string)
  : gmap string string :=
  match v with
  | [] => ctx
  | val :: rest =>
      let ctx :=
        if (i =? 0)%nat then Set_ ctx k val
        else Set_ ctx (k +:+ Itoa (Z.of_nat i)) val in
      setIndexed k (S i) rest ctx
  end.

(** The body of [for k, v := range event.OperatorsResult.DynamicValues]. *)
Definition exportValue (k : string) (v : list string) (ctx : gmap string string)
  : gmap string string :=
  match v with
  | [x] => Set_ ctx k x
  | _ => setIndexed k 0 v ctx
  end.


(** A protocol of the queue, as this request sees it: its number of requests,
    and what its [ExecuteWithResults] does given the template context, namely
    the events it hands to the callback and the error it returns. *)
Record Protocol : Type := {
  protoRequests : Z;
  protoExecute : gmap string string -> list InternalWrappedEvent * option string
}.

(** [Requests]: the sum over the queue. *)
Definition Requests (queue : list Protocol) : Z :=
  fold_left (fun count protocol => (count + protoRequests protocol)%Z) queue 0%Z.

(** [getLastRequest] *)
Definition getLastRequest (queue : list Protocol) : option Protocol :=
  if (length queue =? 0)%nat then None else queue !! (length queue - 1).

(** What a run of [ExecuteWithResults] did: how many protocols were executed,
    the events they handed to [multiProtoCallback], the calls of the outer
    callback with their argument ([None] is the nil event), the template
    context and the error returned. *)
Record Outcome : Type := {
  executedProtocols : nat;
  delivered : list InternalWrappedEvent;
  callbackCalls : list (option InternalWrappedEvent);
  templateCtx : gmap string string;
  returnedErr : option string
}.



(** The name under which the value at index [i] of a dynamic value is stored. *)
Definition keyAt (k : string) (i : nat) : string :=
  if (i =? 0)%nat then k else k +:+ Itoa (Z.of_nat i).

End Multi.

(** ** [pkg/executor/executer_http.go]: custom headers and the handling of a
    response *)

Module ExecutorHTTP.
Import GoStrings GoStringsMore.



(** The body of the loop of [setCustomHeaders]: the name and the value set for
    one custom header, or nothing when the header is passed over. *)
Definition parseCustomHeader {U : Unicode} (customHeader : string)
  : option (string * string) :=
  let tokens := SplitByte customHeader ":" in
  if (length tokens <? 2)%nat then None
  else
    match tokens with
    | headerName :: rest =>
        let headerValue := Join rest EmptyString in
        Some (TrimSpace headerName, TrimSpace headerValue)
    | [] => None
    end.

(** [setCustomHeaders]: [headerSet] is the [Set] method of the request's
    header. *)
Definition setCustomHeaders {U : Unicode} {H : Type}
    (headerSet : H -> string -> string -> H)
    (customHeaders : list string) (header : H) : H :=
  fold_left
    (fun header customHeader =>
       match parseCustomHeader customHeader with
       | Some (headerName, headerValue) => headerSet header headerName headerValue
       | None => header
       end)
    customHeaders header.

(** A call of [writeOutputHTTP]: the matcher it reports, if any, and the
    extracted values. *)
Record Output : Type := {
  outMatcher : option string;
  outExtracted : list string
}.

(** The loop over the matchers of a response.  A matcher is given by its name
    and by whether it matched the response.  The result is the outputs
    written and whether the loop ran to its end ([false] is
    [continue mainLoop]). *)
Fixpoint matchersLoop (matcherCondition : Matchers.ConditionType) (noExtractors : bool)
    (matchers : list (string * bool)) (written : list Output) : list Output * bool :=
  match matchers with
  | [] => (written, true)
  | (name, matched) :: rest =>
      if negb matched then
        if Matchers.ConditionType_eqb matcherCondition Matchers.ANDCondition
        then (written, false)
        else matchersLoop matcherCondition noExtractors rest written
      else if Matchers.ConditionType_eqb matcherCondition Matchers.ORCondition && noExtractors
      then matchersLoop matcherCondition noExtractors rest
             (written ++ [ {| outMatcher := Some name; outExtracted := [] |} ])
      else matchersLoop matcherCondition noExtractors rest written
  end.

(** What [ExecuteHTTP] writes for one response: [extractors] holds what each
    extractor of the request extracts from it, in the order the range loop
    over the extracted set visits it. *)
Definition handleResponse (matcherCondition : Matchers.ConditionType)
    (matchers : list (string * bool)) (extractors : list (list string)) : list Output :=
  let noExtractors := (length extractors =? 0)%nat in
  match matchersLoop matcherCondition noExtractors matchers [] with
  | (written, false) => written
  | (written, true) =>
      let extractorResults := concat extractors in
      if (0 <? length extractors)%nat ||
         Matchers.ConditionType_eqb matcherCondition Matchers.ANDCondition
      then written ++ [ {| outMatcher := None; outExtracted := extractorResults |} ]
      else written
  end.

(** [GotResults] after a response: [results] is set once an output is
    written. *)
Definition gotResults (before : bool) (outputs : list Output) : bool :=
  before || (0 <? length outputs)%nat.

End ExecutorHTTP.

(** ** The scan strategies of the engine and the host-errors cache *)

Module Strategies.
Import Core.

(** A compiled template as the engine sees it: [Execute None] is the answer
    of the template's executer on the empty context of a self-contained
    template, [Execute (Some value)] its answer (or that of its workflow) on a
    scanned value. *)
Record Template : Type := {
  ID : string;
  SelfContained : bool;
  Execute : option string -> bool
}.

(** The state of a scan: the resume configuration, the executions made (the
    template, and the index and value of the target unless the template is
    self-contained), and the [results] flag. *)
Record Scan : Type := {
  scanCfg : ResumeCfg;
  scanExecuted : list (Template * option (N * string));
  scanResults : bool
}.

(** The goroutine [executeTemplateSpray] starts for a template; the
    goroutines are taken one after the other, in the order they are
    started. *)
Definition sprayTemplate (opts : ExecuterOptions) (target : list string)
    (acc : Scan) (tpl : Template) : Scan :=
  if SelfContained tpl then
    (* executeSelfContainedTemplateWithInput *)
    {| scanCfg := scanCfg acc;
       scanExecuted := scanExecuted acc ++ [(tpl, None)];
       scanResults := scanResults acc || Execute tpl None |}
  else
    let run :=
      executeModelWithInput (fun value => Execute tpl (Some value)) opts (scanCfg acc)
        (ID tpl) target (scanResults acc) in
    {| scanCfg := resumeCfg run;
       scanExecuted :=
         scanExecuted acc ++ map (fun x => (tpl, Some x)) (executedTargets run);
       scanResults := results run |}.

(** [executeTemplateSpray]: the targets are iterated over for each template. *)
Definition executeTemplateSpray (opts : ExecuterOptions) (cfg : ResumeCfg)
    (templatesList : list Template) (target : list string) : Scan :=
  fold_left (sprayTemplate opts target) templatesList
    {| scanCfg := cfg; scanExecuted := []; scanResults := false |}.

(** [executeHostSpray]: the templates are iterated over for each target, each
    target being given to [executeTemplateSpray] as an input provider of its
    own. *)
Definition executeHostSpray (opts : ExecuterOptions) (cfg : ResumeCfg)
    (templatesList : list Template) (target : list string) : Scan :=
  fold_left
    (fun acc value =>
       let status := executeTemplateSpray opts (scanCfg acc) templatesList [value] in
       {| scanCfg := scanCfg status;
          scanExecuted := scanExecuted acc ++ scanExecuted status;
          scanResults := scanResults acc || scanResults status |})
    target
    {| scanCfg := cfg; scanExecuted := []; scanResults := false |}.

(** [stringsutil.EqualFoldAny(s, ss...)]: is [s] equal to one of [ss] up to
    case? *)
Definition EqualFoldAny {U : GoStrings.Unicode} (s : string) (ss : list string) : bool :=
  existsb (fun t => GoStrings.EqualFold s t) ss.

(** [ExecuteScanWithOpts]: [cluster] is [templates.ClusterTemplates];
    [None] is the [nil] pointer returned when no strategy is run. *)
Definition ExecuteScanWithOpts {U : GoStrings.Unicode}
    (cluster : list Template -> list Template)
    (opts : ExecuterOptions) (cfg : ResumeCfg) (ScanStrategy : string)
    (templatesList : list Template) (target : list string) (noCluster : bool)
  : option Scan :=
  let finalTemplates := if negb noCluster then cluster templatesList else templatesList in
  let ScanStrategy :=
    if EqualFoldAny ScanStrategy ["auto"; EmptyString] then "template-spray"
    else ScanStrategy in
  if String.eqb ScanStrategy "template-spray"
  then Some (executeTemplateSpray opts cfg finalTemplates target)
  else if String.eqb ScanStrategy "host-spray"
  then Some (executeHostSpray opts cfg finalTemplates target)
  else None.

(** The executions of a template on the targets at the given positions. *)
Definition executionsOf (cfg : ResumeCfg) (tpl : Template) (targets : list (N * string))
  : list (Template * option (N * string)) :=
  if SelfContained tpl then [(tpl, None)]
  else
    map (fun x => (tpl, Some x))
      (List.filter (fun x => negb (resumeSkip (entryOf (ResumeFrom cfg) (ID tpl)) x.1))
         targets).

(** What an execution answers. *)
Definition answer (e : Template * option (N * string)) : bool :=
  Execute e.1 (snd <$> e.2).

End Strategies.

(** * Properties *)

(** ** Facts about the string functions *)

Module GoStringsFacts.
Import GoStrings.

Lemma HasPrefix_spec s p :
  HasPrefix s p = true <-> exists rest, s = p +:+ rest.
Proof.
  revert s. induction p as [|c p IH]; intros s; simpl.
  - split; [intros _; by exists s | done].
  - destruct s as [|d s].
    + split; [done | intros [rest Hr]; discriminate].
    + destruct (Ascii.eqb_spec c d) as [->|Hne].
      * rewrite IH. split; intros [rest Hr]; exists rest.
        -- by rewrite Hr.
        -- by injection Hr.
      * split; [done | intros [rest Hr]; injection Hr; congruence].
Qed.

Lemma Contains_spec s sub :
  Contains s sub = true <-> exists pre post, s = pre +:+ sub +:+ post.
Proof.
  induction s as [|d s IH]; simpl.
  - rewrite orb_false_r, HasPrefix_spec. split.
    + intros [rest Hr]. by exists EmptyString, rest.
    + intros [pre [post Hr]]. destruct pre; [by exists post | discriminate].
  - rewrite orb_true_iff, HasPrefix_spec, IH. split.
    + intros [[rest Hr] | [pre [post Hr]]].
      * by exists EmptyString, rest.
      * exists (String d pre), post. simpl. by rewrite Hr.
    + intros [pre [post Hr]]. destruct pre as [|e pre]; simpl in Hr.
      * left. by exists post.
      * right. exists pre, post. by injection Hr.
Qed.

Lemma lowerAscii_idemp c : lowerAscii (lowerAscii c) = lowerAscii c.
Proof.
  destruct c as [[] [] [] [] [] [] [] []]; reflexivity.
Qed.

Lemma toLowerASCII_idemp s : toLowerASCII (toLowerASCII s) = toLowerASCII s.
Proof.
  induction s as [|c s IH]; simpl; [done|]. by rewrite lowerAscii_idemp, IH.
Qed.

Lemma toLowerASCII_isASCII s : isASCII s = true -> isASCII (toLowerASCII s) = true.
Proof.
  induction s as [|c s IH]; simpl; [done|].
  intros [Hc Hs]%andb_true_iff. rewrite (IH Hs), andb_true_r.
  unfold lowerAscii.
  destruct ((65 <=? nat_of_ascii c)%nat && (nat_of_ascii c <=? 90)%nat) eqn:Hup; [|done].
  apply andb_true_iff in Hup as [H1 H2].
  apply Nat.leb_le in H1, H2. rewrite nat_ascii_embedding by lia.
  apply Nat.ltb_lt. lia.
Qed.

(** On ASCII text [strings.ToLower] is idempotent, whatever the Unicode
    tables. *)
Lemma ToLower_idemp {U : Unicode} s :
  isASCII s = true -> ToLower (ToLower s) = ToLower s.
Proof.
  intros Hs. unfold ToLower. rewrite Hs, (toLowerASCII_isASCII s Hs).
  apply toLowerASCII_idemp.
Qed.

End GoStringsFacts.

(** ** The regular-expression matcher *)

Module GoRegexpFacts.
Import GoRegexp.

Lemma append_empty s1 s2 : s1 +:+ s2 = EmptyString -> s1 = EmptyString /\ s2 = EmptyString.
Proof. destruct s1; simpl; [done | discriminate]. Qed.

Lemma lang_cat_inv r1 r2 s :
  lang (Cat r1 r2) s -> exists s1 s2, s = s1 +:+ s2 /\ lang r1 s1 /\ lang r2 s2.
Proof. inversion 1; subst. eauto. Qed.

Lemma lang_alt_inv r1 r2 s : lang (Alt r1 r2) s -> lang r1 s \/ lang r2 s.
Proof. inversion 1; subst; auto. Qed.

Lemma lang_star_cons_inv r c s :
  lang (Star r) (String c s) ->
  exists s1 s2, s = s1 +:+ s2 /\ lang r (String c s1) /\ lang (Star r) s2.
Proof.
  intros H. remember (Star r) as r' eqn:Hr. remember (String c s) as s' eqn:Hs.
  revert s Hs.
  induction H as [| | | | | |r0 s1 s2 H1 _ H2 IH2]; intros s0 Hs; try discriminate.
  injection Hr as ->.
  destruct s1 as [|d s1]; simpl in Hs.
  - by apply IH2.
  - injection Hs as -> <-. eauto.
Qed.

Lemma nullable_lang r : nullable r = true <-> lang r EmptyString.
Proof.
  induction r as [| |p|r1 IH1 r2 IH2|r1 IH1 r2 IH2|r IH]; simpl.
  - split; [done | inversion 1].
  - split; [constructor | done].
  - split; [done | inversion 1].
  - rewrite andb_true_iff, IH1, IH2. split.
    + intros [H1 H2]. by apply (lang_cat r1 r2 EmptyString EmptyString).
    + intros H. apply lang_cat_inv in H as (s1 & s2 & Hs & H1 & H2).
      symmetry in Hs. apply append_empty in Hs as [-> ->]. done.
  - rewrite orb_true_iff, IH1, IH2. split.
    + intros [H|H]; [by apply lang_alt_l | by apply lang_alt_r].
    + apply lang_alt_inv.
  - split; [constructor | done].
Qed.

Lemma deriv_lang c r s : lang (deriv c r) s <-> lang r (String c s).
Proof.
  revert s.
  induction r as [| |p|r1 IH1 r2 IH2|r1 IH1 r2 IH2|r IH]; intros s; simpl.
  - split; inversion 1.
  - split; inversion 1.
  - destruct (p c) eqn:Hp; split.
    + inversion 1; subst. by constructor.
    + inversion 1; subst. constructor.
    + inversion 1.
    + inversion 1; subst. congruence.
  - assert (Hleft : forall s, lang (Cat (deriv c r1) r2) s -> lang (Cat r1 r2) (String c s)).
    { intros s0 H. apply lang_cat_inv in H as (s1 & s2 & -> & H1 & H2).
      apply IH1 in H1. by apply (lang_cat r1 r2 (String c s1) s2). }
    assert (Hinv : lang (Cat r1 r2) (String c s) ->
              lang (Cat (deriv c r1) r2) s \/ (nullable r1 = true /\ lang (deriv c r2) s)).
    { intros H. apply lang_cat_inv in H as (s1 & s2 & Hs & H1 & H2).
      destruct s1 as [|d s1]; simpl in Hs.
      - right. split; [by apply nullable_lang|]. apply IH2. by rewrite Hs.
      - injection Hs as <- ->. left. apply lang_cat; [by apply IH1 | done]. }
    destruct (nullable r1) eqn:Hn; split.
    + intros H. apply lang_alt_inv in H as [H|H]; [by apply Hleft|].
      apply IH2 in H. apply (lang_cat r1 r2 EmptyString (String c s)); [|done].
      by apply nullable_lang.
    + intros H. destruct (Hinv H) as [H'|[_ H']]; [by apply lang_alt_l | by apply lang_alt_r].
    + apply Hleft.
    + intros H. destruct (Hinv H) as [H'|[? _]]; [done | discriminate].
  - split.
    + intros H. apply lang_alt_inv in H as [H|H];
        [apply lang_alt_l; by apply IH1 | apply lang_alt_r; by apply IH2].
    + intros H. apply lang_alt_inv in H as [H|H];
        [apply lang_alt_l; by apply IH1 | apply lang_alt_r; by apply IH2].
  - split.
    + intros H. apply lang_cat_inv in H as (s1 & s2 & -> & H1 & H2).
      apply IH in H1. by apply (lang_star_cons r (String c s1) s2).
    + intros H. apply lang_star_cons_inv in H as (s1 & s2 & -> & H1 & H2).
      apply lang_cat; [by apply IH | done].
Qed.

(** The derivative matcher decides the language of the expression. *)
Lemma matches_lang r s : matches r s = true <-> lang r s.
Proof.
  revert r. induction s as [|c s IH]; intros r; simpl.
  - apply nullable_lang.
  - rewrite IH. apply deriv_lang.
Qed.

Lemma lang_star_any s : lang (Star anyByte) s.
Proof.
  induction s as [|c s IH]; [constructor|].
  apply (lang_star_cons anyByte (String c EmptyString) s); [by constructor | done].
Qed.

(** Go's unanchored search: some substring is a word of the expression. *)
Lemma MatchString_spec r s :
  MatchString r s = true <-> exists pre m post, s = pre +:+ m +:+ post /\ lang r m.
Proof.
  unfold MatchString. rewrite matches_lang. split.
  - intros H. apply lang_cat_inv in H as (pre & s' & -> & _ & H).
    apply lang_cat_inv in H as (m & post & -> & Hm & _). eauto.
  - intros (pre & m & post & -> & Hm).
    apply lang_cat; [apply lang_star_any|].
    apply lang_cat; [done | apply lang_star_any].
Qed.

Lemma lang_lit w s : lang (lit w) s <-> s = w.
Proof.
  revert s. induction w as [|c w IH]; intros s; simpl.
  - split; [by inversion 1 | intros ->; constructor].
  - split.
    + intros H. apply lang_cat_inv in H as (s1 & s2 & -> & H1 & H2).
      apply IH in H2 as ->. inversion H1; subst. simpl.
      match goal with H : Ascii.eqb _ _ = true |- _ => apply Ascii.eqb_eq in H as -> end.
      done.
    + intros ->. apply (lang_cat _ _ (String c EmptyString) w).
      * constructor. apply Ascii.eqb_refl.
      * by apply IH.
Qed.

(** X28: the port pattern [urlWithPortRgx] finds a match in a slot value
    exactly when the value holds [{{BaseURL}}:] followed by a digit. *)
Lemma urlWithPortRgx_spec data :
  hasSubmatch Requests.urlWithPortRgx data = true <->
  exists pre d post,
    data = pre +:+ "{{BaseURL}}:" +:+ String d post /\ isDigit d = true.
Proof.
  unfold hasSubmatch. rewrite MatchString_spec. split.
  - intros (pre & m & post & -> & Hm).
    apply lang_cat_inv in Hm as (m1 & m2 & -> & H1 & H2).
    apply lang_lit in H1 as ->.
    apply lang_cat_inv in H2 as (d & ds & -> & Hd & _).
    inversion Hd; subst. exists pre, c, (ds +:+ post). split; [|done].
    done.
  - intros (pre & d & post & -> & Hd).
    exists pre, ("{{BaseURL}}:" +:+ String d EmptyString), post. split; [done|].
    apply lang_cat; [by apply lang_lit|].
    apply (lang_cat _ _ (String d EmptyString) EmptyString); [by constructor | constructor].
Qed.

End GoRegexpFacts.

(** ** The matchers *)

Module MatchersFacts.
Import GoStrings Matchers.

Lemma MatchStatusCode_loop_spec statuses code :
  MatchStatusCode_loop statuses code = existsb (Z.eqb code) statuses.
Proof.
  induction statuses as [|s rest IH]; simpl; [done|].
  destruct (code =? s)%Z; simpl; auto.
Qed.

Lemma MatchSize_loop_spec sizes len :
  MatchSize_loop sizes len = existsb (Z.eqb len) sizes.
Proof.
  induction sizes as [|s rest IH]; simpl; [done|].
  destruct (len =? s)%Z; simpl; auto.
Qed.

Section Words.
Variable ev : string -> gmap string Value -> Result string.
Context {U : Unicode}.

(** Under OR the loop is a search for the first contained word. *)
Lemma MatchWords_loop_OR m corpus dyn i ws acc :
  condition m = ORCondition ->
  fst (MatchWords_loop ev m corpus dyn i ws acc) =
  existsb (Contains corpus) (evaluatedWords ev dyn ws).
Proof.
  intros Hc. revert i acc.
  induction ws as [|w rest IH]; intros i acc; simpl; [done|].
  destruct (ev w dyn) as [w'|e]; simpl; [|apply IH].
  rewrite Hc; simpl.
  destruct (Contains corpus w'); simpl; [done | apply IH].
Qed.

(** Under AND the loop answers at the last index, so the invariant ties the
    index to the words that remain. *)
Lemma MatchWords_loop_AND m corpus dyn i ws acc :
  condition m = ANDCondition ->
  Z.of_nat (length (Words m)) = (i + Z.of_nat (length ws))%Z ->
  forallb (fun w => isOk (ev w dyn)) ws = true ->
  fst (MatchWords_loop ev m corpus dyn i ws acc) =
  negb (Nat.eqb (length ws) 0) && forallb (Contains corpus) (evaluatedWords ev dyn ws).
Proof.
  intros Hc. revert i acc.
  induction ws as [|w rest IH]; intros i acc Hlen Hok; simpl; [done|].
  simpl in Hok. apply andb_true_iff in Hok as [Hw Hrest].
  destruct (ev w dyn) as [w'|e]; [|discriminate]. simpl.
  rewrite Hc; simpl.
  destruct (Contains corpus w'); simpl; [|done].
  simpl in Hlen.
  destruct (Z.eqb_spec (Z.of_nat (length (Words m)) - 1) i) as [Heq|Hne].
  - assert (rest = []) as -> by (destruct rest; [done | simpl in Hlen; lia]).
    done.
  - rewrite IH; [|lia|done].
    destruct rest; [simpl in Hlen; lia | done].
Qed.

Lemma MatchWords_decision m corpus dyn :
  forallb (fun w => isOk (ev w dyn)) (Words m) = true ->
  fst (MatchWords ev m corpus dyn) =
  let corpus' := if CaseInsensitive m then ToLower corpus else corpus in
  let ws := evaluatedWords ev dyn (Words m) in
  match condition m with
  | ANDCondition => negb (Nat.eqb (length (Words m)) 0) && forallb (Contains corpus') ws
  | ORCondition => existsb (Contains corpus') ws
  end.
Proof.
  intros Hok. unfold MatchWords. simpl.
  destruct (condition m) eqn:Hc.
  - by apply MatchWords_loop_AND; [|lia|].
  - by apply MatchWords_loop_OR.
Qed.

End Words.

Lemma evaluatedWords_plain dyn ws : evaluatedWords plainEvaluate dyn ws = ws.
Proof. induction ws as [|w rest IH]; simpl; [done | by rewrite IH]. Qed.

Lemma plainEvaluate_ok dyn ws :
  forallb (fun w => isOk (plainEvaluate w dyn)) ws = true.
Proof. by induction ws. Qed.

(** *** Case-insensitive word matchers *)

(** With the words evaluated, [MatchWords] compares them as they are with
    the corpus, lowercased when the matcher is case-insensitive: under AND it
    returns true exactly when the list is non-empty and every evaluated word is
    a substring of that corpus, under OR exactly when some evaluated word
    is. *)
Lemma MatchWords_compares_evaluated_words {U : Unicode}
    (ev : string -> gmap string Value -> Result string)
    (m : Matcher) (corpus : string) (dyn : gmap string Value) :
  CaseInsensitive m = true ->
  forallb (fun w => isOk (ev w dyn)) (Words m) = true ->
  fst (MatchWords ev m corpus dyn) =
  match condition m with
  | ANDCondition =>
      negb (Nat.eqb (length (Words m)) 0) &&
      forallb (Contains (ToLower corpus)) (evaluatedWords ev dyn (Words m))
  | ORCondition =>
      existsb (Contains (ToLower corpus)) (evaluatedWords ev dyn (Words m))
  end.
Proof.
  intros Hci Hok. rewrite MatchWords_decision by done. simpl. by rewrite Hci.
Qed.

(** The closed examples of this module are on ASCII text. *)
#[local] Existing Instance asciiText.

(** C5 (a defect of the code): a case-insensitive word matcher lowercases the
    corpus and compares it with the words as [expressions.Evaluate] returns
    them, which are not lowercased.  The word [{{user}}], written in lower
    case, evaluates to [Admin] with the dynamic value [user = Admin]; on the
    corpus [Admin Panel] the matcher answers false, although the lowercased
    word is a substring of the lowercased corpus.  The same holds for the
    word [Admin] as written, and with the flag off the matcher answers
    true: the flag makes the matcher match less. *)
Theorem MatchWords_lowercases_corpus_only :
  let dynamicValues : gmap string Value := {[ "user" := VStr "Admin" ]} in
  (markerEvaluate "{{user}}" dynamicValues = Ok "Admin" /\
   MatchWords markerEvaluate (wordMatcher true ORCondition ["{{user}}"]) "Admin Panel"
     dynamicValues = (false, []) /\
   MatchWords markerEvaluate (wordMatcher true ANDCondition ["{{user}}"]) "Admin Panel"
     dynamicValues = (false, []) /\
   Contains (ToLower "Admin Panel") (ToLower "Admin") = true) /\
  (MatchWords plainEvaluate (wordMatcher true ORCondition ["Admin"]) "Admin Panel" ∅
     = (false, []) /\
   spec_MatchWords_caseInsensitive (wordMatcher true ORCondition ["Admin"]) "Admin Panel"
     = true /\
   MatchWords plainEvaluate (wordMatcher false ORCondition ["Admin"]) "Admin Panel" ∅
     = (true, ["Admin"])).
Proof. repeat split; reflexivity. Qed.

(** When the words are already lowercase and evaluate to themselves, the code
    and the specification's reading agree (the list being non-empty under
    AND). *)
Lemma MatchWords_lowercase_words_agree {U : Unicode} m corpus dyn :
  CaseInsensitive m = true ->
  Words m <> [] ->
  Forall (fun w => ToLower w = w) (Words m) ->
  fst (MatchWords plainEvaluate m corpus dyn) = spec_MatchWords_caseInsensitive m corpus.
Proof.
  intros Hci Hne Hlow.
  rewrite MatchWords_decision by apply plainEvaluate_ok. simpl. rewrite Hci.
  rewrite evaluatedWords_plain. unfold spec_MatchWords_caseInsensitive.
  assert (Hall : forallb (Contains (ToLower corpus)) (Words m) =
                 forallb (fun w => Contains (ToLower corpus) (ToLower w)) (Words m)).
  { clear Hne. induction Hlow as [|w ws Hw _ IH]; simpl; [done|]. by rewrite Hw, IH. }
  assert (Hany : existsb (Contains (ToLower corpus)) (Words m) =
                 existsb (fun w => Contains (ToLower corpus) (ToLower w)) (Words m)).
  { clear Hne Hall. induction Hlow as [|w ws Hw _ IH]; simpl; [done|]. by rewrite Hw, IH. }
  destruct (condition m); [|done].
  rewrite Hall. destruct (Words m); [done | reflexivity].
Qed.

(** *** DSL matchers *)

(** A matcher whose expressions all fail to evaluate returns false, whatever
    its condition. *)
Lemma MatchDSL_loop_all_fail m data i es :
  forallb (fun e => negb (isOk (Evaluate e data))) es = true ->
  MatchDSL_loop m data i es = false.
Proof.
  revert i. induction es as [|e rest IH]; intros i Hall; simpl; [done|].
  simpl in Hall. apply andb_true_iff in Hall as [He Hrest].
  destruct (Evaluate e data); [discriminate | by apply IH].
Qed.

Lemma MatchDSL_all_fail m data :
  forallb (fun e => negb (isOk (Evaluate e data))) (dslCompiled m) = true ->
  MatchDSL m data = false.
Proof. apply MatchDSL_loop_all_fail. Qed.

(** One step of the loop treats a non-boolean value exactly as the boolean
    false. *)
Lemma MatchDSL_loop_nonbool m data i e rest v :
  Evaluate e data = Ok v ->
  (forall b, v <> VBool b) ->
  MatchDSL_loop m data i (e :: rest) =
  MatchDSL_loop m data i (exprConst (VBool false) :: rest).
Proof.
  intros He Hv. simpl. rewrite He.
  destruct v; try reflexivity. by destruct (Hv b).
Qed.

(** Under OR a failed evaluation is the same as a false result. *)
Lemma MatchDSL_loop_OR_error m data i e rest msg :
  condition m = ORCondition ->
  Evaluate e data = Err msg ->
  MatchDSL_loop m data i (e :: rest) =
  MatchDSL_loop m data i (exprConst (VBool false) :: rest).
Proof. intros Hc He. simpl. by rewrite He, Hc. Qed.

(** C6 (the code at the failing input): under AND a failed evaluation is
    passed over instead of counting as "not matched": the matcher
    [AND, [failing; true]] returns true, while the same matcher with the
    failing expression replaced by one that evaluates to false, or to a
    non-boolean, returns false. *)
Theorem MatchDSL_AND_passes_over_failed_expression :
  MatchDSL (dslMatcher ANDCondition [exprFails; exprConst (VBool true)]) ∅ = true /\
  MatchDSL (dslMatcher ANDCondition [exprConst (VBool false); exprConst (VBool true)]) ∅
    = false /\
  MatchDSL (dslMatcher ANDCondition [exprConst (VStr "x"); exprConst (VBool true)]) ∅
    = false.
Proof. repeat split; reflexivity. Qed.

(** *** Empty value lists *)

(** C9: a matcher whose value list is empty (status codes, sizes, words,
    compiled regexes, decoded binaries, compiled DSL expressions) makes the
    corresponding match function return false on every input, under AND as
    under OR. *)
Theorem empty_list_never_matches {U : Unicode}
    (ev : string -> gmap string Value -> Result string) (m : Matcher) :
  (Status m = [] -> forall code, MatchStatusCode m code = false) /\
  (Size m = [] -> forall len, MatchSize m len = false) /\
  (Words m = [] -> forall corpus dyn, MatchWords ev m corpus dyn = (false, [])) /\
  (regexCompiled m = [] -> forall corpus, MatchRegex m corpus = (false, [])) /\
  (binaryDecoded m = [] -> forall corpus, MatchBinary m corpus = (false, [])) /\
  (dslCompiled m = [] -> forall data, MatchDSL m data = false).
Proof.
  unfold MatchStatusCode, MatchSize, MatchWords, MatchRegex, MatchBinary, MatchDSL.
  repeat split; intros ->; reflexivity.
Qed.

Lemma empty_list_never_matches_witness :
  let mAnd := dslMatcher ANDCondition [] in
  let mOr := wordMatcher true ORCondition [] in
  (MatchStatusCode mAnd 200 = false /\ MatchSize mAnd 0 = false /\
   MatchWords plainEvaluate mAnd "body" ∅ = (false, []) /\
   MatchRegex mAnd "body" = (false, []) /\ MatchBinary mAnd "body" = (false, []) /\
   MatchDSL mAnd ∅ = false) /\
  (MatchStatusCode mOr 200 = false /\ MatchSize mOr 0 = false /\
   MatchWords plainEvaluate mOr "body" ∅ = (false, []) /\
   MatchRegex mOr "body" = (false, []) /\ MatchBinary mOr "body" = (false, []) /\
   MatchDSL mOr ∅ = false).
Proof.
  intros mAnd mOr.
  destruct (empty_list_never_matches plainEvaluate mAnd) as (A1 & A2 & A3 & A4 & A5 & A6).
  destruct (empty_list_never_matches plainEvaluate mOr) as (B1 & B2 & B3 & B4 & B5 & B6).
  exact (conj
    (conj (A1 eq_refl 200%Z) (conj (A2 eq_refl 0%Z) (conj (A3 eq_refl "body" ∅)
      (conj (A4 eq_refl "body") (conj (A5 eq_refl "body") (A6 eq_refl ∅))))))
    (conj (B1 eq_refl 200%Z) (conj (B2 eq_refl 0%Z) (conj (B3 eq_refl "body" ∅)
      (conj (B4 eq_refl "body") (conj (B5 eq_refl "body") (B6 eq_refl ∅))))))).
Defined.

End MatchersFacts.

(** ** Request counts of a bulk HTTP request *)

Module RequestsFacts.
Import Requests.

Lemma GetRequestCount_le_Total r : (GetRequestCount r <= Total r)%Z.
Proof.
  unfold GetRequestCount, Total.
  pose proof (Z.add_lor_land (Z.of_nat (length (Raw r))) (Z.of_nat (length (Path r)))) as H.
  assert (0 <= Z.land (Z.of_nat (length (Raw r))) (Z.of_nat (length (Path r))))%Z
    by (apply Z.land_nonneg; lia).
  lia.
Qed.

(** The two counts agree exactly when the two lengths share no bit. *)
Lemma GetRequestCount_eq_Total_iff r :
  GetRequestCount r = Total r <->
  Z.land (Z.of_nat (length (Raw r))) (Z.of_nat (length (Path r))) = 0%Z.
Proof.
  unfold GetRequestCount, Total.
  pose proof (Z.add_lor_land (Z.of_nat (length (Raw r))) (Z.of_nat (length (Path r)))) as H.
  lia.
Qed.

(** C10: [Total] is [len(Path) + len(Raw)] and [GetRequestCount] is the bitwise
    OR [len(Raw) | len(Path)]; they agree whenever one of the two lists is
    empty, and some request with both lists non-empty makes them differ. *)
Theorem GetRequestCount_vs_Total :
  (forall r, Total r = (Z.of_nat (length (Path r)) + Z.of_nat (length (Raw r)))%Z) /\
  (forall r, GetRequestCount r =
             Z.lor (Z.of_nat (length (Raw r))) (Z.of_nat (length (Path r)))) /\
  (forall r, Path r = [] \/ Raw r = [] -> GetRequestCount r = Total r) /\
  (exists r, Path r <> [] /\ Raw r <> [] /\ GetRequestCount r <> Total r).
Proof.
  split; [reflexivity|]. split; [reflexivity|]. split.
  - intros r [H|H]; apply GetRequestCount_eq_Total_iff; rewrite H; simpl.
    + apply Z.land_0_r.
    + apply Z.land_0_l.
  - exists (mkRequest ["{{BaseURL}}/a"] ["GET / HTTP/1.1"]). by repeat split.
Qed.

Lemma GetRequestCount_vs_Total_witness :
  (Path (mkRequest ["/a"; "/b"] []) = [] \/ Raw (mkRequest ["/a"; "/b"] []) = []) /\
  GetRequestCount (mkRequest ["/a"; "/b"] []) = Total (mkRequest ["/a"; "/b"] []).
Proof.
  split; [right; reflexivity|].
  apply (proj1 (proj2 (proj2 GetRequestCount_vs_Total))). right; reflexivity.
Defined.

End RequestsFacts.

(** ** The redirect policy *)

Module ExecutorFacts.
Import Executor.

(** One call of the policy: the redirect is followed exactly when redirects
    are enabled and the requests made so far do not exceed the limit. *)
Lemma makeCheckRedirectFunc_spec followRedirects maxRedirects requests :
  makeCheckRedirectFunc followRedirects maxRedirects requests = Follow <->
  followRedirects = true /\
  (Z.of_nat (length requests) <= redirectLimit maxRedirects)%Z.
Proof.
  unfold makeCheckRedirectFunc, redirectLimit.
  destruct followRedirects; simpl; [|by intuition].
  destruct (Z.eqb_spec maxRedirects 0).
  - destruct (Z.ltb_spec 10 (Z.of_nat (length requests))); split;
      (done || intros [_ ?]; (done || lia)) || (intros _; split; (done || lia)).
  - destruct (Z.ltb_spec maxRedirects (Z.of_nat (length requests))); split;
      (done || intros [_ ?]; (done || lia)) || (intros _; split; (done || lia)).
Qed.

Lemma clientDo_length followRedirects maxRedirects locations req reqs :
  length (clientDo (makeCheckRedirectFunc followRedirects maxRedirects)
            (map Some locations) req reqs) =
  length reqs + 1 +
  (if followRedirects
   then Nat.min (length locations)
          (Z.to_nat (redirectLimit maxRedirects - Z.of_nat (length reqs)))
   else 0).
Proof.
  revert req reqs.
  induction locations as [|loc rest IH]; intros req reqs; cbn [map clientDo length].
  - rewrite length_app. cbn [length]. destruct followRedirects; lia.
  - destruct (makeCheckRedirectFunc followRedirects maxRedirects (reqs ++ [req]))
      eqn:Hc.
    + apply makeCheckRedirectFunc_spec in Hc as [-> Hle].
      rewrite IH. rewrite length_app in *. cbn [length] in *. lia.
    + rewrite length_app. cbn [length].
      destruct followRedirects; [|lia].
      assert (~ (Z.of_nat (length (reqs ++ [req])) <= redirectLimit maxRedirects)%Z)
        as Hgt.
      { intros Hle.
        assert (makeCheckRedirectFunc true maxRedirects (reqs ++ [req]) = Follow)
          by (by apply makeCheckRedirectFunc_spec).
        congruence. }
      rewrite length_app in Hgt. cbn [length] in Hgt. lia.
Qed.

(** C7: against a server that answers with a chain of redirects, the client
    follows none when follow-redirects is disabled; when it is enabled it
    follows at most 10 of them if [maxRedirects] is 0 (the default limit) and
    at most [maxRedirects] of them otherwise, stopping at the limit. *)
Theorem redirects_followed_up_to_limit
    (followRedirects : bool) (maxRedirects : Z) (locations : list string) (req : string) :
  redirectsFollowed
    (clientDo (makeCheckRedirectFunc followRedirects maxRedirects)
       (map Some locations) req []) =
  if followRedirects
  then Nat.min (length locations)
         (Z.to_nat (if (maxRedirects =? 0)%Z then 10 else maxRedirects))
  else 0.
Proof.
  unfold redirectsFollowed. rewrite clientDo_length. unfold redirectLimit. simpl.
  destruct followRedirects; [|lia].
  rewrite Z.sub_0_r. lia.
Qed.

Example twelve_redirects_default_limit :
  redirectsFollowed
    (clientDo (makeCheckRedirectFunc true 0)
       (map Some (replicate 12 "/next")) "/" []) = 10.
Proof. reflexivity. Qed.

Example twelve_redirects_limit_three :
  redirectsFollowed
    (clientDo (makeCheckRedirectFunc true 3)
       (map Some (replicate 12 "/next")) "/" []) = 3.
Proof. reflexivity. Qed.

End ExecutorFacts.

(** ** [net.SplitHostPort] on a plain [host:port] *)

Module GoNetFacts.
Import GoNet.

Lemma IndexByte_lower s c : (-1 <= IndexByte s c)%Z.
Proof.
  induction s as [|d s IH]; simpl; [lia|].
  destruct (Ascii.eqb d c); [lia|]. destruct (Z.ltb_spec (IndexByte s c) 0); lia.
Qed.

Lemma IndexByte_app_absent a b c :
  IndexByte a c = (-1)%Z -> IndexByte b c = (-1)%Z -> IndexByte (a +:+ b) c = (-1)%Z.
Proof.
  intros Ha Hb. induction a as [|d a IH]; simpl in *; [done|].
  destruct (Ascii.eqb d c); [lia|].
  destruct (Z.ltb_spec (IndexByte a c) 0) as [Hlt|Hge]; [|lia].
  rewrite IH by (pose proof (IndexByte_lower a c); lia). done.
Qed.

Lemma plainName_IndexByte s c :
  plainName s = true -> (c = ":" \/ c = "[" \/ c = "]")%char -> IndexByte s c = (-1)%Z.
Proof.
  intros Hs Hc. induction s as [|d s IH]; simpl in *; [done|].
  repeat (apply andb_true_iff in Hs as [Hs ?]).
  rewrite IH by done. simpl.
  destruct (Ascii.eqb_spec d c) as [->|]; [|done].
  destruct Hc as [-> | [-> | ->]]; rewrite Ascii.eqb_refl in *; discriminate.
Qed.

Lemma plainName_LastIndexByte s :
  plainName s = true -> LastIndexByte s ":" = (-1)%Z.
Proof.
  intros Hs. induction s as [|d s IH]; simpl in *; [done|].
  repeat (apply andb_true_iff in Hs as [Hs ?]).
  rewrite IH by done. simpl. by destruct (Ascii.eqb d ":").
Qed.

Lemma LastIndexByte_join h p :
  plainName p = true -> LastIndexByte (h +:+ String ":" p) ":" = len h.
Proof.
  intros Hp. unfold len. induction h as [|d h IH]; simpl.
  - by rewrite plainName_LastIndexByte.
  - rewrite IH. destruct (Z.leb_spec 0 (Z.of_nat (String.length h))); lia.
Qed.

Lemma substring_prefix a b : substring 0 (String.length a) (a +:+ b) = a.
Proof.
  induction a as [|d a IH]; simpl; [by destruct b | by rewrite IH].
Qed.

Lemma substring_whole a : substring 0 (String.length a) a = a.
Proof. induction a as [|d a IH]; simpl; [done | by rewrite IH]. Qed.

Lemma substring_suffix a c b :
  substring (String.length a + 1) (String.length b) (a +:+ String c b) = b.
Proof.
  induction a as [|d a IH]; simpl; [apply substring_whole | apply IH].
Qed.

Lemma length_join a c b :
  String.length (a +:+ String c b) = String.length a + 1 + String.length b.
Proof. induction a as [|d a IH]; simpl; [done | rewrite IH; lia]. Qed.

(** Joining a plain host and a plain port with a colon and splitting again
    gives the two back. *)
Lemma SplitHostPort_join h p :
  plainName h = true -> plainName p = true ->
  SplitHostPort (h +:+ String ":" p) = Ok (h, p).
Proof.
  intros Hh Hp. unfold SplitHostPort.
  rewrite LastIndexByte_join by done.
  assert (Hlen : (0 <= len h)%Z) by (unfold len; lia).
  destruct (Z.ltb_spec (len h) 0) as [?|_]; [lia|].
  assert (Hbr : match h +:+ String ":" p with
                | String c _ => Ascii.eqb c "["
                | EmptyString => false
                end = false).
  { destruct h as [|d h]; simpl; [done|]. simpl in Hh.
    repeat (apply andb_true_iff in Hh as [Hh ?]).
    by destruct (Ascii.eqb d "["). }
  rewrite Hbr.
  assert (Hhost : slice (h +:+ String ":" p) 0 (len h) = h).
  { unfold slice, len. rewrite Z.sub_0_r, Nat2Z.id. apply substring_prefix. }
  rewrite Hhost.
  rewrite (plainName_IndexByte h ":") by auto. simpl.
  assert (Hall : slice (h +:+ String ":" p) 0 (len (h +:+ String ":" p))
                 = h +:+ String ":" p).
  { unfold slice, len. rewrite Z.sub_0_r, Nat2Z.id. apply substring_whole. }
  rewrite Hall.
  assert (Hno : forall c, (c = "[" \/ c = "]")%char ->
                IndexByte (h +:+ String ":" p) c = (-1)%Z).
  { intros c Hc. apply IndexByte_app_absent.
    - apply plainName_IndexByte; tauto.
    - simpl. rewrite (plainName_IndexByte p c) by tauto. simpl.
      destruct Hc as [-> | ->]; reflexivity. }
  rewrite !Hno by auto. simpl.
  do 2 f_equal. unfold slice, len. rewrite length_join.
  replace (Z.to_nat (Z.of_nat (String.length h) + 1)) with (String.length h + 1) by lia.
  replace (Z.to_nat (Z.of_nat (String.length h + 1 + String.length p) -
                     (Z.of_nat (String.length h) + 1)))
    with (String.length p) by lia.
  apply substring_suffix.
Qed.

End GoNetFacts.

(** ** The base URL handed to a template *)

Module BaseURLFacts.
Import GoRegexp GoNet.

(** C4 (a defect of the code): both [baseURLWithTemplatePrefs] functions are
    documented as keeping the template's port and path preference, and each
    misses what the other does.
    - The one of the [http] protocol package has no path preference: the slot
      value [{{BaseURL}}/admin] names a path after [{{BaseURL}}], the one of the
      [requests] package drops the path of the target [http://example.com/app],
      the one of the [http] package renders it.
    - The one of the [requests] package drops the error of
      [net.SplitHostPort], which the other one checks: with the slot value
      [{{BaseURL}}:9090] and the same target, whose host has no port, the host
      is not reused but lost. *)
Theorem baseURLWithTemplatePrefs_preference_missed :
  (hasSubmatch Requests.urlWithPathRgx "{{BaseURL}}/admin" = true /\
   Requests.baseURLWithTemplatePrefs "{{BaseURL}}/admin" (target "example.com" "/app")
     = "http://example.com" /\
   HTTP.baseURLWithTemplatePrefs "{{BaseURL}}/admin" (target "example.com" "/app")
     = "http://example.com/app") /\
  (hasSubmatch Requests.urlWithPortRgx "{{BaseURL}}:9090" = true /\
   HTTP.baseURLWithTemplatePrefs "{{BaseURL}}:9090" (target "example.com" "/app")
     = "http://example.com/app" /\
   Requests.baseURLWithTemplatePrefs "{{BaseURL}}:9090" (target "example.com" "/app")
     = "http:///app").
Proof. repeat split; reflexivity. Qed.

(** X27: what the two functions do for every slot value and parsed target
    URL:
    - in both packages, when the slot value contains [{{BaseURL}}:PORT] and the
      target's host is [host:port], the base URL is rendered from the target
      with its host replaced by [host] (its own port stripped);
    - in the [requests] package, when the slot value has a path after
      [{{BaseURL}}], the target's path is dropped;
    - in the [http] protocol package the target's path is always kept. *)
Theorem baseURLWithTemplatePrefs_overrides (data : string) (u : URL) :
  (forall h p, plainName h = true -> plainName p = true ->
     Host u = h +:+ String ":" p ->
     (hasSubmatch Requests.urlWithPortRgx data = true ->
        Host (Requests.baseURLWithTemplatePrefs_url data u) = h) /\
     (hasSubmatch HTTP.urlWithPortRegex data = true ->
        HTTP.baseURLWithTemplatePrefs data u = URL_String (setHost u h))) /\
  (hasSubmatch Requests.urlWithPathRgx data = true ->
     Path (Requests.baseURLWithTemplatePrefs_url data u) = EmptyString) /\
  Path (HTTP.baseURLWithTemplatePrefs_url data u) = Path u /\
  Requests.baseURLWithTemplatePrefs data u =
    URL_String (Requests.baseURLWithTemplatePrefs_url data u).
Proof.
  split; [|split; [|split; [|reflexivity]]].
  - intros h p Hh Hp Hhost. split; intros Hport.
    + unfold Requests.baseURLWithTemplatePrefs_url. rewrite Hport, Hhost.
      rewrite GoNetFacts.SplitHostPort_join by done.
      by destruct (hasSubmatch Requests.urlWithPathRgx data).
    + unfold HTTP.baseURLWithTemplatePrefs, HTTP.baseURLWithTemplatePrefs_url.
      rewrite Hport, Hhost. by rewrite GoNetFacts.SplitHostPort_join.
  - intros Hpath. unfold Requests.baseURLWithTemplatePrefs_url. by rewrite Hpath.
  - unfold HTTP.baseURLWithTemplatePrefs_url.
    destruct (hasSubmatch HTTP.urlWithPortRegex data); [|done].
    by destruct (SplitHostPort (Host u)) as [[? ?]|].
Qed.

Lemma baseURLWithTemplatePrefs_overrides_witness :
  let data := "{{BaseURL}}:9090/admin" in
  let u := target "example.com:8080" "/app" in
  (plainName "example.com" = true /\ plainName "8080" = true /\
   Host u = "example.com" +:+ String ":" "8080" /\
   hasSubmatch Requests.urlWithPortRgx data = true /\
   hasSubmatch Requests.urlWithPathRgx data = true) /\
  Host (Requests.baseURLWithTemplatePrefs_url data u) = "example.com" /\
  HTTP.baseURLWithTemplatePrefs data u = URL_String (setHost u "example.com") /\
  Path (Requests.baseURLWithTemplatePrefs_url data u) = EmptyString.
Proof.
  intros data u.
  destruct (baseURLWithTemplatePrefs_overrides data u) as (Hport & Hpath & _ & _).
  destruct (Hport "example.com" "8080" eq_refl eq_refl eq_refl) as [Hbulk Hhttp].
  exact (conj (conj eq_refl (conj eq_refl (conj eq_refl (conj eq_refl eq_refl))))
           (conj (Hbulk eq_refl) (conj (Hhttp eq_refl) (Hpath eq_refl)))).
Defined.

End BaseURLFacts.

(** ** Stop at first match in the sequential HTTP loop *)

Module HTTPFacts.
Import HTTP.

Section Sequential.
Variable executeRequest : generatedRequest -> gmap string Value -> Result InternalWrappedEvent.
Variable generatorTotal : Z.

(** Quiet iterations are all executed, one after the other, and the loop goes
    on with what is left of the generator. *)
Lemma loop_quiet_prefix r pre post dyn errs :
  quiet executeRequest pre dyn = true ->
  exists trace errs',
    length trace = length pre /\
    Forall (fun x => gotOutput x.2 = false) trace /\
    executed (ExecuteWithResults_loop executeRequest generatorTotal r
                (pre ++ post) dyn errs) =
      trace ++
      executed (ExecuteWithResults_loop executeRequest generatorTotal r post dyn errs').
Proof.
  revert errs. induction pre as [|make pre IH]; intros errs Hq.
  - exists [], errs. by repeat split.
  - simpl in Hq. apply andb_true_iff in Hq as [Hm Hq].
    simpl. destruct (make dyn) as [request|e]; [|done].
    apply negb_true_iff in Hm. rewrite Hm, andb_false_r.
    set (errs1 := match executeRequest request dyn with
                  | Ok _ => errs | Err e => errs ++ [e] end).
    assert (Hdyn : match executeRequest request dyn with
                   | Ok event =>
                       match OperatorsResult_ event with
                       | Some opres => MergeMaps dyn (DynamicValues opres)
                       | None => dyn
                       end
                   | Err _ => dyn
                   end = dyn).
    { unfold gotOutput in Hm. destruct (executeRequest request dyn) as [ev|]; [|done].
      by destruct (OperatorsResult_ ev). }
    rewrite Hdyn.
    destruct (IH errs1 Hq) as (trace & errs' & Hlen & Hall & Heq).
    exists ((request, executeRequest request dyn) :: trace), errs'.
    split; [simpl; by rewrite Hlen|]. split; [by constructor|].
    simpl. by rewrite Heq.
Qed.

(** An iteration that brings an operators result is the last one when
    stop-at-first-match is set. *)
Lemma loop_stops r make post dyn errs request :
  StopAtFirstMatch r = true ->
  make dyn = Ok request ->
  gotOutput (executeRequest request dyn) = true ->
  executed (ExecuteWithResults_loop executeRequest generatorTotal r
              (make :: post) dyn errs)
    = [(request, executeRequest request dyn)].
Proof. intros Hs Hm Hg. simpl. by rewrite Hm, Hs, Hg. Qed.

Lemma loop_positive_is_last r generator dyn errs i x :
  StopAtFirstMatch r = true ->
  executed (ExecuteWithResults_loop executeRequest generatorTotal r
              generator dyn errs) !! i = Some x ->
  gotOutput x.2 = true ->
  length (executed (ExecuteWithResults_loop executeRequest generatorTotal r
                      generator dyn errs)) = S i.
Proof.
  intros Hs. revert dyn errs i.
  induction generator as [|make generator IH]; intros dyn errs i; simpl; [done|].
  destruct (make dyn) as [request|e]; [|done].
  rewrite Hs. simpl.
  destruct (gotOutput (executeRequest request dyn)) eqn:Hg; simpl.
  - destruct i as [|i]; [done|]. simpl. by rewrite lookup_nil.
  - destruct i as [|i]; simpl.
    + intros [= <-]. simpl. congruence.
    + intros Hx Hgx. f_equal. by eapply IH.
Qed.

End Sequential.

(** C2: on the sequential path with stop-at-first-match enabled, a generated
    request whose event carries an operators result is the last request the
    loop executes: the loop breaks, and no later iteration of the generator is
    made or sent. *)
Theorem stop_at_first_match_breaks_loop
    (executeRequest : generatedRequest -> gmap string Value -> Result InternalWrappedEvent)
    (generatorTotal : Z) (r : Request) (generator : Generator)
    (dynamicValues : gmap string Value)
    (i : nat) (request : generatedRequest) (event : InternalWrappedEvent) :
  executionPath r = Sequential ->
  StopAtFirstMatch r = true ->
  executed (ExecuteWithResults_sequential executeRequest generatorTotal r generator
              dynamicValues) !! i = Some (request, Ok event) ->
  OperatorsResult_ event <> None ->
  length (executed (ExecuteWithResults_sequential executeRequest generatorTotal r
                      generator dynamicValues)) = S i.
Proof.
  intros _ Hs Hi Hop. eapply loop_positive_is_last; [done | exact Hi |].
  simpl. by destruct (OperatorsResult_ event).
Qed.

Lemma stop_at_first_match_breaks_loop_witness :
  let gen := [payloadRequest "a"; payloadRequest "b"; payloadRequest "c"] in
  let run := ExecuteWithResults_sequential (matchesOn "b") 3 (sequentialRequest true) gen ∅ in
  let request := {| requestURL := "http://h/login?pass=b"; meta := {[ "pass" := VStr "b" ]} |} in
  let event := {| InternalEvent := ∅;
                  OperatorsResult_ := Some {| Matched := true; DynamicValues := ∅ |} |} in
  (executionPath (sequentialRequest true) = Sequential /\
   StopAtFirstMatch (sequentialRequest true) = true /\
   executed run !! 1 = Some (request, Ok event) /\
   OperatorsResult_ event <> None) /\
  length (executed run) = 2.
Proof.
  intros gen run request event.
  assert (H1 : executed run !! 1 = Some (request, Ok event)) by reflexivity.
  assert (H2 : OperatorsResult_ event <> None) by discriminate.
  exact (conj (conj eq_refl (conj eq_refl (conj H1 H2)))
           (stop_at_first_match_breaks_loop (matchesOn "b") 3 (sequentialRequest true)
              gen ∅ 1 request event eq_refl eq_refl H1 H2)).
Defined.

(** Without the option the same generator is run to its end. *)
Example without_stop_all_iterations_run :
  length (executed (ExecuteWithResults_sequential (matchesOn "b") 3
                      (sequentialRequest false)
                      [payloadRequest "a"; payloadRequest "b"; payloadRequest "c"] ∅)) = 3.
Proof. reflexivity. Qed.

End HTTPFacts.

(** ** Parsing templates: validation and the cache *)

Module TemplatesFacts.
Import GoRegexp Templates.

Lemma compileRequests_keeps {U : GoStrings.Unicode} env t t' :
  compileRequests env t = Ok t' ->
  Info_ t' = Info_ t /\ ID t' = ID t /\ CompiledWorkflow t' = CompiledWorkflow t.
Proof.
  unfold compileRequests. cbn [Executer setExecuter].
  destruct (buildExecuter env t) as [ex|].
  - destruct (executerCompile env ex); [|done]. by intros [= <-].
  - by intros [= <-].
Qed.

Lemma Parse_S_inv {U : GoStrings.Unicode} fuel env (cache : gmap string Template) p cache' res :
  Parse (S fuel) env cache p = (cache', res) ->
  (exists t, cache !! p = Some t /\ cache' = cache /\ res = Ok t) \/
  (cache !! p = None /\
   exists paths,
     let cmid := (compileWorkflow (Parse fuel env) cache paths).1 in
     (exists e, res = Err e /\ cache' = cmid) \/
     (exists t0 t data, decode env data = Ok t0 /\ hasNameAndAuthor t0 = true /\
        Info_ t = Info_ t0 /\ ID t = ID t0 /\ res = Ok t /\
        cache' = <[p := t]> cmid)).
Proof.
  intros H. cbn [Parse] in H.
  destruct (cache !! p) as [v|] eqn:Hc.
  { left. exists v. by inversion H. }
  right. split; [done|].
  assert (Hearly : forall e, (cache, Err e) = (cache', res) ->
    exists paths,
     let cmid := (compileWorkflow (Parse fuel env) cache paths).1 in
     (exists e, res = Err e /\ cache' = cmid) \/
     (exists t0 t data, decode env data = Ok t0 /\ hasNameAndAuthor t0 = true /\
        Info_ t = Info_ t0 /\ ID t = ID t0 /\ res = Ok t /\
        cache' = <[p := t]> cmid)).
  { intros e [= <- <-]. exists []. left. by exists e. }
  destruct (readFile env p) as [data|e]; [|by eapply Hearly].
  set (data' := match preprocessor env with Some process => _ | None => _ end) in H.
  destruct (decode env data') as [t0|e] eqn:Hd; [|by eapply Hearly].
  destruct (IsBlank (Name (Info_ t0))) eqn:Hn; [by eapply Hearly|].
  destruct (IsEmpty (Authors (Info_ t0))) eqn:Ha; [by eapply Hearly|].
  destruct (requestCount t0 =? 0)%nat; [by eapply Hearly|].
  clear Hearly.
  assert (Hv : hasNameAndAuthor t0 = true) by (unfold hasNameAndAuthor; by rewrite Hn, Ha).
  assert (Hlate : forall paths t1,
    Info_ t1 = Info_ t0 -> ID t1 = ID t0 ->
    match compileRequests env t1 with
    | Ok template =>
        match Executer template, CompiledWorkflow template with
        | None, None =>
            ((compileWorkflow (Parse fuel env) cache paths).1,
             Err "cannot create template executer")
        | _, _ =>
            (<[p := setPath template p]> (compileWorkflow (Parse fuel env) cache paths).1,
             Ok (setPath template p))
        end
    | Err e => ((compileWorkflow (Parse fuel env) cache paths).1, Err e)
    end = (cache', res) ->
    exists paths,
     let cmid := (compileWorkflow (Parse fuel env) cache paths).1 in
     (exists e, res = Err e /\ cache' = cmid) \/
     (exists t0 t data, decode env data = Ok t0 /\ hasNameAndAuthor t0 = true /\
        Info_ t = Info_ t0 /\ ID t = ID t0 /\ res = Ok t /\
        cache' = <[p := t]> cmid)).
  { intros paths t1 Hi1 Hid1 Heq. exists paths.
    destruct (compileRequests env t1) as [t2|e] eqn:Hcr.
    - apply compileRequests_keeps in Hcr as (Hi2 & Hid2 & _).
      assert (Hgood : (<[p := setPath t2 p]> (compileWorkflow (Parse fuel env) cache paths).1,
                Ok (setPath t2 p)) = (cache', res) ->
         let cmid := (compileWorkflow (Parse fuel env) cache paths).1 in
         (exists e, res = Err e /\ cache' = cmid) \/
         (exists t0 t data, decode env data = Ok t0 /\ hasNameAndAuthor t0 = true /\
            Info_ t = Info_ t0 /\ ID t = ID t0 /\ res = Ok t /\
            cache' = <[p := t]> cmid)).
      { intros [= <- <-]. right. exists t0, (setPath t2 p), data'.
        repeat split; try done; simpl; congruence. }
      destruct (Executer t2); [by apply Hgood|].
      destruct (CompiledWorkflow t2); [by apply Hgood|].
      injection Heq as <- <-. left. by eexists.
    - injection Heq as <- <-. left. by eexists. }
  destruct (0 <? length (Workflows t0))%nat.
  - destruct (compileWorkflow (Parse fuel env) cache
                (flat_map (workflowPaths env) (Workflows t0))) as [cmid exs] eqn:Hw.
    apply (Hlate (flat_map (workflowPaths env) (Workflows t0))
                 (setCompiledWorkflow t0 (Some exs))); [done | done |].
    rewrite Hw. exact H.
  - apply (Hlate [] t0); [done | done |]. exact H.
Qed.

(** Whatever holds of the cache and is kept by every nested [parse] is kept by
    the compilation of a workflow. *)
Lemma compileWorkflow_invariant (P : gmap string Template -> Prop)
    (parse : gmap string Template -> string -> gmap string Template * Result Template)
    (cache : gmap string Template) (paths : list string) :
  (forall c q, P c -> P (parse c q).1) ->
  P cache -> P (compileWorkflow parse cache paths).1.
Proof.
  intros Hparse. unfold compileWorkflow.
  set (f := fun '((cache, executers) : gmap string Template * list Executer_)
                 (path : string) =>
              match parse cache path with
              | (cache, Ok sub) =>
                  match Executer sub with
                  | Some ex => (cache, executers ++ [ex])
                  | None => (cache, executers)
                  end
              | (cache, Err _) => (cache, executers)
              end).
  assert (Hgen : forall exs c, P c -> P (fold_left f paths (c, exs)).1).
  { induction paths as [|q paths IH]; intros exs c HP; simpl; [done|].
    pose proof (Hparse c q HP) as Hq.
    destruct (parse c q) as [c' [sub|e]]; simpl in Hq.
    - destruct (Executer sub); by apply IH.
    - by apply IH. }
  intros HP. exact (Hgen [] cache HP).
Qed.

(** The cache only grows: an entry, once there, is never replaced. *)
Lemma Parse_preserves_entry {U : GoStrings.Unicode} fuel env (cache : gmap string Template) q p t :
  cache !! p = Some t -> (Parse fuel env cache q).1 !! p = Some t.
Proof.
  revert cache q. induction fuel as [|fuel IH]; intros cache q Hp; [done|].
  destruct (Parse (S fuel) env cache q) as [c' res] eqn:HP.
  apply Parse_S_inv in HP as [(v & _ & -> & _) | (Hq & paths & Hcases)]; [done|].
  assert (Hmid : (compileWorkflow (Parse fuel env) cache paths).1 !! p = Some t).
  { apply (compileWorkflow_invariant (fun c => c !! p = Some t)); [|done].
    intros c q' Hc. by apply IH. }
  simpl in *. destruct Hcases as [(e & _ & ->) | (t0 & t' & data & _ & _ & _ & _ & _ & ->)].
  - done.
  - rewrite lookup_insert_ne; [done|]. intros ->. congruence.
Qed.

Lemma ParseMany_preserves_entry {U : GoStrings.Unicode} calls (cache : gmap string Template) p t :
  cache !! p = Some t -> ParseMany calls cache !! p = Some t.
Proof.
  revert cache. induction calls as [|[[fuel env] q] calls IH]; intros cache Hp; [done|].
  simpl. apply IH. by apply Parse_preserves_entry.
Qed.

(** A successful call leaves its result in the cache under its path. *)
Lemma Parse_ok_lookup {U : GoStrings.Unicode} fuel env (cache : gmap string Template) p cache' t :
  Parse fuel env cache p = (cache', Ok t) -> cache' !! p = Some t.
Proof.
  destruct fuel as [|fuel]; [done|]. intros HP.
  apply Parse_S_inv in HP as [(v & Hv & -> & [= <-]) | (Hq & paths & Hcases)]; [done|].
  simpl in Hcases.
  destruct Hcases as [(e & [=] & _) | (t0 & t' & data & _ & _ & _ & _ & [= <-] & ->)].
  apply lookup_insert_eq.
Qed.

(** The closed examples of this module are on ASCII text. *)
#[local] Existing Instance GoStrings.asciiText.

(** C8 (as stated, refuted): the cache is not keyed by the absolute path.
    In the working directory [/templates] the file parsed as [t.yaml] is cached
    under [t.yaml] only; a call with the absolute path [/templates/t.yaml] of
    the same file finds nothing in the cache: it reads, validates and stores
    the file a second time, and fails once the file is gone, while a call with
    [t.yaml] still answers from the cache. *)
Lemma Parse_cache_not_keyed_by_absolute_path :
  let t := httpTemplate "git-config" "Git config" ["a"] in
  let first := Parse 1 (inWorkingDir t) ∅ "t.yaml" in
  let again := Parse 1 (inWorkingDir t) first.1 "/templates/t.yaml" in
  (exists cached, first.2 = Ok cached /\ first.1 !! "t.yaml" = Some cached /\
     Parse 1 noFiles first.1 "t.yaml" = (first.1, Ok cached)) /\
  first.1 !! "/templates/t.yaml" = None /\
  Parse 1 noFiles first.1 "/templates/t.yaml" = (first.1, Err "no such file") /\
  (exists stored, again.2 = Ok stored /\ again.1 !! "/templates/t.yaml" = Some stored /\
     again.1 <> first.1).
Proof.
  intros t first again. split; [|split; [|split]].
  - eexists. split; [reflexivity|]. split; reflexivity.
  - reflexivity.
  - reflexivity.
  - eexists. split; [reflexivity|]. split; [reflexivity|].
    intros Heq. apply (f_equal (fun c => c !! "/templates/t.yaml")) in Heq.
    vm_compute in Heq. discriminate.
Qed.

(** C8 (amended): the cache is keyed by the path as it is passed.  Once
    [Parse] has succeeded for a path, the template it returned is what the
    cache holds under that path, and it stays there through any run of other
    [Parse] calls; every later call with the same path, whatever the file
    system, the decoder and the options have become, returns that template and
    leaves the cache as it is: the file is neither read nor validated again.
    A call with a path the cache does not hold reads the file. *)
Theorem Parse_returns_cached {U : GoStrings.Unicode}
    (fuel : nat) (env : Env) (cache : gmap string Template) (p : string)
    (cache1 : gmap string Template) (t : Template)
    (calls : list (nat * Env * string)) (fuel' : nat) (env' : Env) :
  Parse fuel env cache p = (cache1, Ok t) ->
  cache1 !! p = Some t /\
  ParseMany calls cache1 !! p = Some t /\
  Parse (S fuel') env' (ParseMany calls cache1) p = (ParseMany calls cache1, Ok t) /\
  (forall p' e,
     ParseMany calls cache1 !! p' = None -> readFile env' p' = Err e ->
     Parse (S fuel') env' (ParseMany calls cache1) p' = (ParseMany calls cache1, Err e)).
Proof.
  intros HP. apply Parse_ok_lookup in HP. split; [exact HP|].
  apply (ParseMany_preserves_entry calls) in HP. split; [exact HP|]. split.
  - cbn [Parse]. by rewrite HP.
  - intros p' e Hnone Hread. cbn [Parse]. by rewrite Hnone, Hread.
Qed.

Lemma Parse_returns_cached_witness :
  let first := Parse 1 (oneFile "t.yaml" (httpTemplate "git-config" "Git config" ["a"]))
                 ∅ "t.yaml" in
  let calls := [(1, noFiles, "other.yaml")] in
  exists t,
    first = (first.1, Ok t) /\
    first.1 !! "t.yaml" = Some t /\
    ParseMany calls first.1 !! "t.yaml" = Some t /\
    Parse 1 noFiles (ParseMany calls first.1) "t.yaml" = (ParseMany calls first.1, Ok t).
Proof.
  intros first calls. eexists.
  pose proof (Parse_returns_cached 1
                (oneFile "t.yaml" (httpTemplate "git-config" "Git config" ["a"]))
                ∅ "t.yaml" _ _ calls 0 noFiles eq_refl) as (H1 & H2 & H3 & _).
  exact (conj eq_refl (conj H1 (conj H2 H3))).
Defined.

(** *** Validation *)

Lemma Parse_cacheOK {U : GoStrings.Unicode} fuel env (cache : gmap string Template) p :
  cacheOK cache ->
  cacheOK (Parse fuel env cache p).1 /\
  (forall t, (Parse fuel env cache p).2 = Ok t -> hasNameAndAuthor t = true).
Proof.
  revert cache p. induction fuel as [|fuel IH]; intros cache p Hok; [done|].
  destruct (Parse (S fuel) env cache p) as [c' res] eqn:HP.
  apply Parse_S_inv in HP as [(v & Hv & -> & ->) | (Hq & paths & Hcases)].
  - split; [done|]. intros t [= <-]. by apply (Hok p).
  - assert (Hmid : cacheOK (compileWorkflow (Parse fuel env) cache paths).1).
    { apply (compileWorkflow_invariant cacheOK); [|done].
      intros c q Hc. by apply IH. }
    simpl in *.
    destruct Hcases as [(e & -> & ->) | (t0 & t' & data & _ & Hv & Hi & _ & -> & ->)].
    + by split.
    + assert (hasNameAndAuthor t' = true) by (unfold hasNameAndAuthor in *; by rewrite Hi).
      split; [by apply map_Forall_insert_2 | by intros t [= <-]].
Qed.

Lemma ParseMany_cacheOK {U : GoStrings.Unicode} calls (cache : gmap string Template) :
  cacheOK cache -> cacheOK (ParseMany calls cache).
Proof.
  revert cache. induction calls as [|[[fuel env] q] calls IH]; intros cache Hok; [done|].
  simpl. apply IH. by apply Parse_cacheOK.
Qed.

(** A first parse of a file whose template has a blank name or no author
    fails, and the cache is left alone. *)
Lemma Parse_rejects {U : GoStrings.Unicode} fuel env (cache : gmap string Template) p data t0 :
  cache !! p = None ->
  readFile env p = Ok data ->
  decode env (match preprocessor env with
              | Some process => process (expandPreprocessors env data)
              | None => expandPreprocessors env data
              end) = Ok t0 ->
  hasNameAndAuthor t0 = false ->
  exists e, Parse (S fuel) env cache p = (cache, Err e).
Proof.
  intros Hc Hr Hd Hv. cbn [Parse]. rewrite Hc, Hr, Hd.
  unfold hasNameAndAuthor in Hv.
  destruct (IsBlank (Name (Info_ t0))); [by eexists|].
  destruct (IsEmpty (Authors (Info_ t0))); [by eexists | done].
Qed.

(** C3 (as stated, refuted): [Parse] does not look at the id.  A file whose
    template has the id ["bad id!"], a name and an author parses successfully,
    although the id does not match the pattern. *)
Lemma Parse_accepts_any_id :
  exists cache' t,
    Parse 1 (oneFile "t.yaml" (httpTemplate "bad id!" "x" ["a"])) ∅ "t.yaml"
      = (cache', Ok t) /\
    ID t = "bad id!" /\
    templateIDRegexp_MatchString (ID t) = false /\
    spec_validTemplate t = false.
Proof. eexists _, _. split; [reflexivity|]. by repeat split. Qed.

(** C3 (amended): in a process that starts with an empty cache, every
    template that [Parse] returns successfully has a non-blank name and at
    least one author; and a file parsed for the first time whose template has
    a blank name or no author is rejected with an error. *)
Theorem Parse_validates_name_and_authors {U : GoStrings.Unicode} :
  (forall calls fuel env p cache' t,
     Parse fuel env (ParseMany calls ∅) p = (cache', Ok t) ->
     IsBlank (Name (Info_ t)) = false /\ Authors (Info_ t) <> []) /\
  (forall fuel env (cache : gmap string Template) p data t0,
     cache !! p = None ->
     readFile env p = Ok data ->
     decode env (match preprocessor env with
                 | Some process => process (expandPreprocessors env data)
                 | None => expandPreprocessors env data
                 end) = Ok t0 ->
     IsBlank (Name (Info_ t0)) = true \/ Authors (Info_ t0) = [] ->
     exists e, Parse (S fuel) env cache p = (cache, Err e)).
Proof.
  split.
  - intros calls fuel env p cache' t HP.
    assert (Hok : cacheOK (ParseMany calls ∅)).
    { apply ParseMany_cacheOK. apply map_Forall_empty. }
    destruct (Parse_cacheOK fuel env _ p Hok) as [_ Hres].
    rewrite HP in Hres. specialize (Hres t eq_refl).
    unfold hasNameAndAuthor in Hres. apply andb_true_iff in Hres as [Hn Ha].
    split; [by apply negb_true_iff|].
    intros Hnil. rewrite Hnil in Ha. discriminate.
  - intros fuel env cache p data t0 Hc Hr Hd Hbad.
    eapply Parse_rejects; eauto.
    unfold hasNameAndAuthor. destruct Hbad as [-> | ->]; [done|].
    apply andb_false_r.
Qed.

Lemma Parse_validates_name_and_authors_witness :
  let good := httpTemplate "git-config" "Git config" ["a"] in
  let bad := httpTemplate "git-config" "  " ["a"] in
  (exists cache' t,
     Parse 1 (oneFile "t.yaml" good) (ParseMany [] ∅) "t.yaml" = (cache', Ok t) /\
     IsBlank (Name (Info_ t)) = false /\ Authors (Info_ t) <> []) /\
  ((∅ : gmap string Template) !! "t.yaml" = None /\
   readFile (oneFile "t.yaml" bad) "t.yaml" = Ok "yaml" /\
   IsBlank (Name (Info_ bad)) = true /\
   exists e, Parse 1 (oneFile "t.yaml" bad) ∅ "t.yaml" = (∅, Err e)).
Proof.
  intros good bad. split.
  - eexists _, _. split; [reflexivity|].
    exact (proj1 Parse_validates_name_and_authors [] 1 (oneFile "t.yaml" good) "t.yaml"
             _ _ eq_refl).
  - split; [reflexivity|]. split; [reflexivity|]. split; [reflexivity|].
    exact (proj2 Parse_validates_name_and_authors 0 (oneFile "t.yaml" bad) ∅ "t.yaml"
             "yaml" bad eq_refl eq_refl eq_refl (or_introl eq_refl)).
Defined.

(** The [parsers] package checks the same two fields ... *)
Lemma validateMandatoryInfoFields_spec info :
  validateMandatoryInfoFields info = None <->
  exists i, info = Some i /\ IsBlank (Name i) = false /\ IsEmpty (Authors i) = false.
Proof.
  unfold validateMandatoryInfoFields. destruct info as [i|].
  - destruct (IsBlank (Name i)) eqn:Hn, (IsEmpty (Authors i)) eqn:Ha; split;
      try done; try (intros (i' & [= <-] & ? & ?); congruence).
    intros _. by exists i.
  - split; [done | by intros (? & ? & _)].
Qed.

(** X29: [validateTemplateMandatoryFields] of the later [parsers] package
    adds the id to the two fields: it returns no error exactly when the id
    matches the pattern from end to end, the name is not blank and there is
    an author. *)
Lemma validateTemplateMandatoryFields_spec t :
  validateTemplateMandatoryFields t = [] <-> spec_validTemplate t = true.
Proof.
  unfold validateTemplateMandatoryFields, spec_validTemplate.
  destruct (IsBlank (Name (Info_ t))), (IsEmpty (Authors (Info_ t)));
    destruct (String.eqb_spec (ID t) EmptyString) as [->|Hne];
    try destruct (templateIDRegexp_MatchString (ID t)); simpl; split; try done;
    rewrite ?andb_false_r; done.
Qed.

(** [ParseTemplate] of the [parsers] package answers from its cache in the
    same way. *)
Lemma ParseTemplate_returns_cached env
    (cache cache1 : gmap string (Template * option string)) p t env' :
  Parsers.ParseTemplate env cache p = (cache1, (Some t, None)) ->
  Parsers.ParseTemplate env' cache1 p = (cache1, (Some t, None)).
Proof.
  unfold Parsers.ParseTemplate, Parsers.Has, Parsers.Store.
  destruct (cache !! p) as [[v err]|] eqn:Hc.
  - intros [= <- <- <-]. by rewrite Hc.
  - destruct (readFile env p) as [data|e]; [|done].
    destruct (decode env data) as [t0|e]; [|done].
    intros [= <- <-]. by rewrite lookup_insert_eq.
Qed.

End TemplatesFacts.

(** ** Resuming a scan *)

Module CoreFacts.
Import Core.


Lemma scan_untripped opts rf target st :
  (forall n v, tripped opts n v = false) ->
  (index st + N.of_nat (length target) <= 2 ^ 32)%N ->
  tasks (fold_left (scanCallback opts rf) target st) =
    tasks st ++ map (taskOf rf) (indexed (index st) target) /\
  currentInFlight (fold_left (scanCallback opts rf) target st) =
    currentInFlight st ∪ list_to_set (map fst (indexed (index st) target)).
Proof.
  intros Hno. revert st.
  induction target as [|v rest IH]; intros st Hlen; simpl.
  - rewrite app_nil_r. split; [done | set_solver].
  - unfold scanCallback at 2 4. rewrite Hno.
    set (st1 := {| index := uint32_succ (index st) |}).
    assert (Hrest : rest = [] \/ index st1 = (index st + 1)%N).
    { destruct rest as [|w rest]; [by left|]. right.
      simpl. unfold uint32_succ. apply N.mod_small.
      simpl in Hlen. lia. }
    destruct Hrest as [-> | Hidx].
    + simpl. split; [done | set_solver].
    + destruct (IH st1) as [Ht Hf].
      { rewrite Hidx. simpl in Hlen. lia. }
      rewrite Ht, Hf, Hidx. simpl. split.
      * by rewrite <- app_assoc.
      * set_solver.
Qed.

Lemma cleanupAll_spec s ts :
  cleanupAll s ts = s ∖ list_to_set (map taskIndex ts).
Proof.
  unfold cleanupAll. revert s.
  induction ts as [|t ts IH]; intros s; simpl; [set_solver|].
  rewrite IH. set_solver.
Qed.

Lemma ran_spec rf l :
  map (fun t => (taskIndex t, taskValue t))
    (List.filter (fun t => negb (taskSkip t)) (map (taskOf rf) l)) =
  List.filter (fun x => negb (resumeSkip rf x.1)) l.
Proof.
  induction l as [|[i v] l IH]; simpl; [done|].
  destruct (resumeSkip rf i); simpl; [done | by rewrite IH].
Qed.




Lemma letThrough_nil_lastTripped opts n target :
  target <> [] -> letThrough opts n target = [] -> lastTripped opts n target = true.
Proof.
  revert n. induction target as [|v rest IH]; intros n Hne; [done|].
  simpl. destruct (tripped opts n v) eqn:Ht; [|done].
  destruct rest as [|w rest]; [done|]. intros Hl. apply IH; [done | exact Hl].
Qed.

Lemma indexed_fst_lt start l i :
  i ∈ map fst (indexed start l) <-> (start <= i < start + N.of_nat (length l))%N.
Proof.
  revert start. induction l as [|v l IH]; intros start; simpl.
  - rewrite elem_of_nil. lia.
  - rewrite elem_of_cons, IH. lia.
Qed.

(** The scan with a host-errors cache: the values let through are given the
    indices from [index st] on, a value the cache trips on marks the index of
    the next value let through, and that mark stays when no value follows. *)
Lemma scan_host_errors opts rf target st :
  (index st + N.of_nat (length (letThrough opts (scanned st) target)) < 2 ^ 32)%N ->
  let lt := letThrough opts (scanned st) target in
  let st' := fold_left (scanCallback opts rf) target st in
  tasks st' = tasks st ++ map (taskOf rf) (indexed (index st) lt) /\
  index st' = (index st + N.of_nat (length lt))%N /\
  currentInFlight st' =
    currentInFlight st ∪ list_to_set (map fst (indexed (index st) lt)) ∪
    (if lastTripped opts (scanned st) target then {[ index st' ]} else ∅).
Proof.
  revert st. induction target as [|v rest IH]; intros st Hlen; cbn zeta.
  - simpl. rewrite app_nil_r. split; [done|]. split; [lia | set_solver].
  - cbn [fold_left letThrough lastTripped] in *.
    destruct (tripped opts (scanned st) v) eqn:Ht.
    + assert (Hst1 : scanCallback opts rf st v =
                {| index := index st; currentInFlight := {[ index st ]} ∪ currentInFlight st;
                   tasks := tasks st; scanned := S (scanned st) |})
        by (unfold scanCallback; by rewrite Ht).
      rewrite Hst1. set (st1 := {| index := index st |}) in *.
      destruct (IH st1) as (Htk & Hix & Hfl); [exact Hlen|].
      cbn zeta in Htk, Hix, Hfl.
      change (scanned st1) with (S (scanned st)) in *.
      change (index st1) with (index st) in *.
      change (tasks st1) with (tasks st) in *.
      split; [exact Htk|]. split; [exact Hix|].
      rewrite Hfl. change (currentInFlight st1) with ({[index st]} ∪ currentInFlight st).
      clear Htk Hfl IH Hlen Hst1.
      destruct rest as [|w rest'] eqn:Hrest.
      * simpl. clear. set_solver.
      * rewrite <- Hrest in *.
        destruct (letThrough opts (S (scanned st)) rest) as [|x lt'] eqn:Hlt.
        -- rewrite (letThrough_nil_lastTripped opts _ rest) by (by subst).
           rewrite Hix. simpl. rewrite N.add_0_r. clear. set_solver.
        -- simpl.
           generalize (list_to_set (map fst (indexed (index st + 1) lt')) : gset N).
           generalize (index (fold_left (scanCallback opts rf) rest st1)).
           generalize (lastTripped opts (S (scanned st)) rest).
           clear. intros b n X. destruct b; set_solver.
    + assert (Hst1 : scanCallback opts rf st v =
                {| index := uint32_succ (index st);
                   currentInFlight := {[ index st ]} ∪ currentInFlight st;
                   tasks := tasks st ++ [ {| taskIndex := index st;
                                             taskSkip := resumeSkip rf (index st);
                                             taskValue := v |} ];
                   scanned := S (scanned st) |})
        by (unfold scanCallback; by rewrite Ht).
      rewrite Hst1. set (st1 := {| index := uint32_succ (index st) |}) in *.
      assert (Hidx : index st1 = (index st + 1)%N).
      { simpl. unfold uint32_succ. apply N.mod_small. simpl in Hlen. lia. }
      destruct (IH st1) as (Htk & Hix & Hfl).
      { rewrite Hidx. change (scanned st1) with (S (scanned st)). simpl in Hlen. lia. }
      cbn zeta in Htk, Hix, Hfl.
      change (scanned st1) with (S (scanned st)) in *.
      rewrite Hidx in *.
      split; [|split].
      * rewrite Htk. simpl. by rewrite <- app_assoc.
      * rewrite Hix. simpl. lia.
      * rewrite Hfl. simpl.
        change (currentInFlight st1) with ({[index st]} ∪ currentInFlight st).
        generalize (list_to_set (map fst (indexed (index st + 1)
                       (letThrough opts (S (scanned st)) rest))) : gset N).
        generalize (index (fold_left (scanCallback opts rf) rest st1)).
        clear Htk Hfl IH Hlen Hix Hst1.
        destruct rest as [|w rest'].
        -- simpl. clear. intros n X. set_solver.
        -- generalize (lastTripped opts (S (scanned st)) (w :: rest')).
           clear. intros b n X. destruct b; set_solver.
Qed.



(** The resume scenario: ten targets, five done, two in flight at the
    interruption.  The five done are skipped; the two in flight and the three
    untouched are executed. *)
Example resume_scenario :
  executedTargets
    (executeModelWithInput (fun _ => false) noHostErrors resumedCfg "s1" tenTargets false)
  = [(5%N, "h5"); (6%N, "h6"); (7%N, "h7"); (8%N, "h8"); (9%N, "h9")].
Proof. reflexivity. Qed.

(** When the host-errors cache trips, the callback returns before the index
    is incremented: the target after a tripped one is given the same index. *)
Example tripped_target_keeps_index :
  map taskIndex
    (tasks (fold_left
              (scanCallback {| HostErrorsCache := Some (fun n _ => Nat.eqb n 1) |}
                 newResumeInfo)
              ["h0"; "h1"; "h2"]
              {| index := 0; currentInFlight := ∅; tasks := []; scanned := 0 |}))
  = [0%N; 1%N].
Proof. reflexivity. Qed.

End CoreFacts.

(** ** More on the matchers: what each match function computes *)

Module MatchersExtra.
Import GoStrings Matchers.

Lemma last_cons_cons {A} (x y : A) l : last (x :: y :: l) = last (y :: l).
Proof. done. Qed.

Lemma lastHolds_cons {A} (p : A -> bool) x y l :
  lastHolds p (x :: y :: l) = lastHolds p (y :: l).
Proof. done. Qed.

Section Words.
Variable ev : string -> gmap string Value -> Result string.

Lemma MatchWords_loop_OR_result m corpus dyn i ws acc :
  condition m = ORCondition ->
  MatchWords_loop ev m corpus dyn i ws acc =
  match List.find (Contains corpus) (evaluatedWords ev dyn ws) with
  | Some w => (true, [w])
  | None => (false, [])
  end.
Proof.
  intros Hc. revert i acc.
  induction ws as [|w rest IH]; intros i acc; simpl; [done|].
  destruct (ev w dyn) as [w'|e]; simpl; [|apply IH].
  rewrite Hc; simpl.
  destruct (Contains corpus w'); simpl; [done | apply IH].
Qed.

Lemma MatchWords_loop_AND_result m corpus dyn i ws acc :
  condition m = ANDCondition ->
  Z.of_nat (length (Words m)) = (i + Z.of_nat (length ws))%Z ->
  MatchWords_loop ev m corpus dyn i ws acc =
  matchedOf (forallb (Contains corpus) (evaluatedWords ev dyn ws) &&
             lastHolds (fun w => isOk (ev w dyn)) ws)
            (acc ++ evaluatedWords ev dyn ws).
Proof.
  intros Hc. revert i acc.
  induction ws as [|w rest IH]; intros i acc Hlen; [done|].
  cbn [MatchWords_loop evaluatedWords]. cbn [length] in Hlen.
  destruct (ev w dyn) as [w'|e] eqn:He.
  - rewrite Hc. cbn [ConditionType_eqb forallb].
    destruct (Contains corpus w'); cbn [negb andb]; [|done].
    destruct (Z.eqb_spec (Z.of_nat (length (Words m)) - 1) i) as [Heq|Hne].
    + assert (rest = []) as -> by (destruct rest; [done | cbn [length] in Hlen; lia]).
      unfold lastHolds. simpl. by rewrite He.
    + rewrite IH by lia. destruct rest as [|w2 rest]; [cbn [length] in Hlen; lia|].
      rewrite lastHolds_cons. by rewrite <- app_assoc.
  - rewrite IH by lia. destruct rest as [|w2 rest].
    + unfold lastHolds. simpl. by rewrite He.
    + by rewrite lastHolds_cons.
Qed.

End Words.

Lemma MatchRegex_loop_OR_result m corpus i rs acc :
  condition m = ORCondition ->
  MatchRegex_loop m corpus i rs acc =
  match List.find (fun r => MatchString r corpus) rs with
  | Some r => (true, FindAllString r corpus)
  | None => (false, [])
  end.
Proof.
  intros Hc. revert i acc.
  induction rs as [|r rest IH]; intros i acc; simpl; [done|].
  rewrite Hc; simpl. destruct (MatchString r corpus); simpl; [done | apply IH].
Qed.

Lemma MatchRegex_loop_AND_result m corpus i rs acc :
  condition m = ANDCondition ->
  Z.of_nat (length (regexCompiled m)) = (i + Z.of_nat (length rs))%Z ->
  MatchRegex_loop m corpus i rs acc =
  matchedOf (negb (Nat.eqb (length rs) 0) && forallb (fun r => MatchString r corpus) rs)
            (acc ++ flat_map (fun r => FindAllString r corpus) rs).
Proof.
  intros Hc. revert i acc.
  induction rs as [|r rest IH]; intros i acc Hlen; [done|].
  cbn [MatchRegex_loop flat_map forallb length Nat.eqb negb andb].
  cbn [length] in Hlen. rewrite Hc. cbn [ConditionType_eqb].
  destruct (MatchString r corpus); cbn [negb andb]; [|done].
  destruct (Z.eqb_spec (Z.of_nat (length (regexCompiled m)) - 1) i) as [Heq|Hne].
  - assert (rest = []) as -> by (destruct rest; [done | cbn [length] in Hlen; lia]).
    simpl. by rewrite app_nil_r.
  - rewrite IH by lia. destruct rest as [|r2 rest]; [cbn [length] in Hlen; lia|].
    cbn [length Nat.eqb negb andb]. by rewrite <- app_assoc.
Qed.

Lemma MatchBinary_loop_OR_result m corpus i bs acc :
  condition m = ORCondition ->
  MatchBinary_loop m corpus i bs acc =
  match List.find (Contains corpus) bs with
  | Some b => (true, [b])
  | None => (false, [])
  end.
Proof.
  intros Hc. revert i acc.
  induction bs as [|b rest IH]; intros i acc; simpl; [done|].
  rewrite Hc; simpl. destruct (Contains corpus b); simpl; [done | apply IH].
Qed.

Lemma MatchBinary_loop_AND_result m corpus i bs acc :
  condition m = ANDCondition ->
  (0 <= i)%Z ->
  let n := Z.of_nat (length (Binary m)) in
  let k := Z.to_nat (n - 1 - i) in
  MatchBinary_loop m corpus i bs acc =
  matchedOf ((i <=? n - 1)%Z && (k <? length bs)%nat &&
             forallb (Contains corpus) (take (S k) bs))
            (acc ++ take (S k) bs).
Proof.
  intros Hc. revert i acc.
  induction bs as [|b rest IH]; intros i acc Hi n k.
  - cbn [MatchBinary_loop length]. replace (k <? 0)%nat with false by done.
    by rewrite andb_false_r.
  - cbn [MatchBinary_loop]. rewrite Hc. cbn [ConditionType_eqb].
    cbn [take forallb].
    destruct (Contains corpus b); cbn [negb andb].
    + fold n. destruct (Z.eqb_spec (n - 1) i) as [Heq|Hne].
      * assert (k = 0%nat) as -> by (unfold k; lia).
        replace (i <=? n - 1)%Z with true by (symmetry; apply Z.leb_le; lia).
        rewrite take_0. done.
      * rewrite IH by lia. fold n.
        destruct (Z.leb_spec i (n - 1)) as [Hle|Hgt].
        -- assert (k = S (Z.to_nat (n - 1 - (i + 1)))) as Hk by (unfold k; lia).
           rewrite Hk.
           replace (i + 1 <=? n - 1)%Z with true by (symmetry; apply Z.leb_le; lia).
           cbn [take length]. rewrite <- app_assoc. done.
        -- replace (i + 1 <=? n - 1)%Z with false by (symmetry; apply Z.leb_gt; lia).
           done.
    + by rewrite andb_false_r.
Qed.

Lemma MatchDSL_loop_OR_result m data i es :
  condition m = ORCondition ->
  MatchDSL_loop m data i es = existsb (dslTrue data) es.
Proof.
  intros Hc. revert i.
  induction es as [|e rest IH]; intros i; simpl; [done|].
  unfold dslTrue at 1.
  destruct (Evaluate e data) as [[| [] | | |]|err]; simpl; rewrite ?Hc; simpl; auto.
Qed.

Lemma MatchDSL_loop_AND_result m data i es :
  condition m = ANDCondition ->
  Z.of_nat (length (dslCompiled m)) = (i + Z.of_nat (length es))%Z ->
  MatchDSL_loop m data i es =
  forallb (fun e => dslFails data e || dslTrue data e) es && lastHolds (dslTrue data) es.
Proof.
  intros Hc. revert i.
  induction es as [|e rest IH]; intros i Hlen; [done|].
  cbn [MatchDSL_loop forallb]. cbn [length] in Hlen.
  unfold dslFails at 1, dslTrue at 1.
  destruct (Evaluate e data) as [v|err] eqn:He; cbn [isOk negb orb].
  - destruct v as [|[]| | |]; cbn [negb orb andb]; rewrite ?Hc; cbn [ConditionType_eqb];
      try done.
    destruct (Z.eqb_spec (Z.of_nat (length (dslCompiled m)) - 1) i) as [Heq|Hne].
    + assert (rest = []) as -> by (destruct rest; [done | cbn [length] in Hlen; lia]).
      unfold lastHolds, dslTrue. simpl. by rewrite He.
    + rewrite IH by lia. destruct rest as [|e2 rest]; [cbn [length] in Hlen; lia|].
      by rewrite lastHolds_cons.
  - rewrite IH by lia. destruct rest as [|e2 rest].
    + unfold lastHolds, dslTrue. simpl. by rewrite He.
    + by rewrite lastHolds_cons.
Qed.

(** X1: [MatchStatusCode] and [MatchSize] look the value up in the list: they
    return true exactly when the status code (the length) is one of the listed
    values; the condition of the matcher plays no part. *)
Theorem MatchStatusCode_MatchSize_membership (m : Matcher) (n : Z) :
  (MatchStatusCode m n = true <-> In n (Status m)) /\
  (MatchSize m n = true <-> In n (Size m)).
Proof.
  unfold MatchStatusCode, MatchSize.
  rewrite MatchersFacts.MatchStatusCode_loop_spec, MatchersFacts.MatchSize_loop_spec.
  rewrite !existsb_exists. split; split.
  - intros (x & Hin & Heq). apply Z.eqb_eq in Heq. by subst.
  - intros Hin. exists n. split; [done | apply Z.eqb_refl].
  - intros (x & Hin & Heq). apply Z.eqb_eq in Heq. by subst.
  - intros Hin. exists n. split; [done | apply Z.eqb_refl].
Qed.

(** X2: the whole result of [MatchWords], evaluation failures included.  With
    the corpus lowercased when the matcher is case-insensitive, and the words
    that fail to evaluate left out: under OR the result is the first evaluated
    word contained in the corpus, if there is one; under AND the matcher
    succeeds exactly when every evaluated word is contained and the last word
    of the list evaluates, and it then returns all the evaluated words. *)
Theorem MatchWords_result {U : Unicode}
    (ev : string -> gmap string Value -> Result string)
    (m : Matcher) (corpus : string) (dyn : gmap string Value) :
  MatchWords ev m corpus dyn =
  let corpus' := if CaseInsensitive m then ToLower corpus else corpus in
  let ws := evaluatedWords ev dyn (Words m) in
  match condition m with
  | ANDCondition =>
      matchedOf (forallb (Contains corpus') ws &&
                 lastHolds (fun w => isOk (ev w dyn)) (Words m)) ws
  | ORCondition =>
      match List.find (Contains corpus') ws with
      | Some w => (true, [w])
      | None => (false, [])
      end
  end.
Proof.
  unfold MatchWords. cbv zeta. destruct (condition m) eqn:Hc.
  - by rewrite MatchWords_loop_AND_result by (done || lia).
  - by apply MatchWords_loop_OR_result.
Qed.

(** X3: every word [MatchWords] reports as matched is a substring of the
    corpus it was compared with. *)
Theorem MatchWords_matched_are_contained {U : Unicode}
    (ev : string -> gmap string Value -> Result string)
    (m : Matcher) (corpus : string) (dyn : gmap string Value)
    (matched : list string) (w : string) :
  MatchWords ev m corpus dyn = (true, matched) ->
  In w matched ->
  Contains (if CaseInsensitive m then ToLower corpus else corpus) w = true.
Proof.
  unfold MatchWords. cbv zeta.
  set (corpus' := if CaseInsensitive m then ToLower corpus else corpus).
  destruct (condition m) eqn:Hc.
  - rewrite MatchWords_loop_AND_result by (done || lia). unfold matchedOf.
    destruct (forallb (Contains corpus') (evaluatedWords ev dyn (Words m))) eqn:Hall;
      [|done].
    destruct (lastHolds _ _); [|done]. simpl. intros [= <-] Hin.
    rewrite forallb_forall in Hall. by apply Hall.
  - rewrite MatchWords_loop_OR_result by done.
    destruct (List.find _ _) as [w'|] eqn:Hf; [|done].
    intros [= <-] [<-|[]]. by apply find_some in Hf as [_ ?].
Qed.

(** The closed example is on ASCII text. *)
#[local] Existing Instance asciiText.

Lemma MatchWords_matched_are_contained_witness :
  let m := wordMatcher true ANDCondition ["admin"; "panel"] in
  MatchWords plainEvaluate m "Admin Panel" ∅ = (true, ["admin"; "panel"]) /\
  In "panel" ["admin"; "panel"] /\
  Contains (if CaseInsensitive m then ToLower "Admin Panel" else "Admin Panel") "panel"
    = true.
Proof.
  intros m.
  assert (H1 : MatchWords plainEvaluate m "Admin Panel" ∅ = (true, ["admin"; "panel"]))
    by reflexivity.
  assert (H2 : In "panel" ["admin"; "panel"]) by (right; left; reflexivity).
  exact (conj H1 (conj H2
           (MatchWords_matched_are_contained plainEvaluate m "Admin Panel" ∅
              ["admin"; "panel"] "panel" H1 H2))).
Defined.

(** X4: the whole result of [MatchRegex]: under OR, all the matches of the
    first expression that matches the corpus; under AND, success exactly when
    the list is non-empty and every expression matches, with the matches of
    all the expressions in order. *)
Theorem MatchRegex_result (m : Matcher) (corpus : string) :
  MatchRegex m corpus =
  match condition m with
  | ANDCondition =>
      matchedOf (negb (Nat.eqb (length (regexCompiled m)) 0) &&
                 forallb (fun r => MatchString r corpus) (regexCompiled m))
                (flat_map (fun r => FindAllString r corpus) (regexCompiled m))
  | ORCondition =>
      match List.find (fun r => MatchString r corpus) (regexCompiled m) with
      | Some r => (true, FindAllString r corpus)
      | None => (false, [])
      end
  end.
Proof.
  unfold MatchRegex. destruct (condition m) eqn:Hc.
  - by rewrite MatchRegex_loop_AND_result by (done || lia).
  - by apply MatchRegex_loop_OR_result.
Qed.

(** X5: the whole result of [MatchBinary].  The loop runs over the decoded
    values but tests its end against the length of the [Binary] list: under
    AND the matcher succeeds exactly when [Binary] is non-empty, is not longer
    than the decoded list, and the first [len(Binary)] decoded values are all
    contained in the corpus.  Under OR the result is the first decoded value
    that is contained. *)
Theorem MatchBinary_result (m : Matcher) (corpus : string) :
  MatchBinary m corpus =
  let n := length (Binary m) in
  match condition m with
  | ANDCondition =>
      matchedOf ((1 <=? n)%nat && (n <=? length (binaryDecoded m))%nat &&
                 forallb (Contains corpus) (take n (binaryDecoded m)))
                (take n (binaryDecoded m))
  | ORCondition =>
      match List.find (Contains corpus) (binaryDecoded m) with
      | Some b => (true, [b])
      | None => (false, [])
      end
  end.
Proof.
  unfold MatchBinary. cbv zeta. destruct (condition m) eqn:Hc.
  - rewrite MatchBinary_loop_AND_result by (done || lia). cbv zeta.
    rewrite Z.sub_0_r.
    destruct (Binary m) as [|b bs] eqn:Hb; [done|].
    cbn [length]. replace (Z.to_nat (Z.of_nat (S (length bs)) - 1)) with (length bs) by lia.
    replace (0 <=? Z.of_nat (S (length bs)) - 1)%Z with true
      by (symmetry; apply Z.leb_le; lia).
    done.
  - by apply MatchBinary_loop_OR_result.
Qed.

(** X6: the whole result of [MatchDSL].  Under OR the matcher is true exactly
    when some expression evaluates to the boolean true.  Under AND it is true
    exactly when every expression either fails to evaluate or evaluates to
    true, and the last expression evaluates to true: a failed evaluation is
    passed over unless it is the last one. *)
Theorem MatchDSL_result (m : Matcher) (data : gmap string Value) :
  MatchDSL m data =
  match condition m with
  | ANDCondition =>
      forallb (fun e => dslFails data e || dslTrue data e) (dslCompiled m) &&
      lastHolds (dslTrue data) (dslCompiled m)
  | ORCondition => existsb (dslTrue data) (dslCompiled m)
  end.
Proof.
  unfold MatchDSL. destruct (condition m) eqn:Hc.
  - by rewrite MatchDSL_loop_AND_result by (done || lia).
  - by apply MatchDSL_loop_OR_result.
Qed.

End MatchersExtra.

(** ** The map helpers of the generators package *)

Module GeneratorsFacts.
Import GoStrings GoStringsMore Generators.

Lemma fold_insert_union {A} (b m : gmap string A) :
  map_fold (fun k v acc => <[k := v]> acc) b m = m ∪ b.
Proof.
  apply (map_fold_weak_ind (fun r m => r = m ∪ b)).
  - by rewrite (left_id_L ∅ (∪)).
  - intros i x m' r Hi ->. by rewrite insert_union_l.
Qed.

Lemma MergeMaps_union m1 m2 : MergeMaps m1 m2 = m2 ∪ m1.
Proof.
  unfold MergeMaps. rewrite !fold_insert_union. by rewrite (right_id_L ∅ (∪)).
Qed.





Lemma substring_app_r a b :
  substring (String.length a) (String.length b) (a +:+ b) = b.
Proof.
  induction a as [|c a IH]; [|exact IH].
  change (substring 0 (String.length b) b = b).
  induction b as [|d b IHb]; simpl; [done | by rewrite IHb].
Qed.

Lemma substring_app_l a b : substring 0 (String.length a) (a +:+ b) = a.
Proof. induction a as [|c a IH]; simpl; [by destruct b | by rewrite IH]. Qed.

Lemma length_app_string a b :
  String.length (a +:+ b) = String.length a + String.length b.
Proof. induction a as [|c a IH]; simpl; [done | by rewrite IH]. Qed.

Lemma TrimSuffix_app a b : TrimSuffix (a +:+ b) b = a.
Proof.
  unfold TrimSuffix, HasSuffix. rewrite length_app_string.
  replace (String.length a + String.length b - String.length b) with (String.length a) by lia.
  rewrite substring_app_r, String.eqb_refl.
  replace (String.length b <=? String.length a + String.length b)%nat with true
    by (symmetry; apply Nat.leb_le; lia).
  simpl. apply substring_app_l.
Qed.

Lemma HasPrefix_app a b : HasPrefix (a +:+ b) a = true.
Proof. apply GoStringsFacts.HasPrefix_spec. by exists b. Qed.

Lemma TrimPrefix_app a b : TrimPrefix (a +:+ b) a = b.
Proof.
  unfold TrimPrefix. rewrite HasPrefix_app, length_app_string.
  replace (String.length a + String.length b - String.length a) with (String.length b) by lia.
  apply substring_app_r.
Qed.

(** The union used for [MergeMaps] in the sequential HTTP loop is what the
    two loops of the function compute. *)
Lemma MergeMaps_agrees m1 m2 : MergeMaps m1 m2 = HTTP.MergeMaps m1 m2.
Proof. apply MergeMaps_union. Qed.

(** X7: in the map [MergeMaps] returns, a key that [m2] holds has the value of
    [m2]; any other key is as in [m1]. *)
Theorem MergeMaps_lookup (m1 m2 : gmap string Value) (k : string) :
  MergeMaps m1 m2 !! k =
  match m2 !! k with
  | Some v => Some v
  | None => m1 !! k
  end.
Proof.
  rewrite MergeMaps_union, lookup_union.
  destruct (m2 !! k), (m1 !! k); done.
Qed.

(** X8: the copying helpers keep the keys: [CopyMap] returns a map equal to
    the original, [ExpandMapValues] holds under every key the slice of its one
    value, [CopyMapWithDefaultValue] holds the default under every key of the
    original and nothing else. *)
Theorem copies_keep_keys :
  (forall m : gmap string Value, CopyMap m = m) /\
  (forall (m : gmap string string) k,
     ExpandMapValues m !! k = (fun v => [v]) <$> m !! k) /\
  (forall (m : gmap string (list string)) d k,
     CopyMapWithDefaultValue m d !! k = (fun _ => d) <$> m !! k).
Proof.
  split; [|split].
  - intros m. unfold CopyMap. rewrite fold_insert_union.
    by rewrite (right_id_L ∅ (∪)).
  - intros m k. unfold ExpandMapValues. rewrite <- lookup_fmap. f_equal.
    apply (map_fold_weak_ind (fun r m => r = (fun v => [v]) <$> m)).
    + by rewrite fmap_empty.
    + intros i x m' r Hi ->. by rewrite fmap_insert.
  - intros m d k. unfold CopyMapWithDefaultValue. rewrite <- lookup_fmap. f_equal.
    apply (map_fold_weak_ind (fun r m => r = (fun _ => d) <$> m)).
    + by rewrite fmap_empty.
    + intros i x m' r Hi ->. by rewrite fmap_insert.
Qed.

(** X9: [TrimDelimiters] undoes the wrapping of an expression in [{{] and
    [}}], whatever the expression. *)
Theorem TrimDelimiters_wrapped (expr : string) :
  TrimDelimiters ("{{" +:+ expr +:+ "}}") = expr.
Proof.
  unfold TrimDelimiters. rewrite TrimPrefix_app. apply TrimSuffix_app.
Qed.


End GeneratorsFacts.

(** ** The request generator *)

Module RequestGeneratorFacts.
Import RequestGenerator.

Lemma drop_lookup_cons {A} (l : list A) i x :
  l !! i = Some x -> drop i l = x :: drop (S i) l.
Proof.
  revert i. induction l as [|y l IH]; intros [|i] H; simpl in *; try done.
  - by injection H as ->.
  - by apply IH.
Qed.

(** Without a payload iterator and past the paths, the raw requests are
    generated one by one up to the first empty one. *)
Lemma drain_raws fuel r :
  payloadIterator r = None ->
  length (Path (request r)) <= currentIndex r ->
  length (Raw (request r)) - currentIndex r < fuel ->
  drain fuel r =
  (map plain (takeWhile nonEmpty (drop (currentIndex r) (Raw (request r)))),
   withState r (currentIndex r +
                length (takeWhile nonEmpty (drop (currentIndex r) (Raw (request r)))))
             None).
Proof.
  revert r. induction fuel as [|fuel IH]; intros r Hit Hp Hf; [lia|].
  cbn [drain]. unfold nextValue. rewrite Hit.
  replace (currentIndex r <? length (Path (request r)))%nat with false
    by (symmetry; apply Nat.ltb_ge; lia).
  rewrite andb_false_r. cbn [andb].
  destruct (Raw (request r) !! currentIndex r) as [item|] eqn:Hi.
  - pose proof (lookup_lt_Some _ _ _ Hi) as Hlt.
    replace (0 <? length (Raw (request r)))%nat with true
      by (symmetry; apply Nat.ltb_lt; lia).
    replace (currentIndex r <? length (Raw (request r)))%nat with true
      by (symmetry; apply Nat.ltb_lt; lia).
    cbn [andb default id]. rewrite (drop_lookup_cons _ _ _ Hi). cbn [takeWhile].
    destruct (nonEmpty item) eqn:Hne.
    + cbv iota. rewrite IH; cbn [currentIndex request payloadIterator withState]; [|done|lia|lia].
      cbn [map length]. unfold withState. cbn. do 3 f_equal. lia.
    + cbn. destruct r as [i rq it]. cbn in *. subst it. unfold withState. cbn.
      by rewrite Nat.add_0_r.
  - apply lookup_ge_None in Hi.
    replace (currentIndex r <? length (Raw (request r)))%nat with false
      by (symmetry; apply Nat.ltb_ge; lia).
    rewrite andb_false_r. rewrite drop_ge by lia. cbn.
    destruct r as [i rq it]. cbn in *. subst it. unfold withState. cbn.
    by rewrite Nat.add_0_r.
Qed.

(** With no raw request and no payload iterator, the paths are generated one
    by one up to the first empty one. *)
Lemma drain_paths_only fuel r :
  payloadIterator r = None ->
  Raw (request r) = [] ->
  length (Path (request r)) - currentIndex r < fuel ->
  drain fuel r =
  (map plain (takeWhile nonEmpty (drop (currentIndex r) (Path (request r)))),
   withState r (currentIndex r +
                length (takeWhile nonEmpty (drop (currentIndex r) (Path (request r)))))
             None).
Proof.
  revert r. induction fuel as [|fuel IH]; intros r Hit Hraw Hf; [lia|].
  cbn [drain]. unfold nextValue. rewrite Hit, Hraw.
  replace (0 <? length (@nil string))%nat with false by done. cbn [andb].
  destruct (Path (request r) !! currentIndex r) as [item|] eqn:Hi.
  - pose proof (lookup_lt_Some _ _ _ Hi) as Hlt.
    replace (0 <? length (Path (request r)))%nat with true
      by (symmetry; apply Nat.ltb_lt; lia).
    replace (currentIndex r <? length (Path (request r)))%nat with true
      by (symmetry; apply Nat.ltb_lt; lia).
    cbn [andb default id]. rewrite (drop_lookup_cons _ _ _ Hi). cbn [takeWhile].
    destruct (nonEmpty item) eqn:Hne.
    + cbv iota. rewrite IH; cbn [currentIndex request payloadIterator withState];
        [|done|done|lia].
      cbn [map length]. unfold withState. cbn. do 3 f_equal. lia.
    + cbn. destruct r as [i rq it]. cbn in *. subst it. unfold withState. cbn.
      by rewrite Nat.add_0_r.
  - apply lookup_ge_None in Hi.
    replace (currentIndex r <? length (Path (request r)))%nat with false
      by (symmetry; apply Nat.ltb_ge; lia).
    rewrite andb_false_r. rewrite drop_ge by lia. cbn.
    destruct r as [i rq it]. cbn in *. subst it. unfold withState. cbn.
    by rewrite Nat.add_0_r.
Qed.

(** With paths that are all non-empty, the paths from the index on are
    generated, and then the raw requests from the index the paths left. *)
Lemma drain_paths_then_raws fuel r :
  payloadIterator r = None ->
  forallb nonEmpty (Path (request r)) = true ->
  currentIndex r <= length (Path (request r)) ->
  length (Path (request r)) - currentIndex r +
    (length (Raw (request r)) - length (Path (request r))) < fuel ->
  (drain fuel r).1 =
  map plain (drop (currentIndex r) (Path (request r)) ++
             takeWhile nonEmpty (drop (length (Path (request r))) (Raw (request r)))).
Proof.
  revert r. induction fuel as [|fuel IH]; intros r Hit Hall Hle Hf; [lia|].
  destruct (decide (currentIndex r = length (Path (request r)))) as [Heq|Hne].
  - rewrite drain_raws by (done || lia). rewrite Heq, drop_all. done.
  - cbn [drain]. unfold nextValue.
    destruct (Path (request r) !! currentIndex r) as [item|] eqn:Hi;
      [|apply lookup_ge_None in Hi; lia].
    replace (0 <? length (Path (request r)))%nat with true
      by (symmetry; apply Nat.ltb_lt; lia).
    replace (currentIndex r <? length (Path (request r)))%nat with true
      by (symmetry; apply Nat.ltb_lt; lia).
    cbn [andb default id].
    assert (nonEmpty item = true) as ->.
    { rewrite forallb_forall in Hall. apply Hall.
      apply list_elem_of_In. by eapply list_elem_of_lookup_2. }
    cbv iota. specialize (IH (withState r (S (currentIndex r)) (payloadIterator r))).
    cbn [currentIndex request payloadIterator withState] in IH.
    destruct (drain fuel _) as [rest final]. cbn [fst] in *.
    rewrite IH by (done || lia).
    by rewrite (drop_lookup_cons _ _ _ Hi).
Qed.

(** With a payload iterator and raw requests that are all non-empty, every
    raw request from the index on is generated with each binding in turn. *)
Lemma drain_raws_with_payloads fuel r ps j :
  Path (request r) = [] ->
  payloadIterator r = Some {| bindings := ps; position := j |} ->
  forallb nonEmpty (Raw (request r)) = true ->
  ps <> [] ->
  j <= length ps ->
  currentIndex r < length (Raw (request r)) ->
  (length ps - j) + (length (Raw (request r)) - currentIndex r - 1) * length ps < fuel ->
  (drain fuel r).1 =
  map (bound (default EmptyString (Raw (request r) !! currentIndex r))) (drop j ps) ++
  flat_map (fun item => map (bound item) ps)
    (drop (S (currentIndex r)) (Raw (request r))).
Proof.
  revert r j. induction fuel as [|fuel IH]; intros r j Hp Hit Hall Hps Hj Hi Hf;
    [by apply Nat.nlt_0_r in Hf|].
  cbn [drain]. unfold nextValue. rewrite Hp, Hit.
  replace (0 <? length (@nil string))%nat with false by done. cbn [andb].
  replace (0 <? length (Raw (request r)))%nat with true
    by (symmetry; apply Nat.ltb_lt; lia).
  replace (currentIndex r <? length (Raw (request r)))%nat with true
    by (symmetry; apply Nat.ltb_lt; lia).
  cbn [andb]. unfold Iterator_Value at 1. cbn [bindings position].
  destruct (ps !! j) as [p|] eqn:Hpj.
  - cbv iota.
    specialize (IH (withState r (currentIndex r)
                      (Some {| bindings := ps; position := S j |})) (S j)).
    cbn [currentIndex request payloadIterator withState] in IH.
    destruct (drain fuel _) as [rest final]. cbn [fst] in *.
    pose proof (lookup_lt_Some _ _ _ Hpj).
    rewrite IH; [|done|done|done|done|lia|done|].
    + by rewrite (drop_lookup_cons _ _ _ Hpj).
    + set (X := (length (Raw (request r)) - currentIndex r - 1) * length ps) in *. lia.
  - apply lookup_ge_None in Hpj. assert (j = length ps) as -> by lia.
    rewrite drop_all. cbn [map app]. cbv iota.
    destruct (Nat.eqb_spec (length (Raw (request r))) (S (currentIndex r))) as [Heq|Hne].
    + cbn. by rewrite drop_ge by lia.
    + destruct (Raw (request r) !! S (currentIndex r)) as [item|] eqn:Hnext;
        [|apply lookup_ge_None in Hnext; lia].
      cbn [default id].
      assert (nonEmpty item = true) as ->.
      { rewrite forallb_forall in Hall. apply Hall.
        apply list_elem_of_In. by eapply list_elem_of_lookup_2. }
      unfold Iterator_Value, Iterator_Reset. cbn [bindings position].
      destruct ps as [|p0 ps']; [done|]. cbn [lookup list_lookup].
      cbv iota.
      specialize (IH (withState r (S (currentIndex r))
                        (Some {| bindings := p0 :: ps'; position := 1 |})) 1).
      cbn [currentIndex request payloadIterator withState] in IH.
      destruct (drain fuel _) as [rest final]. cbn [fst] in *.
      rewrite IH; [|done|done|done|done|cbn [length]; lia|lia|].
      * rewrite Hnext. cbn [default id drop].
        rewrite (drop_lookup_cons _ _ _ Hnext). cbn [flat_map map].
        by rewrite drop_0.
      * cbn [length] in *. nia.
Qed.

(** X11: for a request with paths only and no payloads, calling [nextValue]
    until it answers false yields the paths in order up to the first empty
    one, each without a payload binding; and [Remaining] then reports one more
    than the number of paths not generated, so it never reaches zero. *)
Theorem paths_generated_until_first_empty (paths : list string) (fuel : nat) :
  length paths < fuel ->
  let run := drain fuel (newGenerator {| Path := paths; Raw := [] |} None) in
  run.1 = map plain (takeWhile nonEmpty paths) /\
  Remaining run.2 = (Z.of_nat (length paths) - Z.of_nat (length run.1) + 1)%Z.
Proof.
  intros Hf run. unfold run.
  rewrite drain_paths_only by (done || (cbn; lia)). cbn [fst snd].
  split; [done|]. unfold Remaining. cbn. rewrite length_map. do 2 f_equal.
Qed.

Lemma paths_generated_until_first_empty_witness :
  let paths := ["{{BaseURL}}/a"; "{{BaseURL}}/b"; EmptyString; "{{BaseURL}}/c"] in
  let run := drain 5 (newGenerator {| Path := paths; Raw := [] |} None) in
  length paths < 5 /\
  run.1 = map plain (takeWhile nonEmpty paths) /\
  Remaining run.2 = (Z.of_nat (length paths) - Z.of_nat (length run.1) + 1)%Z.
Proof.
  intros paths run.
  assert (H : length paths < 5) by (cbn; lia).
  exact (conj H (paths_generated_until_first_empty paths 5 H)).
Defined.

(** X12: for a request with both paths and raw requests and no payloads, the
    paths being non-empty, the generator yields every path and then the raw
    requests from position [len(Path)] on, up to the first empty one: the
    index is shared, so the first [len(Path)] raw requests are never
    generated. *)
Theorem raws_resume_at_the_index_of_the_paths
    (paths raws : list string) (fuel : nat) :
  forallb nonEmpty paths = true ->
  length paths + (length raws - length paths) < fuel ->
  (drain fuel (newGenerator {| Path := paths; Raw := raws |} None)).1 =
  map plain (paths ++ takeWhile nonEmpty (drop (length paths) raws)).
Proof.
  intros Hall Hf.
  rewrite drain_paths_then_raws by (done || (cbn; lia)). done.
Qed.

Lemma raws_resume_at_the_index_of_the_paths_witness :
  let paths := ["{{BaseURL}}/a"] in
  let raws := ["GET /r0 HTTP/1.1"; "GET /r1 HTTP/1.1"] in
  (forallb nonEmpty paths = true /\ length paths + (length raws - length paths) < 3) /\
  (drain 3 (newGenerator {| Path := paths; Raw := raws |} None)).1 =
  map plain (paths ++ takeWhile nonEmpty (drop (length paths) raws)).
Proof.
  intros paths raws.
  assert (H1 : forallb nonEmpty paths = true) by reflexivity.
  assert (H2 : length paths + (length raws - length paths) < 3) by (cbn; lia).
  exact (conj (conj H1 H2) (raws_resume_at_the_index_of_the_paths paths raws 3 H1 H2)).
Defined.

(** X13: for a request with non-empty raw requests and a payload iterator over
    a non-empty sequence of bindings, the generator yields every raw request
    with every binding, the bindings being run through for one raw request
    before the next one is taken, and then nothing more. *)
Theorem raws_generated_with_every_binding
    (raws : list string) (ps : list Payload) (fuel : nat) :
  forallb nonEmpty raws = true ->
  ps <> [] ->
  length raws * length ps < fuel ->
  (drain fuel (newGenerator {| Path := []; Raw := raws |}
                 (Some {| bindings := ps; position := 0 |}))).1 =
  flat_map (fun item => map (bound item) ps) raws.
Proof.
  intros Hall Hps Hf. destruct raws as [|r0 raws].
  - destruct fuel as [|fuel]; [done|]. reflexivity.
  - rewrite (drain_raws_with_payloads _ _ ps 0); cbn [request Raw Path currentIndex
      payloadIterator newGenerator length]; try done; try lia.
    cbn [length] in Hf. lia.
Qed.

Lemma raws_generated_with_every_binding_witness :
  let raws := ["POST /login a"; "POST /admin b"] in
  let ps : list Payload := [ {[ "pass" := VStr "1" ]}; {[ "pass" := VStr "2" ]} ] in
  (forallb nonEmpty raws = true /\ ps <> [] /\ length raws * length ps < 5) /\
  (drain 5 (newGenerator {| Path := []; Raw := raws |}
              (Some {| bindings := ps; position := 0 |}))).1 =
  flat_map (fun item => map (bound item) ps) raws.
Proof.
  intros raws ps.
  assert (H1 : forallb nonEmpty raws = true) by reflexivity.
  assert (H2 : ps <> []) by discriminate.
  assert (H3 : length raws * length ps < 5) by (cbn; lia).
  exact (conj (conj H1 (conj H2 H3))
           (raws_generated_with_every_binding raws ps 5 H1 H2 H3)).
Defined.

(** X14: in the variables [Make] builds, [BaseURL] is the rendered base URL
    and [Hostname] the host of the target as it was parsed (with its port, also
    when the base URL drops it); both replace a dynamic value of the same
    name, and every other name keeps its dynamic value. *)
Theorem makeValues_lookup
    (dynamicValues : gmap string Value) (data : string) (parsed : GoNet.URL)
    (k : string) :
  makeValues dynamicValues data parsed !! k =
  if decide (k = "BaseURL")
  then Some (VStr (HTTP.baseURLWithTemplatePrefs data parsed))
  else if decide (k = "Hostname") then Some (VStr (GoNet.Host parsed))
  else dynamicValues !! k.
Proof.
  unfold makeValues. rewrite GeneratorsFacts.MergeMaps_union, lookup_union.
  destruct (decide (k = "BaseURL")) as [->|Hb].
  { rewrite lookup_insert_eq. by destruct (dynamicValues !! _). }
  rewrite lookup_insert_ne by done.
  destruct (decide (k = "Hostname")) as [->|Hh].
  { rewrite lookup_insert_eq. by destruct (dynamicValues !! _). }
  rewrite lookup_insert_ne by done. rewrite lookup_empty.
  by destruct (dynamicValues !! k).
Qed.

Example makeValues_hostname_keeps_port :
  let values := makeValues ∅ "{{BaseURL}}:9090/x" (GoNet.target "example.com:8080" "/app") in
  values !! "BaseURL" = Some (VStr "http://example.com/app") /\
  values !! "Hostname" = Some (VStr "example.com:8080").
Proof. split; reflexivity. Qed.

End RequestGeneratorFacts.

(** ** The multi-protocol request *)

Module MultiFacts.
Import GoStringsMore Multi.

Lemma pretty_N_go_length x s :
  String.length s <= String.length (pretty_N_go x s).
Proof.
  revert s. induction (N.lt_wf_0 x) as [x _ IH]; intros s.
  destruct (decide (x = 0%N)) as [->|Hx]; [by rewrite pretty_N_go_0|].
  rewrite pretty_N_go_step by lia.
  etrans; [|apply IH; apply N.div_lt; lia]. simpl. lia.
Qed.

Lemma pretty_N_nonempty (x : N) : pretty x <> EmptyString.
Proof.
  unfold pretty, pretty_N. case_decide; [done|].
  rewrite pretty_N_go_step by lia. intros Hempty.
  pose proof (pretty_N_go_length (x `div` 10)
                (String (pretty_N_char (x `mod` 10)) EmptyString)) as Hl.
  rewrite Hempty in Hl. simpl in Hl. lia.
Qed.

Lemma Itoa_nonempty z : Itoa z <> EmptyString.
Proof.
  unfold Itoa, pretty, pretty_Z. destruct z as [|p|p]; [done| |done].
  apply (pretty_N_nonempty (Npos p)).
Qed.

Lemma append_cancel_l k a b : k +:+ a = k +:+ b -> a = b.
Proof. induction k as [|c k IH]; simpl; [done|]. intros [= H]. by apply IH. Qed.

Lemma append_self k a : k = k +:+ a -> a = EmptyString.
Proof.
  induction k as [|c k IH]; simpl; [done|]. intros [= H]. by apply IH.
Qed.

Lemma keyAt_inj k i j : keyAt k i = keyAt k j -> i = j.
Proof.
  unfold keyAt.
  destruct (Nat.eqb_spec i 0) as [->|Hi], (Nat.eqb_spec j 0) as [->|Hj]; try done.
  - intros H. apply append_self in H. by destruct (Itoa_nonempty (Z.of_nat j)).
  - intros H. symmetry in H. apply append_self in H.
    by destruct (Itoa_nonempty (Z.of_nat i)).
  - intros H. apply append_cancel_l in H. unfold Itoa in H.
    apply (inj pretty) in H. lia.
Qed.

Lemma setIndexed_lookup k v i0 ctx :
  (forall n, i0 <= n -> n < i0 + length v ->
     setIndexed k i0 v ctx !! keyAt k n = v !! (n - i0)) /\
  (forall k', (forall n, i0 <= n -> n < i0 + length v -> k' <> keyAt k n) ->
     setIndexed k i0 v ctx !! k' = ctx !! k').
Proof.
  revert i0 ctx. induction v as [|val rest IH]; intros i0 ctx.
  - split; [intros n ? Hn; simpl in Hn; lia | done].
  - cbn [setIndexed length].
    replace (if (i0 =? 0)%nat then Set_ ctx k val
             else Set_ ctx (k +:+ Itoa (Z.of_nat i0)) val)
      with (Set_ ctx (keyAt k i0) val)
      by (unfold keyAt; by destruct (i0 =? 0)%nat).
    destruct (IH (S i0) (Set_ ctx (keyAt k i0) val)) as [IH1 IH2]. split.
    + intros n Hge Hlt. destruct (decide (n = i0)) as [->|Hne].
      * rewrite IH2.
        -- unfold Set_. rewrite lookup_insert_eq. by rewrite Nat.sub_diag.
        -- intros m Hm _ Heq. apply keyAt_inj in Heq. lia.
      * rewrite IH1 by lia.
        replace (n - i0) with (S (n - S i0)) by lia. done.
    + intros k' Hk'. rewrite IH2.
      * unfold Set_. rewrite lookup_insert_ne; [done|].
        intros Heq. apply (Hk' i0); [lia | lia | done].
      * intros n Hge Hlt. apply Hk'; lia.
Qed.

Lemma exportValue_setIndexed k v ctx : exportValue k v ctx = setIndexed k 0 v ctx.
Proof. by destruct v as [|x [|y rest]]. Qed.


(** X15: exporting a dynamic value [k = [v0; v1; v2; ...]] to the template
    context stores [v0] under [k] and the value at every later index [i] under
    [k] followed by the decimal numeral of [i]; no other name is touched. *)
Theorem exportValue_lookup (k : string) (v : list string) (ctx : gmap string string) :
  (forall i, i < length v -> exportValue k v ctx !! keyAt k i = v !! i) /\
  (forall k', (forall i, i < length v -> k' <> keyAt k i) ->
     exportValue k v ctx !! k' = ctx !! k').
Proof.
  rewrite exportValue_setIndexed.
  destruct (setIndexed_lookup k v 0 ctx) as [H1 H2]. split.
  - intros i Hi. rewrite H1 by lia. by rewrite Nat.sub_0_r.
  - intros k' Hk'. apply H2. intros n _ Hn. apply Hk'. lia.
Qed.

Example exportValue_three :
  let ctx := exportValue "token" ["a"; "b"; "c"] ∅ in
  ctx !! "token" = Some "a" /\ ctx !! "token1" = Some "b" /\ ctx !! "token2" = Some "c" /\
  ctx !! "token0" = None.
Proof. repeat split; reflexivity. Qed.


End MultiFacts.

(** ** Custom headers and the outputs of a response
    ([pkg/executor/executer_http.go]) *)

Module ExecutorHTTPFacts.
Import GoStrings GoStringsMore ExecutorHTTP Matchers.









(** The closed example is on ASCII text. *)
#[local] Existing Instance asciiText.


Lemma matchersLoop_AND noExt ms written :
  matchersLoop ANDCondition noExt ms written = (written, forallb snd ms).
Proof.
  revert written. induction ms as [|[name matched] ms IH]; intros written; simpl; [done|].
  destruct matched; simpl; [apply IH | done].
Qed.

Lemma matchersLoop_OR noExt ms written :
  matchersLoop ORCondition noExt ms written =
  (written ++ (if noExt
               then map (fun m => {| outMatcher := Some m.1; outExtracted := [] |})
                      (List.filter snd ms)
               else []), true).
Proof.
  revert written. induction ms as [|[name matched] ms IH]; intros written; simpl.
  - destruct noExt; by rewrite app_nil_r.
  - destruct matched; simpl; [|apply IH].
    destruct noExt; simpl; rewrite IH; [|done]. by rewrite <- app_assoc.
Qed.

(** X19: the outputs [ExecuteHTTP] writes for one response.  With the AND
    condition there is one output, carrying the extracted values, when every
    matcher matched and none otherwise.  With the OR condition and no
    extractor there is one output for each matcher that matched, in the order
    of the matchers.  With the OR condition and extractors there is exactly
    one output, carrying the extracted values, whether or not any matcher
    matched. *)
Theorem handleResponse_outputs (matcherCondition : ConditionType)
    (matchers : list (string * bool)) (extractors : list (list string)) :
  handleResponse matcherCondition matchers extractors =
  match matcherCondition, extractors with
  | ANDCondition, _ =>
      if forallb snd matchers
      then [ {| outMatcher := None; outExtracted := concat extractors |} ]
      else []
  | ORCondition, [] =>
      map (fun m => {| outMatcher := Some m.1; outExtracted := [] |})
        (List.filter snd matchers)
  | ORCondition, _ :: _ =>
      [ {| outMatcher := None; outExtracted := concat extractors |} ]
  end.
Proof.
  unfold handleResponse. destruct matcherCondition.
  - rewrite matchersLoop_AND. destruct (forallb snd matchers); [|done].
    by rewrite orb_true_r.
  - rewrite matchersLoop_OR. by destruct extractors as [|e es].
Qed.

End ExecutorHTTPFacts.

(** ** The scan strategies ([core] package) *)

Module StrategiesFacts.
Import Core Strategies CoreFacts.

Lemma executeModelWithInput_ResumeFrom execute opts cfg templateID target results0 id :
  entryOf (ResumeFrom (resumeCfg (executeModelWithInput execute opts cfg templateID
                                    target results0))) id =
  entryOf (ResumeFrom cfg) id.
Proof.
  unfold executeModelWithInput. cbn [resumeCfg ResumeFrom]. unfold entryOf at 1.
  destruct (decide (id = templateID)) as [->|Hne].
  - by rewrite lookup_insert_eq.
  - by rewrite lookup_insert_ne.
Qed.

Lemma executeModelWithInput_results execute opts cfg templateID target results0 :
  let run := executeModelWithInput execute opts cfg templateID target results0 in
  results run = results0 || existsb (fun x => execute x.2) (executedTargets run).
Proof.
  unfold executeModelWithInput. cbn [results executedTargets]. f_equal.
  induction (List.filter _ _) as [|t ts IH]; simpl; [done | by rewrite IH].
Qed.

Lemma executeModelWithInput_executed execute opts cfg templateID target results0 :
  (N.of_nat (length (letThrough opts 0 target)) < 2 ^ 32)%N ->
  executedTargets (executeModelWithInput execute opts cfg templateID target results0) =
  List.filter (fun x => negb (resumeSkip (entryOf (ResumeFrom cfg) templateID) x.1))
    (indexed 0 (letThrough opts 0 target)).
Proof.
  intros Hlen. unfold executeModelWithInput. cbn [executedTargets].
  destruct (scan_host_errors opts (entryOf (ResumeFrom cfg) templateID) target
              {| index := 0; currentInFlight := InFlight (entryOf (Current cfg) templateID);
                 tasks := []; scanned := 0 |}) as (Ht & _ & _); [simpl; lia|].
  cbn zeta in Ht. simpl in Ht. rewrite Ht. apply ran_spec.
Qed.

Lemma sprayTemplate_spec opts target acc tpl :
  (N.of_nat (length (letThrough opts 0 target)) < 2 ^ 32)%N ->
  scanExecuted (sprayTemplate opts target acc tpl) =
    scanExecuted acc ++
    executionsOf (scanCfg acc) tpl (indexed 0 (letThrough opts 0 target)).
Proof.
  intros Hlen. unfold sprayTemplate, executionsOf.
  destruct (SelfContained tpl); [done|]. cbn [scanExecuted].
  by rewrite executeModelWithInput_executed.
Qed.

Lemma sprayTemplate_ResumeFrom opts target acc tpl id :
  entryOf (ResumeFrom (scanCfg (sprayTemplate opts target acc tpl))) id =
  entryOf (ResumeFrom (scanCfg acc)) id.
Proof.
  unfold sprayTemplate. destruct (SelfContained tpl); [done|].
  cbn [scanCfg]. apply executeModelWithInput_ResumeFrom.
Qed.

Lemma executionsOf_ext cfg cfg' tpl l :
  (forall id, entryOf (ResumeFrom cfg') id = entryOf (ResumeFrom cfg) id) ->
  executionsOf cfg' tpl l = executionsOf cfg tpl l.
Proof. intros H. unfold executionsOf. by rewrite H. Qed.

Lemma spray_fold opts target tpls acc :
  (N.of_nat (length (letThrough opts 0 target)) < 2 ^ 32)%N ->
  let s := fold_left (sprayTemplate opts target) tpls acc in
  scanExecuted s =
    scanExecuted acc ++
    flat_map (fun tpl => executionsOf (scanCfg acc) tpl (indexed 0 (letThrough opts 0 target)))
      tpls /\
  (forall id, entryOf (ResumeFrom (scanCfg s)) id = entryOf (ResumeFrom (scanCfg acc)) id).
Proof.
  intros Hlen. revert acc. induction tpls as [|tpl tpls IH]; intros acc; cbn zeta.
  - simpl. by rewrite app_nil_r.
  - cbn [fold_left flat_map]. destruct (IH (sprayTemplate opts target acc tpl)) as [He Hr].
    cbn zeta in He, Hr. split.
    + rewrite He, sprayTemplate_spec by done. rewrite <- app_assoc. f_equal. f_equal.
      apply flat_map_ext. intros t. apply executionsOf_ext.
      intros id. apply sprayTemplate_ResumeFrom.
    + intros id. rewrite Hr. apply sprayTemplate_ResumeFrom.
Qed.

Lemma sprayTemplate_results opts target acc tpl :
  scanResults acc = existsb answer (scanExecuted acc) ->
  scanResults (sprayTemplate opts target acc tpl) =
  existsb answer (scanExecuted (sprayTemplate opts target acc tpl)).
Proof.
  intros Hacc. unfold sprayTemplate. destruct (SelfContained tpl).
  - cbn [scanResults scanExecuted]. rewrite existsb_app, Hacc. simpl.
    by rewrite orb_false_r.
  - cbn [scanResults scanExecuted]. rewrite executeModelWithInput_results.
    rewrite existsb_app, Hacc. f_equal.
    induction (executedTargets _) as [|x xs IH]; simpl; [done | by rewrite IH].
Qed.

Lemma spray_fold_results opts target tpls acc :
  scanResults acc = existsb answer (scanExecuted acc) ->
  let s := fold_left (sprayTemplate opts target) tpls acc in
  scanResults s = existsb answer (scanExecuted s).
Proof.
  revert acc. induction tpls as [|tpl tpls IH]; intros acc Hacc; [done|].
  simpl. apply IH. by apply sprayTemplate_results.
Qed.


Lemma letThrough_single_bound opts v :
  (N.of_nat (length (letThrough opts 0 [v])) < 2 ^ 32)%N.
Proof. simpl. destruct (tripped opts 0 v); simpl; lia. Qed.

Lemma host_fold opts tpls target acc :
  let step := fun acc value =>
       let status := executeTemplateSpray opts (scanCfg acc) tpls [value] in
       {| scanCfg := scanCfg status;
          scanExecuted := scanExecuted acc ++ scanExecuted status;
          scanResults := scanResults acc || scanResults status |} in
  let s := fold_left step target acc in
  scanExecuted s =
    scanExecuted acc ++
    flat_map (fun value =>
      flat_map (fun tpl => executionsOf (scanCfg acc) tpl (indexed 0 (letThrough opts 0 [value])))
        tpls) target /\
  (scanResults acc = existsb answer (scanExecuted acc) ->
   scanResults s = existsb answer (scanExecuted s)).
Proof.
  cbn zeta. revert acc. induction target as [|v rest IH]; intros acc.
  - simpl. by rewrite app_nil_r.
  - cbn [fold_left flat_map].
    set (status := executeTemplateSpray opts (scanCfg acc) tpls [v]).
    set (acc1 := {| scanCfg := scanCfg status |}).
    destruct (IH acc1) as [He Hr].
    destruct (spray_fold opts [v] tpls
                {| scanCfg := scanCfg acc; scanExecuted := []; scanResults := false |}
                (letThrough_single_bound opts v)) as [Hs Hcfg].
    cbn zeta in Hs, Hcfg. fold (executeTemplateSpray opts (scanCfg acc) tpls [v]) in Hs, Hcfg.
    fold status in Hs, Hcfg. simpl in Hs, Hcfg.
    split.
    + rewrite He. unfold acc1 at 1. cbn [scanExecuted]. rewrite Hs, <- app_assoc.
      f_equal. f_equal. apply flat_map_ext. intros value. apply flat_map_ext. intros tpl.
      apply executionsOf_ext. intros id. unfold acc1. cbn [scanCfg]. apply Hcfg.
    + intros Hacc. apply Hr. unfold acc1. cbn [scanResults scanExecuted].
      rewrite existsb_app, Hacc. f_equal.
      apply (spray_fold_results opts [v] tpls
               {| scanCfg := scanCfg acc; scanExecuted := []; scanResults := false |}).
      done.
Qed.

(** X20: a call of [executeModelWithInput] and the host-errors cache.  As long
    as the 32-bit index does not wrap, the in-flight set of the template's
    current entry ends as it began, less the indices given to the targets the
    cache let through; but when the cache trips on the last target scanned,
    the index that target was marked with (the number of targets let through)
    is never removed and stays in flight. *)
Theorem executeModelWithInput_in_flight_left
    (execute : string -> bool) (opts : ExecuterOptions) (cfg : ResumeCfg)
    (templateID : string) (target : list string) (results0 : bool) :
  let passed := letThrough opts 0 target in
  let run := executeModelWithInput execute opts cfg templateID target results0 in
  (N.of_nat (length passed) < 2 ^ 32)%N ->
  InFlight (entryOf (Current (resumeCfg run)) templateID) =
    InFlight (entryOf (Current cfg) templateID) ∖ list_to_set (map fst (indexed 0 passed)) ∪
    (if lastTripped opts 0 target then {[ N.of_nat (length passed) ]} else ∅).
Proof.
  intros passed run Hlen. unfold run, executeModelWithInput.
  cbn [resumeCfg Current]. unfold entryOf at 1. rewrite lookup_insert_eq.
  cbn [InFlight]. rewrite cleanupAll_spec.
  destruct (scan_host_errors opts (entryOf (ResumeFrom cfg) templateID) target
              {| index := 0; currentInFlight := InFlight (entryOf (Current cfg) templateID);
                 tasks := []; scanned := 0 |}) as (Ht & Hi & Hf); [simpl; fold passed; lia|].
  cbn zeta in Ht, Hi, Hf. simpl in Ht, Hi, Hf. fold passed in Ht, Hi, Hf.
  rewrite Hf, Ht, Hi, map_map.
  replace (map (fun x => taskIndex (taskOf (entryOf (ResumeFrom cfg) templateID) x))
             (indexed 0 passed))
    with (map fst (indexed 0 passed)) by done.
  assert (Hk : N.of_nat (length passed) ∉
               (list_to_set (map fst (indexed 0 passed)) : gset N)).
  { rewrite elem_of_list_to_set, indexed_fst_lt. lia. }
  generalize dependent (list_to_set (map fst (indexed 0 passed)) : gset N).
  generalize (InFlight (entryOf (Current cfg) templateID)).
  generalize (N.of_nat (length passed)).
  generalize (lastTripped opts 0 target).
  clear. intros b k X Y Hk. destruct b; set_solver.
Qed.

Lemma executeModelWithInput_in_flight_left_witness :
  let run := executeModelWithInput (fun _ => false) (tripsOn "h2")
               {| ResumeFrom := ∅; Current := ∅ |} "s1" ["h0"; "h1"; "h2"] false in
  (N.of_nat (length (letThrough (tripsOn "h2") 0 ["h0"; "h1"; "h2"])) < 2 ^ 32)%N /\
  InFlight (entryOf (Current (resumeCfg run)) "s1") =
    ∅ ∖ list_to_set (map fst (indexed 0 ["h0"; "h1"])) ∪ {[ 2%N ]}.
Proof.
  intros run.
  assert (Hlen : (N.of_nat (length (letThrough (tripsOn "h2") 0 ["h0"; "h1"; "h2"]))
                  < 2 ^ 32)%N) by (vm_compute; reflexivity).
  exact (conj Hlen
           (executeModelWithInput_in_flight_left (fun _ => false) (tripsOn "h2")
              {| ResumeFrom := ∅; Current := ∅ |} "s1" ["h0"; "h1"; "h2"] false Hlen)).
Defined.





(** X23: under both strategies, whatever the host-errors cache does, the
    flag a scan returns is set exactly when one of the executions it made
    answered with a match. *)
Theorem scan_results_iff_an_execution_matched
    (opts : ExecuterOptions) (cfg : ResumeCfg) (templatesList : list Template)
    (target : list string) :
  (let s := executeTemplateSpray opts cfg templatesList target in
   scanResults s = existsb answer (scanExecuted s)) /\
  (let s := executeHostSpray opts cfg templatesList target in
   scanResults s = existsb answer (scanExecuted s)).
Proof.
  split; cbn zeta.
  - by apply (spray_fold_results opts target templatesList
                {| scanCfg := cfg; scanExecuted := []; scanResults := false |}).
  - unfold executeHostSpray.
    pose proof (host_fold opts templatesList target
                  {| scanCfg := cfg; scanExecuted := []; scanResults := false |}) as H.
    cbn zeta in H. destruct H as [_ Hr]. by apply Hr.
Qed.

Lemma EqualFold_ascii {U : GoStrings.Unicode} s t :
  GoStrings.isASCII s = true -> GoStrings.isASCII t = true ->
  GoStrings.EqualFold s t =
  String.eqb (GoStrings.toLowerASCII s) (GoStrings.toLowerASCII t).
Proof. intros Hs Ht. unfold GoStrings.EqualFold. by rewrite Hs, Ht. Qed.

(** X26: the strategy names.  The automatic strategy is recognised whatever
    the case of its letters and runs the template spray; the two named
    strategies are recognised in lower case only: written in another case
    they run nothing and [ExecuteScanWithOpts] returns a nil pointer. *)
Theorem strategy_names_are_case_sensitive {U : GoStrings.Unicode}
    (cluster : list Template -> list Template) (opts : ExecuterOptions) (cfg : ResumeCfg)
    (ScanStrategy : string) (templatesList : list Template) (target : list string)
    (noCluster : bool) :
  let finalTemplates := if noCluster then templatesList else cluster templatesList in
  let run := ExecuteScanWithOpts cluster opts cfg ScanStrategy templatesList target
               noCluster in
  GoStrings.isASCII ScanStrategy = true ->
  (GoStrings.toLowerASCII ScanStrategy = "auto" ->
   run = Some (executeTemplateSpray opts cfg finalTemplates target)) /\
  (GoStrings.toLowerASCII ScanStrategy = "template-spray" ->
   run = if String.eqb ScanStrategy "template-spray"
         then Some (executeTemplateSpray opts cfg finalTemplates target) else None) /\
  (GoStrings.toLowerASCII ScanStrategy = "host-spray" ->
   run = if String.eqb ScanStrategy "host-spray"
         then Some (executeHostSpray opts cfg finalTemplates target) else None).
Proof.
  intros finalTemplates run Hascii. unfold run, ExecuteScanWithOpts.
  replace (if negb noCluster then cluster templatesList else templatesList)
    with finalTemplates by (unfold finalTemplates; by destruct noCluster).
  assert (Hany : EqualFoldAny ScanStrategy ["auto"; EmptyString] =
                 String.eqb (GoStrings.toLowerASCII ScanStrategy) "auto" ||
                 String.eqb (GoStrings.toLowerASCII ScanStrategy) EmptyString).
  { unfold EqualFoldAny. cbn [existsb].
    rewrite !EqualFold_ascii by done. by rewrite orb_false_r. }
  rewrite Hany. clear Hany.
  split; [|split]; intros Hl; rewrite Hl.
  - reflexivity.
  - change (String.eqb "template-spray" "auto" || String.eqb "template-spray" EmptyString)
      with false. cbv iota.
    destruct (String.eqb ScanStrategy "template-spray") eqn:He; [done|].
    by destruct (String.eqb_spec ScanStrategy "host-spray") as [->|_].
  - change (String.eqb "host-spray" "auto" || String.eqb "host-spray" EmptyString)
      with false. cbv iota.
    by destruct (String.eqb_spec ScanStrategy "template-spray") as [->|_].
Qed.

Lemma strategy_names_are_case_sensitive_witness :
  GoStrings.isASCII "Host-Spray" = true /\
  ExecuteScanWithOpts (U := GoStrings.asciiText) (fun l => l) noHostErrors resumedCfg
    "Host-Spray" [] tenTargets true = None.
Proof.
  exact (conj eq_refl
           (proj2 (proj2 (strategy_names_are_case_sensitive (U := GoStrings.asciiText)
                            (fun l => l) noHostErrors resumedCfg "Host-Spray" []
                            tenTargets true eq_refl)) eq_refl)).
Defined.

End StrategiesFacts.

(** ** Loading templates and workflows ([parsers] package) *)

Module ParsersFacts.
Import Templates Parsers.

Lemma ParseTemplate_inv env cache p cache1 t :
  ParseTemplate env cache p = (cache1, (Some t, None)) ->
  cache1 !! p = Some (t, None).
Proof.
  unfold ParseTemplate, Has, Store.
  destruct (cache !! p) as [[v e]|] eqn:Hc.
  - intros [= <- <- ->]. done.
  - destruct (readFile env p) as [data|]; [|done].
    destruct (decode env data) as [t'|]; [|done].
    intros [= <- <-]. apply lookup_insert_eq.
Qed.

Lemma ParseTemplate_hit env cache p t :
  cache !! p = Some (t, None) -> ParseTemplate env cache p = (cache, (Some t, None)).
Proof. intros H. unfold ParseTemplate, Has. by rewrite H. Qed.

Lemma LoadTemplate_inv env cache p tagFilterMatch extraTags cache1 err :
  LoadTemplate env cache p tagFilterMatch extraTags = (cache1, (true, err)) ->
  exists t, cache1 !! p = Some (t, None) /\ Workflows t = [] /\
            IsBlank (Name (Info_ t)) = false /\ IsEmpty (Authors (Info_ t)) = false.
Proof.
  unfold LoadTemplate.
  destruct (ParseTemplate env cache p) as [c [[t|] [e|]]] eqn:HP; try done.
  destruct (Workflows t) as [|w ws] eqn:Hw; [|done].
  change (0 <? length (@nil string))%nat with false. cbv iota.
  destruct (validateMandatoryInfoFields (Some (Info_ t))) eqn:Hv; [done|].
  intros [Hc1 Hm]%pair_equal_spec. subst c. exists t. split; [by apply ParseTemplate_inv in HP|]. split; [done|].
  unfold validateMandatoryInfoFields in Hv.
  destruct (IsBlank (Name (Info_ t))); [done|].
  by destruct (IsEmpty (Authors (Info_ t))).
Qed.

Lemma LoadWorkflow_inv env cache p cache1 err :
  LoadWorkflow env cache p = (cache1, (true, err)) ->
  exists t, cache1 !! p = Some (t, None) /\ Workflows t <> [] /\ err = None /\
            IsBlank (Name (Info_ t)) = false /\ IsEmpty (Authors (Info_ t)) = false.
Proof.
  unfold LoadWorkflow.
  destruct (ParseTemplate env cache p) as [c [[t|] [e|]]] eqn:HP; try done.
  destruct (Workflows t) as [|w ws] eqn:Hw; [done|].
  change (0 <? length (w :: ws))%nat with true. cbv iota.
  destruct (validateMandatoryInfoFields (Some (Info_ t))) eqn:Hv; [done|].
  intros [= <- <-]. exists t. split; [by apply ParseTemplate_inv in HP|].
  split; [by rewrite Hw|]. split; [done|].
  unfold validateMandatoryInfoFields in Hv.
  destruct (IsBlank (Name (Info_ t))); [done|].
  by destruct (IsEmpty (Authors (Info_ t))).
Qed.

(** X24: a path is never loaded both as a template and as a workflow.  When
    [LoadTemplate] answers true for a path, a later [LoadWorkflow] of the path
    answers false without an error, whatever the file has become, and the
    other way round: the two read the same cached template and test its
    workflows in opposite ways. *)
Theorem LoadTemplate_LoadWorkflow_exclusive (env env' : Env)
    (cache : gmap string (Template * option string)) (p : string)
    (tagFilterMatch : list string -> list string -> string -> list string ->
                      bool * option string)
    (extraTags : list string)
    (cache1 : gmap string (Template * option string)) (err : option string) :
  (LoadTemplate env cache p tagFilterMatch extraTags = (cache1, (true, err)) ->
   LoadWorkflow env' cache1 p = (cache1, (false, None))) /\
  (LoadWorkflow env cache p = (cache1, (true, err)) ->
   LoadTemplate env' cache1 p tagFilterMatch extraTags = (cache1, (false, None))).
Proof.
  split; intros HL.
  - apply LoadTemplate_inv in HL as (t & Hc & Hw & _).
    unfold LoadWorkflow. rewrite (ParseTemplate_hit env' cache1 p t Hc). by rewrite Hw.
  - apply LoadWorkflow_inv in HL as (t & Hc & Hw & _).
    unfold LoadTemplate. rewrite (ParseTemplate_hit env' cache1 p t Hc).
    by destruct (Workflows t).
Qed.

Lemma LoadTemplate_LoadWorkflow_exclusive_witness :
  let env := oneFile "t.yaml" (httpTemplate "git-config" "Git config" ["a"]) in
  let loaded := LoadTemplate env ∅ "t.yaml" matchAll [] in
  loaded = (loaded.1, (true, None)) /\
  LoadWorkflow noFiles loaded.1 "t.yaml" = (loaded.1, (false, None)).
Proof.
  intros env loaded.
  exact (conj eq_refl
           (proj1 (LoadTemplate_LoadWorkflow_exclusive env noFiles ∅ "t.yaml" matchAll []
                     loaded.1 None) eq_refl)).
Defined.

(** X25: what is loaded was validated.  When [LoadTemplate] answers true the
    cache holds, under the path, a template without workflows whose name is
    not blank and whose authors are not empty; when [LoadWorkflow] answers
    true it holds one with workflows and the same two fields, and no error is
    returned. *)
Theorem loaded_was_validated (env : Env)
    (cache : gmap string (Template * option string)) (p : string)
    (tagFilterMatch : list string -> list string -> string -> list string ->
                      bool * option string)
    (extraTags : list string)
    (cache1 : gmap string (Template * option string)) (err : option string) :
  (LoadTemplate env cache p tagFilterMatch extraTags = (cache1, (true, err)) ->
   exists t, cache1 !! p = Some (t, None) /\ Workflows t = [] /\
             IsBlank (Name (Info_ t)) = false /\ IsEmpty (Authors (Info_ t)) = false) /\
  (LoadWorkflow env cache p = (cache1, (true, err)) ->
   exists t, cache1 !! p = Some (t, None) /\ Workflows t <> [] /\ err = None /\
             IsBlank (Name (Info_ t)) = false /\ IsEmpty (Authors (Info_ t)) = false).
Proof. split; [apply LoadTemplate_inv | apply LoadWorkflow_inv]. Qed.

Lemma loaded_was_validated_witness :
  let env := oneFile "t.yaml" (httpTemplate "git-config" "Git config" ["a"]) in
  let loaded := LoadTemplate env ∅ "t.yaml" matchAll [] in
  loaded = (loaded.1, (true, None)) /\
  exists t, loaded.1 !! "t.yaml" = Some (t, None) /\ Workflows t = [] /\
            IsBlank (Name (Info_ t)) = false /\ IsEmpty (Authors (Info_ t)) = false.
Proof.
  intros env loaded.
  exact (conj eq_refl
           (proj1 (loaded_was_validated env ∅ "t.yaml" matchAll [] loaded.1 None) eq_refl)).
Defined.

End ParsersFacts.
